(** * Pontus execution layer: route graph, decision layer, segment executors
      and execution orchestrator

    A shallow embedding of
      - [app/services/graph_builder.py]                       (module [Graph])
      - [app/services/ortools_solver.py], the path metrics,
        and [app/services/argmax_decision.py]                 (module [Decision])
      - [app/services/execution/simulator.py]                 (module [Simulator])
      - [app/services/execution/segment_executors.py]         (module [Executors])
      - [app/services/execution/advanced_execution_service.py] (module [Orchestrator])
      - [rank_routes] of [app/services/argmax_decision.py]     (module [Ranking])
      - [_fallback_graph_search] of [ortools_solver.py]        (module [Solver])
      - [get_transaction_status] of the simulator              (module [SimulatorQueries])

    Conventions of the embedding.
      - Python [float] amounts, fees, rates and scores are exact rationals
        ([Q], compared with [==]); infinities and NaN are outside the model.
        A float division is partial: it raises [ZeroDivisionError] on a zero
        divisor, which [Py.div] keeps visible.  Where the rounding of binary64
        decides what the program does, namely in the top-up and the debit of a
        balance, the statements are also embedded over the floats of the
        interpreter (module [Binary64]).
      - [dict]s that are only looked up and updated are [gmap]s; the adjacency
        structure of the route graph, whose iteration order decides the order
        in which paths are found, is an insertion-ordered association list.
      - Random choices (wallet addresses, transaction hashes) and the
        interference of other tasks with the shared execution state are
        explicit arguments.  Wall-clock time, simulated delays and log output
        are not modelled.
      - Only the simulation mode of the executors is embedded; the "real"
        mode talks to external provider APIs. *)

From Stdlib Require Import ZArith QArith Qminmax String List Bool Lia Lqa Sorted.
From Stdlib Require PrimFloat.
From stdpp Require Import base option list gmap strings.
Import ListNotations.

Local Open Scope Q_scope.

(* ===================================================================== *)
(** * Part I: the program *)
(* ===================================================================== *)

(** ** Python values *)

Module Py.

(** [x < y] and [x <= y] on floats. *)
Definition lt (x y : Q) : bool := negb (Qle_bool y x).
Definition le (x y : Q) : bool := Qle_bool x y.

(** The builtin [max(a, b)]: [b] only when [b > a]. *)
Definition max (a b : Q) : Q := if lt a b then b else a.

(** The builtin [min(a, b)]: [b] only when [b < a]. *)
Definition min (a b : Q) : Q := if lt b a then b else a.

(** [min(xs)] and [max(xs)] of a non-empty list: the first extremal
    element; [None] is the [ValueError] on an empty one. *)
Definition min_list (xs : list Q) : option Q :=
  match xs with
  | [] => None
  | x :: r => Some (fold_left (fun best y => if lt y best then y else best) r x)
  end.

Definition max_list (xs : list Q) : option Q :=
  match xs with
  | [] => None
  | x :: r => Some (fold_left (fun best y => if lt best y then y else best) r x)
  end.

(** [x / y]; [None] is [ZeroDivisionError]. *)
Definition div (x y : Q) : option Q :=
  if Qeq_bool y 0 then None else Some (x / y).

(** [sum(xs)], which starts from [0]. *)
Definition sum (xs : list Q) : Q := fold_left Qplus xs 0.

(** Truth value of an [Optional[str]]: [None] and the empty string are
    false. *)
Definition truthy (o : option string) : bool :=
  match o with
  | Some s => negb (String.eqb s EmptyString)
  | None => false
  end.

(** What an f-string prints for an [Optional[str]]. *)
Definition fmt (o : option string) : string :=
  match o with
  | Some s => s
  | None => "None"
  end.

End Py.

(** ** [app/schemas/route_segment.py] *)

Inductive SegmentType :=
  FX | CRYPTO | GAS | BRIDGE | ON_RAMP | OFF_RAMP | BANK_RAIL | LIQUIDITY.

#[global] Instance SegmentType_eq_dec : EqDecision SegmentType.
Proof. solve_decision. Defined.

Definition SegmentType_value (t : SegmentType) : string :=
  match t with
  | FX => "fx" | CRYPTO => "crypto" | GAS => "gas" | BRIDGE => "bridge"
  | ON_RAMP => "on_ramp" | OFF_RAMP => "off_ramp"
  | BANK_RAIL => "bank_rail" | LIQUIDITY => "liquidity"
  end.

(** [SegmentType(s)]; [None] is the [ValueError] of an unknown value. *)
Definition SegmentType_of_value (s : string) : option SegmentType :=
  if String.eqb s "fx" then Some FX
  else if String.eqb s "crypto" then Some CRYPTO
  else if String.eqb s "gas" then Some GAS
  else if String.eqb s "bridge" then Some BRIDGE
  else if String.eqb s "on_ramp" then Some ON_RAMP
  else if String.eqb s "off_ramp" then Some OFF_RAMP
  else if String.eqb s "bank_rail" then Some BANK_RAIL
  else if String.eqb s "liquidity" then Some LIQUIDITY
  else None.

(** An entry of the [cost] dict that the executors compare with a number:
    the key may be missing (the [.get] default applies), hold [None] (the
    schema's default for [effective_fx_rate]) or hold a number. *)
Inductive CostEntry :=
  | Missing
  | PyNone
  | Num (q : Q).

(** [d.get(key, dflt)] where a number is needed; [None] when the dict holds
    [None], which raises [TypeError] as soon as the value is used. *)
Definition cost_number (dflt : Q) (e : CostEntry) : option Q :=
  match e with
  | Missing => Some dflt
  | PyNone => None
  | Num q => Some q
  end.

Record Cost := mkCost {
  fee_percent : CostEntry;
  fixed_fee : CostEntry;
  effective_fx_rate : CostEntry
}.

Record Latency := mkLatency {
  min_minutes : option Z;
  max_minutes : option Z
}.

Record RouteSegment := mkSegment {
  segment_type : SegmentType;
  from_asset : string;
  to_asset : string;
  from_network : option string;
  to_network : option string;
  cost : Cost;
  latency : Latency;
  reliability_score : Q;
  provider : option string
}.

(** [segment_type in [SegmentType.FX, SegmentType.BANK_RAIL]] *)
Definition is_fx_or_bank_rail (t : SegmentType) : bool :=
  match t with
  | FX | BANK_RAIL => true
  | _ => false
  end.

(** The conditional expression [f"{asset}@{network}" if network else asset]. *)
Definition qualified (asset : string) (network : option string) : string :=
  if Py.truthy network then asset +:+ "@" +:+ Py.fmt network else asset.

(** ** [app/services/graph_builder.py] *)

Module Graph.

(** [Dict[str, Dict[str, List[RouteSegment]]]], in insertion order. *)
Definition Neighbors := list (string * list RouteSegment).
Definition Adjacency := list (string * Neighbors).

Record RouteGraph := mkGraph {
  graph : Adjacency;
  nodes : gset string;
  segments : list RouteSegment
}.

(** [RouteGraph()] *)
Definition empty : RouteGraph := mkGraph [] ∅ [].

(** [d.get(k, default)] on an insertion-ordered dict. *)
Fixpoint lookup {V} (k : string) (d : list (string * V)) : option V :=
  match d with
  | [] => None
  | (k', v) :: r => if String.eqb k k' then Some v else lookup k r
  end.

(** [d[k] = f(d[k])] on a [defaultdict]: an existing key keeps its place, a
    new key is created from [dflt] at the end. *)
Fixpoint update {V} (k : string) (f : V -> V) (dflt : V) (d : list (string * V))
  : list (string * V) :=
  match d with
  | [] => [(k, f dflt)]
  | (k', v) :: r =>
      if String.eqb k k' then (k', f v) :: r else (k', v) :: update k f dflt r
  end.

(** The node identifiers [(from_node, to_node)] that [add_segment] creates
    for a segment. *)
Definition endpoints (segment : RouteSegment) : string * string :=
  if is_fx_or_bank_rail (segment_type segment) then
    (from_asset segment, to_asset segment)
  else
    (qualified (from_asset segment) (from_network segment),
     qualified (to_asset segment) (to_network segment)).

Definition add_segment (g : RouteGraph) (segment : RouteSegment) : RouteGraph :=
  let '(from_node, to_node) := endpoints segment in
  mkGraph
    (update from_node
       (update to_node (fun l => l ++ [segment]) []) [] (graph g))
    ({[to_node]} ∪ ({[from_node]} ∪ nodes g))
    (segments g ++ [segment]).

Definition get_neighbors (g : RouteGraph) (node : string) : Neighbors :=
  default [] (lookup node (graph g)).

Definition get_segments (g : RouteGraph) (from_node to_node : string)
  : list RouteSegment :=
  default [] (lookup to_node (default [] (lookup from_node (graph g)))).

(** [GraphBuilder.build_graph] *)
Definition build_graph (segs : list RouteSegment) : RouteGraph :=
  fold_left add_segment segs empty.

(** [GraphBuilder.normalize_node]; [segment_type] defaults to [None]. *)
Definition normalize_node (asset : string) (network : option string)
    (st : option SegmentType) : string :=
  match st with
  | Some t => if is_fx_or_bank_rail t then asset else qualified asset network
  | None => qualified asset network
  end.

(** The destination test of the search:
    [any(current == end or current.startswith(end + "@") for end in end_nodes)]. *)
Definition reached (end_nodes : list string) (current : string) : bool :=
  existsb (fun e => String.eqb current e || String.prefix (e +:+ "@") current)
          end_nodes.

(** The node the search moves to along a segment. *)
Definition next_node (segment : RouteSegment) : string :=
  if is_fx_or_bank_rail (segment_type segment) then to_asset segment
  else qualified (to_asset segment) (to_network segment).

(** A loop whose body may run out of fuel, collecting what the body
    appends to [all_paths]. *)
Fixpoint collect {A B} (f : A -> option (list B)) (l : list A)
  : option (list B) :=
  match l with
  | [] => Some []
  | a :: r =>
      match f a, collect f r with
      | Some x, Some y => Some (x ++ y)
      | _, _ => None
      end
  end.

(** The inner function [dfs] of [find_paths].  It returns the paths it
    appends to [all_paths], in order.  [path] is mutated in place by the
    source ([append] before the recursive call, [pop] after it) and copied
    when recorded, [visited] is handed down as a copy; both are values here.
    The recursion is bounded by [depth > max_hops]; [fuel] makes it
    structural, and [None] means the fuel ran out. *)
Fixpoint dfs (fuel : nat) (g : RouteGraph) (end_nodes : list string)
    (max_hops : Z) (current : string) (path : list RouteSegment) (depth : Z)
    (visited : gset string) : option (list (list RouteSegment)) :=
  match fuel with
  | O => None
  | S fuel' =>
      if (max_hops <? depth)%Z then Some []
      else if reached end_nodes current then Some [path]
      else if bool_decide (current ∈ visited) then Some []
      else
        let visited' := {[current]} ∪ visited in
        collect
          (fun '(neighbor, segments_list) =>
             collect
               (fun segment =>
                  dfs fuel' g end_nodes max_hops (next_node segment)
                      (path ++ [segment]) (depth + 1)%Z visited')
               segments_list)
          (get_neighbors g current)
  end.

Definition default_max_hops : Z := 5.

(** The lists [start_nodes] and [end_nodes] of [find_paths]: the node with
    the network and, when a network is given, also the node without it. *)
Definition candidates (asset : string) (network : option string) : list string :=
  let node := qualified asset network in
  if Py.truthy network then [node; asset] else [node].

Definition find_paths_fuel (fuel : nat) (g : RouteGraph)
    (from_asset to_asset : string) (from_network to_network : option string)
    (max_hops : Z) : option (list (list RouteSegment)) :=
  let start_nodes := candidates from_asset from_network in
  let end_nodes := candidates to_asset to_network in
  collect
    (fun start =>
       if bool_decide (start ∈ nodes g)
       then dfs fuel g end_nodes max_hops start [] 0%Z ∅
       else Some [])
    start_nodes.

(** [RouteGraph.find_paths]: the search never goes deeper than
    [max_hops + 1] edges, so this much fuel is enough (lemma [dfs_total]). *)
Definition find_paths (g : RouteGraph) (from_asset to_asset : string)
    (from_network to_network : option string) (max_hops : Z)
  : option (list (list RouteSegment)) :=
  find_paths_fuel (Z.to_nat max_hops + 2) g from_asset to_asset
                  from_network to_network max_hops.

End Graph.

(** *** Node identity in the words of the specification

    For FX and BANK_RAIL segments a node is the asset alone; for every other
    type it is the asset combined with the network when the network is
    present, else the asset alone.  A network is present when the field
    holds a non-empty string: the source tests its truth value. *)
Inductive node_identity (t : SegmentType) (asset : string)
    (network : option string) : string -> Prop :=
  | identity_asset_only :
      t = FX \/ t = BANK_RAIL ->
      node_identity t asset network asset
  | identity_with_network (n : string) :
      t <> FX -> t <> BANK_RAIL -> network = Some n -> n <> EmptyString ->
      node_identity t asset network (asset +:+ "@" +:+ n)
  | identity_without_network :
      t <> FX -> t <> BANK_RAIL -> network = None \/ network = Some EmptyString ->
      node_identity t asset network asset.

(** *** Paths in the words of the specification

    A path is a sequence of segments; started at a node it visits the
    [path_nodes]; it is a walk when every segment leaves the node that the
    previous one reached. *)
Definition path_nodes (start : string) (p : list RouteSegment) : list string :=
  start :: map (fun s => snd (Graph.endpoints s)) p.

Fixpoint walk_from (start : string) (p : list RouteSegment) : Prop :=
  match p with
  | [] => True
  | s :: r => fst (Graph.endpoints s) = start /\ walk_from (snd (Graph.endpoints s)) r
  end.

(** What [find_paths] promises of a path it returns for a query: a walk
    from one of the source nodes to a node that counts as the destination,
    without a repeated node, of at most [max_hops] segments. *)
Definition acyclic_route (from_asset to_asset : string)
    (from_network to_network : option string) (max_hops : Z)
    (p : list RouteSegment) : Prop :=
  exists start dest : string,
    In start (Graph.candidates from_asset from_network)
    /\ walk_from start p
    /\ last (path_nodes start p) = Some dest
    /\ Graph.reached (Graph.candidates to_asset to_network) dest = true
    /\ NoDup (path_nodes start p)
    /\ (Z.of_nat (length p) <= max_hops)%Z.

(** ** [app/services/ortools_solver.py]: path metrics, and
       [app/services/argmax_decision.py] *)

Module Decision.

(** The dict returned by [_calculate_path_metrics]. *)
Record Metrics := mkMetrics {
  total_cost : Q;
  total_cost_percent : Q;
  total_fixed_fee : Q;
  total_latency : Q;
  min_latency : Z;
  max_latency : Z;
  reliability : Q;
  combined_score : Q;
  num_segments : nat
}.

Record Weights := mkWeights {
  cost_weight : Q;
  latency_weight : Q;
  reliability_weight : Q
}.

(** The accumulation loop of [_calculate_path_metrics]:
    (total_cost_percent, total_fixed_fee, total_min_latency,
     total_max_latency, reliability_scores). *)
Definition Totals := (Q * Q * Z * Z * list Q)%type.

Definition accumulate (acc : option Totals) (segment : RouteSegment)
  : option Totals :=
  match acc with
  | None => None
  | Some (pct, fixed, lo, hi, rels) =>
      match cost_number 0 (fee_percent (cost segment)),
            cost_number 0 (fixed_fee (cost segment)) with
      | Some p, Some f =>
          Some (pct + p, fixed + f,
                (lo + default 0%Z (min_minutes (latency segment)))%Z,
                (hi + default 0%Z (max_minutes (latency segment)))%Z,
                rels ++ [reliability_score segment])
      | _, _ => None
      end
  end.

(** [ORToolsSolver._calculate_path_metrics]; [None] is an exception. *)
Definition calculate_path_metrics (w : Weights) (path : list RouteSegment)
  : option Metrics :=
  match fold_left accumulate path (Some (0, 0, 0%Z, 0%Z, [])) with
  | None => None
  | Some (pct, fixed, lo, hi, rels) =>
      let avg_reliability :=
        match rels with
        | [] => 0
        | _ => Py.sum rels / inject_Z (Z.of_nat (length rels))
        end in
      let avg_latency_hours := (inject_Z (lo + hi) / 2) / 60 in
      let combined :=
        cost_weight w * (pct + fixed * 0.0001)
        + latency_weight w * avg_latency_hours
        + reliability_weight w * (1 - avg_reliability) in
      Some (mkMetrics (pct + fixed * 0.0001) pct fixed
                      (inject_Z (lo + hi) / 2) lo hi avg_reliability
                      combined (length path))
  end.

Definition Candidate := (list RouteSegment * Metrics)%type.
Definition Scored := (list RouteSegment * Metrics * Q)%type.

(** The three values bound by [select_optimal_route] for one metric:
    [min_x], [max_x] and [x_range]. *)
Definition lowest (xs : list Q) : Q := default 0 (Py.min_list xs).
Definition highest (xs : list Q) : Q := default 1 (Py.max_list xs).
Definition range_of (xs : list Q) : Q :=
  if Py.lt (lowest xs) (highest xs) then highest xs - lowest xs else 1.

(** [(x - min_x) / x_range if x_range > 0 else 0.0] *)
Definition normalize (xs : list Q) (x : Q) : option Q :=
  if Py.lt 0 (range_of xs) then Py.div (x - lowest xs) (range_of xs)
  else Some 0.

(** The body of the scoring loop for one candidate. *)
Definition score_one (alpha beta gamma : Q) (costs latencies reliabilities : list Q)
    (c : Candidate) : option Scored :=
  match normalize costs (total_cost (snd c)),
        normalize latencies (total_latency (snd c)),
        normalize reliabilities (reliability (snd c)) with
  | Some norm_cost, Some norm_latency, Some r =>
      let norm_reliability := 1 - r in
      Some (fst c, snd c,
            alpha * norm_cost + beta * norm_latency + gamma * norm_reliability)
  | _, _, _ => None
  end.

(** The list comprehension-like loop that fills [normalized_routes];
    [None] is an exception raised by some iteration. *)
Fixpoint score_all (alpha beta gamma : Q) (costs latencies reliabilities : list Q)
    (cs : list Candidate) : option (list Scored) :=
  match cs with
  | [] => Some []
  | c :: r =>
      match score_one alpha beta gamma costs latencies reliabilities c,
            score_all alpha beta gamma costs latencies reliabilities r with
      | Some s, Some l => Some (s :: l)
      | _, _ => None
      end
  end.

Definition normalized_routes (alpha beta gamma : Q) (candidate_routes : list Candidate)
  : option (list Scored) :=
  score_all alpha beta gamma
    (map (fun c => total_cost (snd c)) candidate_routes)
    (map (fun c => total_latency (snd c)) candidate_routes)
    (map (fun c => reliability (snd c)) candidate_routes)
    candidate_routes.

(** [min(range(len(l)), key=lambda i: l[i][2])] over the remaining scores:
    the running best index is replaced only by a strictly smaller score.
    [numpy.argmin] returns the same index, the first occurrence of the
    minimum. *)
Fixpoint argmin_from (scores : list Q) (i best : nat) (best_score : Q) : nat :=
  match scores with
  | [] => best
  | s :: r =>
      if Py.lt s best_score then argmin_from r (S i) i s
      else argmin_from r (S i) best best_score
  end.

Definition argmin (scores : list Q) : option nat :=
  match scores with
  | [] => None
  | s :: r => Some (argmin_from r 1 0 s)
  end.

Inductive Selection :=
  | NoCandidate                       (* [(None, {}, 0.0)] *)
  | Selected (optimal : Scored).

(** [ArgMaxDecisionLayer.select_optimal_route]; [None] is an exception. *)
Definition select_optimal_route (alpha beta gamma : Q)
    (candidate_routes : list Candidate) : option Selection :=
  match candidate_routes with
  | [] => Some NoCandidate
  | _ =>
      match normalized_routes alpha beta gamma candidate_routes with
      | None => None
      | Some routes =>
          match argmin (map snd routes) with
          | None => None
          | Some optimal_idx =>
              match nth_error routes optimal_idx with
              | Some r => Some (Selected r)
              | None => None
              end
          end
      end
  end.

(** *** The scoring rule in the words of the specification

    Min-max normalisation of one metric over the candidate set, a
    degenerate range giving 0; the reliability term inverted; the three
    terms weighted.  [cost_of] is the cost metric that is normalised. *)
Definition least (xs : list Q) : Q := fold_right Qmin (hd 0 xs) xs.
Definition greatest (xs : list Q) : Q := fold_right Qmax (hd 0 xs) xs.

Definition minmax (xs : list Q) (x : Q) : Q :=
  if Qeq_bool (greatest xs) (least xs) then 0
  else (x - least xs) / (greatest xs - least xs).

Definition minmax_score (cost_of : Metrics -> Q) (alpha beta gamma : Q)
    (cs : list Candidate) (m : Metrics) : Q :=
  alpha * minmax (map (fun c => cost_of (snd c)) cs) (cost_of m)
  + beta * minmax (map (fun c => total_latency (snd c)) cs) (total_latency m)
  + gamma * (1 - minmax (map (fun c => reliability (snd c)) cs) (reliability m)).

End Decision.

(** ** [app/schemas/execution.py] *)

Module SegmentExecutionStatus.
Inductive t := PENDING | EXECUTING | CONFIRMING | COMPLETED | FAILED | SKIPPED.

Definition eqb (a b : t) : bool :=
  match a, b with
  | PENDING, PENDING | EXECUTING, EXECUTING | CONFIRMING, CONFIRMING
  | COMPLETED, COMPLETED | FAILED, FAILED | SKIPPED, SKIPPED => true
  | _, _ => false
  end.
End SegmentExecutionStatus.

Module ExecutionStatus.
Inductive t :=
  PENDING | IN_PROGRESS | PAUSED | COMPLETED | FAILED | CANCELLED | REROUTING.
End ExecutionStatus.

(** The exceptions that the embedded code can raise, and so the error
    messages of its results. *)
Inductive Exn :=
  | TypeError                      (* arithmetic or comparison with [None] *)
  | InvalidRate (rate : Q)         (* [ValueError(f"Invalid ... rate: {rate}")] *)
  | InvalidInputAmount (amount : Q)
  | EmptyRange                     (* [random.randint(a, b)] with [a > b] *)
  | TransactionNotFound (tx_hash : string)
  | InvalidSegmentType (value : string)
  | ValidationError                (* pydantic rejects a [RouteSegment] field *)
  | NoExecutor (value : string).   (* the message of a skipped segment *)

Record SegmentExecutionResult := mkResult {
  segment_index : nat;
  result_segment_type : string;
  result_from_asset : string;
  result_to_asset : string;
  result_from_network : option string;
  result_to_network : option string;
  status : SegmentExecutionStatus.t;
  input_amount : Q;
  output_amount : Q;
  fees_paid : Q;
  transaction_hash : option string;
  result_provider : option string;
  error_message : option Exn;
  (** [simulation_data.get("wallet_address")] *)
  simulation_wallet_address : option string
}.

(** ** [app/services/execution/simulator.py] *)

Module Simulator.

Record Transaction := mkTransaction {
  tx_type : string;
  tx_from_address : option string;
  tx_asset : string;
  tx_amount : Q;
  tx_network : option string;
  tx_status : string;
  tx_confirmations : Z
}.

Record t := mk {
  wallets : gmap string (gmap string Q);
  transactions : gmap string Transaction;
  confirmations : gmap string Z
}.

(** [Simulator()] *)
Definition init : t := mk ∅ ∅ ∅.

(** [if wallet_id not in self.wallets: self.wallets[wallet_id] = {}] *)
Definition ensure_wallet (wallet_id : string) (s : t) : t :=
  match wallets s !! wallet_id with
  | Some _ => s
  | None => mk (<[wallet_id := ∅]> (wallets s)) (transactions s) (confirmations s)
  end.

(** [wallet_id] is the address drawn by [random.choices]. *)
Definition generate_wallet (wallet_id : string) (s : t) : string * t :=
  (wallet_id, ensure_wallet wallet_id s).

Definition get_balance (wallet_id asset : string) (s : t) : Q * t :=
  let s' := ensure_wallet wallet_id s in
  (default 0 (default ∅ (wallets s' !! wallet_id) !! asset), s').

Definition set_balance (wallet_id asset : string) (amount : Q) (s : t) : t :=
  let s' := ensure_wallet wallet_id s in
  mk (<[wallet_id := <[asset := amount]> (default ∅ (wallets s' !! wallet_id))]>
        (wallets s'))
     (transactions s') (confirmations s').

Definition add_balance (wallet_id asset : string) (amount : Q) (s : t) : t :=
  let '(current, s') := get_balance wallet_id asset s in
  set_balance wallet_id asset (current + amount) s'.

(** Returns [True] if successful. *)
Definition subtract_balance (wallet_id asset : string) (amount : Q) (s : t)
  : bool * t :=
  let '(current, s') := get_balance wallet_id asset s in
  if Py.le amount current
  then (true, set_balance wallet_id asset (current - amount) s')
  else (false, s').

(** [tx_hash] is the hash drawn by [generate_transaction_hash]. *)
Definition create_transaction (tx_hash : string) (type : string)
    (from_address : option string) (asset : string) (amount : Q)
    (network : option string) (s : t) : string * t :=
  (tx_hash,
   mk (wallets s)
      (<[tx_hash := mkTransaction type from_address asset amount network
                                  "pending" 0]> (transactions s))
      (<[tx_hash := 0%Z]> (confirmations s))).

(** [blocks_to_confirm] is the number drawn by [random.randint]; the
    result is the number of confirmations, or the [ValueError] of an
    unknown hash. *)
Definition simulate_confirmation (tx_hash : string) (blocks_to_confirm : Z)
    (s : t) : t * (Exn + Z) :=
  match transactions s !! tx_hash with
  | None => (s, inl (TransactionNotFound tx_hash))
  | Some tx =>
      (mk (wallets s)
          (<[tx_hash := mkTransaction (tx_type tx) (tx_from_address tx)
                          (tx_asset tx) (tx_amount tx) (tx_network tx)
                          "confirmed" blocks_to_confirm]> (transactions s))
          (<[tx_hash := blocks_to_confirm]> (confirmations s)),
       inr blocks_to_confirm)
  end.

(** [simulate_fx_conversion]: no ledger involvement; [random.randint]
    raises on an empty range of minutes. *)
Definition simulate_fx_conversion (min_minutes max_minutes : Z) (s : t)
  : t * (Exn + unit) :=
  if (max_minutes <? min_minutes)%Z then (s, inl EmptyRange) else (s, inr tt).

(** What the random number generator hands to one segment execution. *)
Record Entropy := mkEntropy {
  wallet_id : string;
  tx_hash : string;
  blocks : Z
}.

End Simulator.

(** ** [app/services/execution/segment_executors.py], simulation mode *)

Module Executors.

Import Simulator.

(** Statements that update the simulator and may raise. *)
Definition M (A : Type) : Type := Simulator.t -> Simulator.t * (Exn + A).

Definition ret {A} (a : A) : M A := fun s => (s, inr a).
Definition raise {A} (e : Exn) : M A := fun s => (s, inl e).
Definition bind {A B} (m : M A) (k : A -> M B) : M B :=
  fun s =>
    match m s with
    | (s', inl e) => (s', inl e)
    | (s', inr a) => k a s'
    end.
Definition call {A} (f : Simulator.t -> A * Simulator.t) : M A :=
  fun s => let '(a, s') := f s in (s', inr a).
Definition exec (f : Simulator.t -> Simulator.t) : M unit :=
  fun s => (f s, inr tt).
Definition when (b : bool) (m : M unit) : M unit := if b then m else ret tt.

Notation "'do' x <- m ; k" := (bind m (fun x => k))
  (at level 10, x pattern, m at level 100, k at level 200).
Notation "'run' m ; k" := (bind m (fun _ => k))
  (at level 10, m at level 100, k at level 200).

(** A number read from the [cost] dict and used in arithmetic or in a
    comparison: a stored [None] raises [TypeError] there. *)
Definition number (dflt : Q) (e : CostEntry) : M Q :=
  match cost_number dflt e with
  | Some q => ret q
  | None => raise TypeError
  end.

(** [if not wallet_address: wallet_address = generate_wallet(network)] *)
Definition wallet_or_new (wallet_address : option string) (rnd : Entropy)
  : M string :=
  if Py.truthy wallet_address then ret (Py.fmt wallet_address)
  else call (generate_wallet (wallet_id rnd)).

(** The "ensure wallet has balance" statements.  In exact arithmetic the
    balance becomes the greater of the balance and the input amount; what
    the rounded sum of the interpreter gives is in [Binary64.ensure_balance]. *)
Definition ensure_balance (wallet asset : string) (input_amount : Q) : M unit :=
  do current_balance <- call (get_balance wallet asset);
  when (Py.lt current_balance input_amount)
       (exec (add_balance wallet asset (input_amount - current_balance))).

Definition completed (idx : nat) (segment : RouteSegment) (networks : bool)
    (input output fees : Q) (tx : option string) (wallet : option string)
  : SegmentExecutionResult :=
  mkResult idx (SegmentType_value (segment_type segment))
           (from_asset segment) (to_asset segment)
           (if networks then from_network segment else None)
           (if networks then to_network segment else None)
           SegmentExecutionStatus.COMPLETED input output fees tx
           (provider segment) None wallet.

Definition failed (idx : nat) (segment : RouteSegment) (networks : bool)
    (input : Q) (e : Exn) : SegmentExecutionResult :=
  mkResult idx (SegmentType_value (segment_type segment))
           (from_asset segment) (to_asset segment)
           (if networks then from_network segment else None)
           (if networks then to_network segment else None)
           SegmentExecutionStatus.FAILED input 0 0 None
           (provider segment) (Some e) None.

(** [try: body  except Exception as e: return handler(e)] *)
Definition try_except (body : M SegmentExecutionResult)
    (handler : Exn -> SegmentExecutionResult) (s : Simulator.t)
  : Simulator.t * SegmentExecutionResult :=
  match body s with
  | (s', inl e) => (s', handler e)
  | (s', inr r) => (s', r)
  end.

(** The type of [execute(segment, input_amount, wallet_address, metadata)];
    [idx] is [metadata["segment_index"]]. *)
Definition Executor : Type :=
  Entropy -> nat -> RouteSegment -> Q -> option string ->
  Simulator.t -> Simulator.t * SegmentExecutionResult.

(** [FXExecutor.execute] *)
Definition FXExecutor : Executor := fun rnd idx segment input_amount wallet_address =>
  try_except
    (do fee_percent <- number 0 (fee_percent (cost segment));
     do fixed_fee <- number 0 (fixed_fee (cost segment));
     do fx_rate <- number 1 (effective_fx_rate (cost segment));
     let fees := input_amount * fee_percent / 100 + fixed_fee in
     let amount_after_fees := input_amount - fees in
     let output_amount := amount_after_fees * fx_rate in
     let min_minutes := default 5%Z (min_minutes (latency segment)) in
     let max_minutes := default 10%Z (max_minutes (latency segment)) in
     run simulate_fx_conversion min_minutes max_minutes;
     ret (completed idx segment false input_amount output_amount fees None None))
    (failed idx segment false input_amount).

(** [CryptoExecutor.execute] *)
Definition CryptoExecutor : Executor := fun rnd idx segment input_amount wallet_address =>
  try_except
    (do wallet_address <- wallet_or_new wallet_address rnd;
     run ensure_balance wallet_address (from_asset segment) input_amount;
     do fee <- number 0 (fee_percent (cost segment));
     let fee_percent := Py.max 0 (Py.min 100 fee) in
     do fixed <- number 0 (fixed_fee (cost segment));
     let fixed_fee := Py.max 0 fixed in
     do swap_rate <- number 1 (effective_fx_rate (cost segment));
     run when (Py.le swap_rate 0) (raise (InvalidRate swap_rate));
     run when (Py.lt input_amount 0) (raise (InvalidInputAmount input_amount));
     let fees := input_amount * fee_percent / 100 + fixed_fee in
     let amount_after_fees := Py.max 0 (input_amount - fees) in
     let output_amount := amount_after_fees * swap_rate in
     do _ <- call (subtract_balance wallet_address (from_asset segment) input_amount);
     do tx_hash <- call (create_transaction (tx_hash rnd) "swap" (Some wallet_address)
                           (from_asset segment) input_amount (from_network segment));
     do _ <- simulate_confirmation tx_hash (blocks rnd);
     run exec (add_balance wallet_address (to_asset segment) output_amount);
     ret (completed idx segment true input_amount output_amount fees
                    (Some tx_hash) (Some wallet_address)))
    (failed idx segment true input_amount).

(** [BridgeExecutor.execute] *)
Definition BridgeExecutor : Executor := fun rnd idx segment input_amount wallet_address =>
  try_except
    (do wallet_address <- wallet_or_new wallet_address rnd;
     run ensure_balance wallet_address (from_asset segment) input_amount;
     do fee <- number 0 (fee_percent (cost segment));
     let fee_percent := Py.max 0 (Py.min 100 fee) in
     do fixed <- number 0 (fixed_fee (cost segment));
     let fixed_fee := Py.max 0 fixed in
     run when (Py.lt input_amount 0) (raise (InvalidInputAmount input_amount));
     let fees := input_amount * fee_percent / 100 + fixed_fee in
     let output_amount := Py.max 0 (input_amount - fees) in
     do _ <- call (subtract_balance wallet_address (from_asset segment) input_amount);
     do tx_hash <- call (create_transaction (tx_hash rnd) "bridge" (Some wallet_address)
                           (from_asset segment) input_amount (from_network segment));
     do _ <- simulate_confirmation tx_hash (blocks rnd);
     let dest_wallet := wallet_address in
     run exec (add_balance dest_wallet (to_asset segment) output_amount);
     ret (completed idx segment true input_amount output_amount fees
                    (Some tx_hash) None))
    (failed idx segment true input_amount).

(** [RampExecutor.execute]: the on-ramp branch when the segment type is
    ["on_ramp"], the off-ramp branch otherwise. *)
Definition RampExecutor : Executor := fun rnd idx segment input_amount wallet_address =>
  try_except
    (let is_on_ramp :=
       String.eqb (SegmentType_value (segment_type segment)) "on_ramp" in
     if is_on_ramp then
       do wallet_address <- wallet_or_new wallet_address rnd;
       do fee <- number 0 (fee_percent (cost segment));
       let fee_percent := Py.max 0 (Py.min 100 fee) in
       do fixed <- number 0 (fixed_fee (cost segment));
       let fixed_fee := Py.max 0 fixed in
       do rate <- number 1 (effective_fx_rate (cost segment));
       run when (Py.le rate 0) (raise (InvalidRate rate));
       run when (Py.lt input_amount 0) (raise (InvalidInputAmount input_amount));
       let fees := input_amount * fee_percent / 100 + fixed_fee in
       let amount_after_fees := Py.max 0 (input_amount - fees) in
       let output_amount := amount_after_fees * rate in
       run exec (add_balance wallet_address (to_asset segment) output_amount);
       ret (completed idx segment true input_amount output_amount fees
                      None (Some wallet_address))
     else
       do wallet_address <- wallet_or_new wallet_address rnd;
       run ensure_balance wallet_address (from_asset segment) input_amount;
       do fee <- number 0 (fee_percent (cost segment));
       let fee_percent := Py.max 0 (Py.min 100 fee) in
       do fixed <- number 0 (fixed_fee (cost segment));
       let fixed_fee := Py.max 0 fixed in
       do rate <- number 1 (effective_fx_rate (cost segment));
       run when (Py.le rate 0) (raise (InvalidRate rate));
       run when (Py.lt input_amount 0) (raise (InvalidInputAmount input_amount));
       let fees := input_amount * fee_percent / 100 + fixed_fee in
       let amount_after_fees := Py.max 0 (input_amount - fees) in
       let output_amount := amount_after_fees * rate in
       do _ <- call (subtract_balance wallet_address (from_asset segment) input_amount);
       do tx_hash <- call (create_transaction (tx_hash rnd) "off_ramp"
                             (Some wallet_address) (from_asset segment)
                             input_amount (from_network segment));
       do _ <- simulate_confirmation tx_hash (blocks rnd);
       ret (completed idx segment true input_amount output_amount fees
                      (Some tx_hash) (Some wallet_address)))
    (failed idx segment true input_amount).

(** [BankRailExecutor.execute] *)
Definition BankRailExecutor : Executor := fun rnd idx segment input_amount wallet_address =>
  try_except
    (do fee <- number 0 (fee_percent (cost segment));
     let fee_percent := Py.max 0 (Py.min 100 fee) in
     do fixed <- number 0 (fixed_fee (cost segment));
     let fixed_fee := Py.max 0 fixed in
     do fx_rate <- number 1 (effective_fx_rate (cost segment));
     run when (Py.le fx_rate 0) (raise (InvalidRate fx_rate));
     run when (Py.lt input_amount 0) (raise (InvalidInputAmount input_amount));
     let fees := input_amount * fee_percent / 100 + fixed_fee in
     let amount_after_fees := Py.max 0 (input_amount - fees) in
     let output_amount := amount_after_fees * fx_rate in
     ret (completed idx segment false input_amount output_amount fees None None))
    (failed idx segment false input_amount).

(** The dict [self.executors] of the execution services. *)
Definition executors (t : SegmentType) : option Executor :=
  match t with
  | FX => Some FXExecutor
  | CRYPTO => Some CryptoExecutor
  | BRIDGE => Some BridgeExecutor
  | ON_RAMP => Some RampExecutor
  | OFF_RAMP => Some RampExecutor
  | BANK_RAIL => Some BankRailExecutor
  | GAS | LIQUIDITY => None
  end.

End Executors.

(** ** [app/services/execution/advanced_execution_service.py] *)

Module ExecutionState.
Inductive t := RUNNING | PAUSED | CANCELLING | REROUTING.
End ExecutionState.

(** A route segment as the routing service returns it and as the execution
    service iterates over it: a dict, keyed as the record's fields. *)
Module SegmentDict.
Record t := mk {
  segment_type : string;
  from_asset : string;
  to_asset : string;
  from_network : option string;
  to_network : option string;
  provider : option string;
  cost : Cost;
  latency : Latency;
  reliability_score : Q
}.
End SegmentDict.

Module Orchestrator.

Import Simulator Executors.

Record RouteExecutionRequest := mkRequest {
  request_from_asset : string;
  request_to_asset : string;
  amount : Q;
  request_from_network : option string;
  request_to_network : option string
}.

Record RouteExecutionResponse := mkResponse {
  response_status : ExecutionStatus.t;
  response_route : list SegmentDict.t;
  total_cost_percent : Q;
  total_fees : Q;
  response_input_amount : Q;
  final_amount : Q;
  response_reliability : Q;
  response_segment_executions : list SegmentExecutionResult
}.

(** [self.active_executions[execution_id]] *)
Record Execution := mkExecution {
  execution_status : ExecutionStatus.t;
  current_segment : nat;
  total_segments : nat;
  segment_executions : list SegmentExecutionResult;
  route : list SegmentDict.t;
  current_amount : Q
}.

(** The service, seen from one execution: the shared simulator and the
    entries of the service's dicts under this [execution_id]. *)
Record Service := mkService {
  simulator : Simulator.t;
  execution : Execution;
  execution_state : ExecutionState.t;
  transaction_ids : gmap nat (string * string)
}.

Definition with_simulator (s : Simulator.t) (svc : Service) : Service :=
  mkService s (execution svc) (execution_state svc) (transaction_ids svc).
Definition with_execution (e : Execution) (svc : Service) : Service :=
  mkService (simulator svc) e (execution_state svc) (transaction_ids svc).
Definition with_state (st : ExecutionState.t) (svc : Service) : Service :=
  mkService (simulator svc) (execution svc) st (transaction_ids svc).
Definition with_transaction_ids (ids : gmap nat (string * string)) (svc : Service)
  : Service :=
  mkService (simulator svc) (execution svc) (execution_state svc) ids.

Definition set_status (st : ExecutionStatus.t) (e : Execution) : Execution :=
  mkExecution st (current_segment e) (total_segments e) (segment_executions e)
              (route e) (current_amount e).
Definition set_route (r : list SegmentDict.t) (e : Execution) : Execution :=
  mkExecution (execution_status e) (current_segment e) (length r)
              (segment_executions e) r (current_amount e).
Definition set_progress (done : list SegmentExecutionResult) (next : nat)
    (e : Execution) : Execution :=
  mkExecution (execution_status e) next (total_segments e) done
              (route e) (current_amount e).
Definition set_current_amount (a : Q) (e : Execution) : Execution :=
  mkExecution (execution_status e) (current_segment e) (total_segments e)
              (segment_executions e) (route e) a.

(** What the execution does not decide itself. *)
Record Env := mkEnv {
  (** the random draws of the execution of segment [idx] *)
  entropy : nat -> Entropy;
  (** other tasks ([pause_execution], [cancel_execution], ...): the value of
      [execution_states[execution_id]] that the check at the top of
      iteration [idx] reads, given the value this task left there; after
      the last iteration, the value that [_build_response] reads *)
  observed : nat -> ExecutionState.t -> ExecutionState.t;
  (** [_wait_for_resume] in iteration [idx]: the value that ends the
      polling, [None] when it never ends *)
  resumed : nat -> option ExecutionState.t;
  (** the result of [_should_reroute] at segment [idx] with the current
      amount; it compares the remaining route with an alternative of the
      external routing service *)
  should_reroute : nat -> Q -> bool;
  (** [routing_service.find_optimal_route] over the aggregator's current
      segments, for (from_asset, to_asset, from_network, to_network);
      [None] when there are no segments or the answer has an ["error"] *)
  find_optimal_route :
    string -> string -> option string -> option string ->
    option (list SegmentDict.t)
}.

(** [enumerate(l)] *)
Definition enumerate {A} (l : list A) : list (nat * A) :=
  combine (seq 0 (length l)) l.

(** [RouteSegment(segment_type=SegmentType(d.get("segment_type", default)), ...)],
    where a dict of a route always has the key. *)
Definition to_segment (d : SegmentDict.t) : Exn + RouteSegment :=
  match SegmentType_of_value (SegmentDict.segment_type d) with
  | None => inl (InvalidSegmentType (SegmentDict.segment_type d))
  | Some t =>
      if Py.le 0 (SegmentDict.reliability_score d)
         && Py.le (SegmentDict.reliability_score d) 1
      then inr (mkSegment t (SegmentDict.from_asset d) (SegmentDict.to_asset d)
                  (SegmentDict.from_network d) (SegmentDict.to_network d)
                  (SegmentDict.cost d) (SegmentDict.latency d)
                  (SegmentDict.reliability_score d) (SegmentDict.provider d))
      else inl ValidationError
  end.

(** [_execute_segment] *)
Definition execute_segment (env : Env) (segment_index : nat)
    (segment_dict : SegmentDict.t) (input_amount : Q)
    (wallet_address : option string) (svc : Service)
  : Service * SegmentExecutionResult :=
  match to_segment segment_dict with
  | inl e =>
      (svc,
       mkResult segment_index (SegmentDict.segment_type segment_dict)
                (SegmentDict.from_asset segment_dict)
                (SegmentDict.to_asset segment_dict) None None
                SegmentExecutionStatus.FAILED input_amount 0 0 None None
                (Some e) None)
  | inr segment =>
      match executors (segment_type segment) with
      | None =>
          (svc,
           mkResult segment_index (SegmentType_value (segment_type segment))
                    (from_asset segment) (to_asset segment) None None
                    SegmentExecutionStatus.SKIPPED input_amount input_amount 0
                    None None
                    (Some (NoExecutor (SegmentType_value (segment_type segment))))
                    None)
      | Some executor =>
          let '(sim, result) :=
            executor (entropy env segment_index) segment_index segment
                     input_amount wallet_address (simulator svc) in
          let svc := with_simulator sim svc in
          let svc :=
            if Py.truthy (transaction_hash result) then
              with_transaction_ids
                (<[segment_index :=
                     (if Py.truthy (provider segment)
                      then Py.fmt (provider segment) else "unknown",
                      Py.fmt (transaction_hash result))]> (transaction_ids svc))
                svc
            else svc in
          (svc, result)
      end
  end.

(** [any(seg.status == FAILED for seg in segment_executions)] *)
Definition any_failed (l : list SegmentExecutionResult) : bool :=
  existsb (fun seg => SegmentExecutionStatus.eqb (status seg)
                        SegmentExecutionStatus.FAILED) l.

(** [_build_response] *)
Definition build_response (svc : Service) (route_segments : list SegmentDict.t)
    (segment_executions : list SegmentExecutionResult)
    (input_amount final_amount : Q) : RouteExecutionResponse :=
  let total_fees := Py.sum (map fees_paid segment_executions) in
  let status :=
    if any_failed segment_executions then ExecutionStatus.FAILED
    else match execution_state svc with
         | ExecutionState.CANCELLING => ExecutionStatus.CANCELLED
         | _ => ExecutionStatus.COMPLETED
         end in
  mkResponse status route_segments
             (if Py.lt 0 input_amount then total_fees / input_amount * 100 else 0)
             total_fees input_amount final_amount 0.9 segment_executions.

(** [_handle_cancellation] *)
Definition handle_cancellation (svc : Service)
    (segment_executions : list SegmentExecutionResult) (original_amount : Q)
  : RouteExecutionResponse :=
  mkResponse ExecutionStatus.CANCELLED (route (execution svc)) 0
             (Py.sum (map fees_paid segment_executions))
             original_amount
             (match last segment_executions with
              | Some seg => output_amount seg
              | None => original_amount
              end)
             0 segment_executions.

(** [_calculate_reroute] *)
Definition calculate_reroute (env : Env) (current_segment : nat)
    (request : RouteExecutionRequest) (svc : Service)
  : Service * option (list SegmentDict.t) :=
  match skipn current_segment (route (execution svc)) with
  | [] => (svc, None)
  | first :: _ =>
      match find_optimal_route env (SegmentDict.from_asset first)
              (request_to_asset request) (SegmentDict.from_network first)
              (request_to_network request) with
      | None => (svc, None)
      | Some new_route =>
          (with_execution
             (set_status ExecutionStatus.REROUTING (execution svc))
             (with_state ExecutionState.REROUTING svc),
           Some new_route)
      end
  end.

(** The local variables of [_execute_sequential] and [_execute_parallel]. *)
Record Locals := mkLocals {
  route_segments : list SegmentDict.t;
  done : list SegmentExecutionResult;      (* [segment_executions] *)
  amount_now : Q;                          (* [current_amount] *)
  wallet_address : option string
}.

Inductive Step :=
  | Continue (svc : Service) (l : Locals)   (* go on with the next item *)
  | Break (svc : Service) (l : Locals).

(** The part of the body of the loop of [_execute_sequential] that lies
    after the locked check of the execution state. *)
Definition iteration (env : Env) (request : RouteExecutionRequest)
    (enable_ai_rerouting : bool) (idx : nat) (segment_dict : SegmentDict.t)
    (svc : Service) (l : Locals) : Step :=
  let '(svc, rerouted) :=
    if enable_ai_rerouting && (0 <? idx)%nat
       && should_reroute env idx (amount_now l)
    then
      match calculate_reroute env idx request svc with
      | (svc', Some (s :: r)) => (svc', Some (s :: r))
      | (svc', _) => (svc', None)
      end
    else (svc, None) in
  match rerouted with
  | Some new_route =>
      (* route_segments = new_route; ...; continue *)
      Continue (with_execution (set_route new_route (execution svc)) svc)
               (mkLocals new_route (done l) (amount_now l) (wallet_address l))
  | None =>
      let '(svc, segment_result) :=
        execute_segment env idx segment_dict (amount_now l) (wallet_address l) svc in
      let segment_executions := done l ++ [segment_result] in
      let svc :=
        with_execution
          (set_progress segment_executions (idx + 1) (execution svc)) svc in
      let wallet :=
        if Py.truthy (simulation_wallet_address segment_result)
        then simulation_wallet_address segment_result
        else wallet_address l in
      if SegmentExecutionStatus.eqb (status segment_result)
                                    SegmentExecutionStatus.FAILED
      then
        Break (with_execution
                 (set_status ExecutionStatus.FAILED (execution svc)) svc)
              (mkLocals (route_segments l) segment_executions (amount_now l) wallet)
      else
        Continue (with_execution
                    (set_current_amount (output_amount segment_result)
                                        (execution svc)) svc)
                 (mkLocals (route_segments l) segment_executions
                           (output_amount segment_result) wallet)
  end.

(** The loop [for idx, segment_dict in enumerate(route_segments)] of
    [_execute_sequential], followed by the final [_build_response].
    [items] is what is left of the enumeration of the list that
    [route_segments] named when the loop started: assigning to the name
    [route_segments] in the body does not change what the loop iterates
    over.  [n] is the length of that list: when the loop is exhausted,
    [_build_response] reads the execution state as the other tasks left it.
    [None]: the execution waits for a resume that never comes. *)
Fixpoint sequential_loop (env : Env) (request : RouteExecutionRequest)
    (enable_ai_rerouting : bool) (n : nat) (items : list (nat * SegmentDict.t))
    (svc : Service) (l : Locals) : option (Service * RouteExecutionResponse) :=
  let finish svc l :=
    Some (svc, build_response svc (route_segments l) (done l)
                              (amount request) (amount_now l)) in
  match items with
  | [] => finish (with_state (observed env n (execution_state svc)) svc) l
  | (idx, segment_dict) :: rest =>
      let svc := with_state (observed env idx (execution_state svc)) svc in
      let body svc :=
        match iteration env request enable_ai_rerouting idx segment_dict svc l with
        | Continue svc' l' =>
            sequential_loop env request enable_ai_rerouting n rest svc' l'
        | Break svc' l' => finish svc' l'
        end in
      match execution_state svc with
      | ExecutionState.CANCELLING =>
          Some (svc, handle_cancellation svc (done l) (amount request))
      | ExecutionState.PAUSED =>
          match resumed env idx with
          | None => None
          | Some st => body (with_state st svc)
          end
      | ExecutionState.REROUTING =>
          sequential_loop env request enable_ai_rerouting n rest svc l
      | ExecutionState.RUNNING => body svc
      end
  end.

(** [_execute_sequential] *)
Definition execute_sequential (env : Env) (route_segments : list SegmentDict.t)
    (request : RouteExecutionRequest) (enable_ai_rerouting : bool)
    (svc : Service) : option (Service * RouteExecutionResponse) :=
  sequential_loop env request enable_ai_rerouting (length route_segments)
                  (enumerate route_segments) svc
                  (mkLocals route_segments [] (amount request) None).

(** [seg_type in ["fx", "crypto"]] *)
Definition parallelizable (seg_type : string) : bool :=
  String.eqb seg_type "fx" || String.eqb seg_type "crypto".

(** The loop of [_group_parallel_segments] and the statements after it. *)
Fixpoint group_loop (items : list (nat * SegmentDict.t))
    (groups : list (list (nat * SegmentDict.t)))
    (current_group : list (nat * SegmentDict.t))
  : list (list (nat * SegmentDict.t)) :=
  let flush :=
    match current_group with
    | [] => groups
    | _ => groups ++ [current_group]
    end in
  match items with
  | [] => flush
  | (idx, segment) :: rest =>
      if parallelizable (SegmentDict.segment_type segment)
         && (length current_group <? 3)%nat
      then group_loop rest groups (current_group ++ [(idx, segment)])
      else group_loop rest flush [(idx, segment)]
  end.

(** [_group_parallel_segments] *)
Definition group_parallel_segments (route_segments : list SegmentDict.t)
  : list (list (nat * SegmentDict.t)) :=
  group_loop (enumerate route_segments) [] [].

(** [asyncio.gather] over the tasks of one group.  Every task gets the
    amount and the wallet address that were current when the group
    started.  The tasks share the simulator; they are run here one after
    the other, in the order of the group.  The amounts, fees and statuses
    of their results do not depend on the ledger, so not on the
    interleaving.  [_execute_segment] catches every exception, so no result
    of [gather] is an exception. *)
Fixpoint gather (env : Env) (group : list (nat * SegmentDict.t))
    (current_amount : Q) (wallet_address : option string) (svc : Service)
  : Service * list SegmentExecutionResult :=
  match group with
  | [] => (svc, [])
  | (seg_idx, segment_dict) :: rest =>
      let '(svc, r) :=
        execute_segment env seg_idx segment_dict current_amount wallet_address svc in
      let '(svc, rs) := gather env rest current_amount wallet_address svc in
      (svc, r :: rs)
  end.

(** The loop that processes the results of one group. *)
Definition process_result (l : Locals) (segment_result : SegmentExecutionResult)
  : Locals :=
  mkLocals (route_segments l) (done l ++ [segment_result])
           (if Py.lt (amount_now l) (output_amount segment_result)
            then output_amount segment_result else amount_now l)
           (if Py.truthy (simulation_wallet_address segment_result)
            then simulation_wallet_address segment_result
            else wallet_address l).

(** One iteration of the loop over the groups of [_execute_parallel]. *)
Definition run_group (env : Env) (group : list (nat * SegmentDict.t))
    (svc : Service) (l : Locals) : Service * Locals :=
  let '(svc, results) := gather env group (amount_now l) (wallet_address l) svc in
  let l := fold_left process_result results l in
  (with_execution
     (set_progress (done l)
        (match last group with
         | Some (idx, _) => idx + 1
         | None => current_segment (execution svc)
         end)
        (execution svc)) svc,
   l).

(** [_execute_parallel].  The loop over the groups never reads the
    execution state; [_build_response] reads it at the end, as the other
    tasks left it. *)
Definition execute_parallel (env : Env) (route_segments : list SegmentDict.t)
    (request : RouteExecutionRequest) (svc : Service)
  : Service * RouteExecutionResponse :=
  let parallel_groups := group_parallel_segments route_segments in
  let '(svc, l) :=
    fold_left (fun '(svc, l) group => run_group env group svc l)
              parallel_groups
              (svc, mkLocals route_segments [] (amount request) None) in
  let svc :=
    with_state (observed env (length route_segments) (execution_state svc)) svc in
  (svc, build_response svc route_segments (done l) (amount request)
                       (amount_now l)).

(** The state that [execute_route] sets up before it runs the route. *)
Definition start (sim : Simulator.t) (request : RouteExecutionRequest)
    (route_segments : list SegmentDict.t) : Service :=
  mkService sim
    (mkExecution ExecutionStatus.IN_PROGRESS 0 (length route_segments) []
                 route_segments (amount request))
    ExecutionState.RUNNING ∅.

(** [execute_route], given the route that [_get_optimal_route] found. *)
Definition execute_route (env : Env) (sim : Simulator.t)
    (request : RouteExecutionRequest) (route_segments : list SegmentDict.t)
    (parallel enable_ai_rerouting : bool)
  : option (Service * RouteExecutionResponse) :=
  let svc := start sim request route_segments in
  if parallel then Some (execute_parallel env route_segments request svc)
  else execute_sequential env route_segments request enable_ai_rerouting svc.

End Orchestrator.


(** ** The fee law and the ledger in the words of the specification *)

(** [fee_percent] clamped to [0, 100], [fixed_fee] floored at 0,
    [fees = input * fee_percent / 100 + fixed_fee],
    [output = max(0, input - fees) * rate]. *)
Definition law_fees (input fee_percent fixed_fee : Q) : Q :=
  input * Qmax 0 (Qmin 100 fee_percent) / 100 + Qmax 0 fixed_fee.

Definition law_output (input fee_percent fixed_fee rate : Q) : Q :=
  Qmax 0 (input - law_fees input fee_percent fixed_fee) * rate.

(** The balance of an asset in a wallet of the ledger; a missing wallet or
    asset counts as 0. *)
Definition balance (s : Simulator.t) (wallet asset : string) : Q :=
  default 0 (default ∅ (Simulator.wallets s !! wallet) !! asset).

(** The wallet that an executor works on: the one it is given, or the
    freshly generated one. *)
Definition wallet_used (wallet_address : option string) (rnd : Simulator.Entropy)
  : string :=
  if Py.truthy wallet_address then Py.fmt wallet_address
  else Simulator.wallet_id rnd.

(** ** Concrete data for the examples *)

Module Examples.

(** A bank transfer at 0.5% plus a fixed fee of 30, and an FX conversion at
    0.502% without fixed fee, both from USD to EUR. *)
Definition wire : RouteSegment :=
  mkSegment BANK_RAIL "USD" "EUR" None None
            (mkCost (Num 0.5) (Num 30) (Num 0.92))
            (mkLatency (Some 30%Z) (Some 60%Z)) 0.95 (Some "wise"%string).

Definition conversion : RouteSegment :=
  mkSegment FX "USD" "EUR" None None
            (mkCost (Num 0.502) (Num 0) (Num 0.92))
            (mkLatency (Some 30%Z) (Some 60%Z)) 0.95 (Some "frankfurter"%string).

Definition weights : Decision.Weights := Decision.mkWeights 1 1 1.

(** A segment of a given type from USDC on ethereum to EUR, with a fee
    percentage, a fixed fee and an effective rate. *)
Definition segment_of (t : SegmentType) (fee fixed rate : Q) : RouteSegment :=
  mkSegment t "USDC" "EUR" (Some "ethereum"%string) None
            (mkCost (Num fee) (Num fixed) (Num rate))
            (mkLatency (Some 5%Z) (Some 10%Z)) 0.95 (Some "provider"%string).

(** One outcome of the random draws. *)
Definition rnd : Simulator.Entropy :=
  Simulator.mkEntropy "0xa11ce" "0x7a5c" 3.

(** A segment dict of a route, with fee percentage and effective rate. *)
Definition dict_of (type from_asset to_asset : string) (fee rate : Q)
  : SegmentDict.t :=
  SegmentDict.mk type from_asset to_asset None None (Some "provider"%string)
                 (mkCost (Num fee) (Num 0) (Num rate))
                 (mkLatency (Some 5%Z) (Some 10%Z)) 0.95.

(** USD to EUR to GBP to JPY, every leg an FX conversion at 0.1%. *)
Definition route : list SegmentDict.t :=
  [dict_of "fx" "USD" "EUR" 0.1 0.92;
   dict_of "fx" "EUR" "GBP" 0.1 0.85;
   dict_of "fx" "GBP" "JPY" 0.1 190].

(** USD to EUR, a bridge of the EUR, then EUR to GBP. *)
Definition bridged_route : list SegmentDict.t :=
  [dict_of "fx" "USD" "EUR" 0.1 0.92;
   dict_of "bridge" "EUR" "EUR" 0.1 1;
   dict_of "fx" "EUR" "GBP" 0.1 0.85].

(** An alternative for the rest of the route: EUR to JPY directly. *)
Definition alternative : list SegmentDict.t :=
  [dict_of "fx" "EUR" "JPY" 0.1 160].

Definition request : Orchestrator.RouteExecutionRequest :=
  Orchestrator.mkRequest "USD" "JPY" 1000 None None.

(** No other task touches the execution; the reroute trigger fires at the
    segments for which [trigger] holds, and the routing service then
    answers with [alternative]. *)
Definition quiet (trigger : nat -> bool) : Orchestrator.Env :=
  Orchestrator.mkEnv (fun _ => rnd) (fun _ st => st) (fun _ => None)
                     (fun idx _ => trigger idx)
                     (fun _ _ _ _ => Some alternative).

(** [cancel_execution] is called while segment [k - 1] is executed: from
    iteration [k] on the execution state reads CANCELLING.  The reroute
    trigger never fires. *)
Definition cancelled_at (k : nat) : Orchestrator.Env :=
  Orchestrator.mkEnv (fun _ => rnd)
                     (fun idx st =>
                        if (k <=? idx)%nat then ExecutionState.CANCELLING else st)
                     (fun _ => None) (fun _ _ => false) (fun _ _ _ _ => None).

(** The candidates that the routing service builds from paths. *)
Definition candidates_of (paths : list (list RouteSegment))
  : list Decision.Candidate :=
  omap (fun path =>
          option_map (pair path) (Decision.calculate_path_metrics weights path))
       paths.

End Examples.

(** ** Executions in the words of the specification *)

(** The segments of [items] are executed one after the other, each on the
    output amount of the one before, and none of them fails: the results,
    in order.  [None] when one of them fails. *)
Fixpoint completed_run (env : Orchestrator.Env) (items : list (nat * SegmentDict.t))
    (current_amount : Q) (wallet_address : option string)
    (svc : Orchestrator.Service) : option (list SegmentExecutionResult) :=
  match items with
  | [] => Some []
  | (idx, segment_dict) :: rest =>
      let '(svc, result) :=
        Orchestrator.execute_segment env idx segment_dict current_amount
                                     wallet_address svc in
      if SegmentExecutionStatus.eqb (status result) SegmentExecutionStatus.FAILED
      then None
      else
        option_map (cons result)
          (completed_run env rest (output_amount result)
             (if Py.truthy (simulation_wallet_address result)
              then simulation_wallet_address result else wallet_address)
             svc)
  end.

(** ** Invariants used in the proofs *)

(** Every segment of the adjacency structure is filed under the node it
    leaves. *)
Definition filed_by_source (d : Graph.Adjacency) : Prop :=
  forall n nbrs m segs s,
    In (n, nbrs) d -> In (m, segs) nbrs -> In s segs ->
    fst (Graph.endpoints s) = n.

(** The paths that one search from [start] appends: walks from [start] to a
    node that counts as reached, without a repeated node, within the
    bound. *)
Definition found (end_nodes : list string) (max_hops : Z) (start : string)
    (p : list RouteSegment) : Prop :=
  walk_from start p
  /\ (exists dest, last (path_nodes start p) = Some dest
                   /\ Graph.reached end_nodes dest = true)
  /\ NoDup (path_nodes start p)
  /\ (Z.of_nat (length p) <= max_hops)%Z.

(** What a statement of an executor returns, when it returns. *)
Definition returns {A} (P : A -> Prop) (m : Executors.M A) : Prop :=
  forall s s' a, m s = (s', inr a) -> P a.

(** A segment execution reads and writes the simulator and the recorded
    transaction ids, nothing else of the service. *)
Definition same_ledger (svc1 svc2 : Orchestrator.Service) : Prop :=
  Orchestrator.simulator svc1 = Orchestrator.simulator svc2
  /\ Orchestrator.transaction_ids svc1 = Orchestrator.transaction_ids svc2.

(** ** Further functions of the program *)

Module Ranking.

Import Decision.

(** [sorted(l, key=key)]: a stable sort in ascending order of the key.  The
    result of a stable sort is determined by the keys, so the insertion
    sort below returns the list that the builtin returns: an element is put
    before the first element of the sorted rest whose key is not smaller. *)
Fixpoint insert_by {A} (key : A -> Q) (x : A) (l : list A) : list A :=
  match l with
  | [] => [x]
  | y :: r => if Py.lt (key y) (key x) then y :: insert_by key x r else x :: y :: r
  end.

Definition sorted_by {A} (key : A -> Q) (l : list A) : list A :=
  fold_right (insert_by key) [] l.

(** The slice [l[:k]]: a negative [k] counts from the end. *)
Definition slice_to {A} (k : Z) (l : list A) : list A :=
  if (0 <=? k)%Z then firstn (Z.to_nat k) l
  else firstn (length l - Z.to_nat (- k)) l.

Definition default_top_k : Z := 3.

(** [ArgMaxDecisionLayer.rank_routes]; [None] is an exception. *)
Definition rank_routes (alpha beta gamma : Q) (candidate_routes : list Candidate)
    (top_k : Z) : option (list Scored) :=
  match candidate_routes with
  | [] => Some []
  | _ =>
      match normalized_routes alpha beta gamma candidate_routes with
      | None => None
      | Some routes =>
          let sorted_routes := sorted_by snd routes in
          Some (slice_to top_k sorted_routes)
      end
  end.

End Ranking.

(** ** The balance statements in binary64

    The wallets of [simulator.py] and the statements with which the crypto,
    bridge and off-ramp executors top a balance up and debit it, over the
    floats of the interpreter: every sum and every difference is rounded to
    the nearest binary64 value. *)

Set Warnings "-inexact-float".

Module Binary64.

Import PrimFloat.

(** [self.wallets] *)
Definition Wallets := gmap string (gmap string float).

(** [if wallet_id not in self.wallets: self.wallets[wallet_id] = {}] *)
Definition ensure_wallet (wallet_id : string) (w : Wallets) : Wallets :=
  match w !! wallet_id with
  | Some _ => w
  | None => <[wallet_id := ∅]> w
  end.

Definition get_balance (wallet_id asset : string) (w : Wallets)
  : float * Wallets :=
  let w' := ensure_wallet wallet_id w in
  (default 0%float (default ∅ (w' !! wallet_id) !! asset), w').

Definition set_balance (wallet_id asset : string) (amount : float)
    (w : Wallets) : Wallets :=
  let w' := ensure_wallet wallet_id w in
  <[wallet_id := <[asset := amount]> (default ∅ (w' !! wallet_id))]> w'.

Definition add_balance (wallet_id asset : string) (amount : float)
    (w : Wallets) : Wallets :=
  let '(current, w') := get_balance wallet_id asset w in
  set_balance wallet_id asset (current + amount)%float w'.

(** Returns [True] if successful: [if current >= amount]. *)
Definition subtract_balance (wallet_id asset : string) (amount : float)
    (w : Wallets) : bool * Wallets :=
  let '(current, w') := get_balance wallet_id asset w in
  if (amount <=? current)%float
  then (true, set_balance wallet_id asset (current - amount)%float w')
  else (false, w').

(** The "ensure wallet has balance" statements of an executor:
    [if current_balance < input_amount:
       add_balance(wallet, asset, input_amount - current_balance)]. *)
Definition ensure_balance (wallet asset : string) (input_amount : float)
    (w : Wallets) : Wallets :=
  let '(current_balance, w') := get_balance wallet asset w in
  if (current_balance <? input_amount)%float
  then add_balance wallet asset (input_amount - current_balance)%float w'
  else w'.

(** The top-up and, after the computation of the fees, the debit of an
    executor; the executor does not read what [subtract_balance] returns. *)
Definition top_up_and_debit (wallet asset : string) (input_amount : float)
    (w : Wallets) : bool * Wallets :=
  subtract_balance wallet asset input_amount
                   (ensure_balance wallet asset input_amount w).

End Binary64.

(** ** Vocabulary of the further properties *)

(** A path from [start] stops at the first node that passes the destination
    test of the search, [Graph.reached]: its last node passes, no node
    before it does.  The test accepts a node that is an end node of the
    query or begins with an end node followed by ["@"], so every network of
    the destination asset. *)
Definition stops_at_first_match (end_nodes : list string) (start : string)
    (p : list RouteSegment) : Prop :=
  exists prior dest,
    path_nodes start p = prior ++ [dest]
    /\ Forall (fun n => Graph.reached end_nodes n = false) prior
    /\ Graph.reached end_nodes dest = true.

(** Every segment of the adjacency structure has the property [P]. *)
Definition adjacency_all (P : RouteSegment -> Prop) (d : Graph.Adjacency) : Prop :=
  forall n nbrs m segs s,
    In (n, nbrs) d -> In (m, segs) nbrs -> In s segs -> P s.

Module Cases.
(** An FX conversion at 0.1%. *)
Definition leg (from_asset to_asset : string) (rate : Q) : RouteSegment :=
  mkSegment FX from_asset to_asset None None
            (mkCost (Num 0.1) (Num 0) (Num rate))
            (mkLatency (Some 5%Z) (Some 10%Z)) 0.95 (Some "provider"%string).

(** An on-ramp from USD to USDC on polygon, and a bridge of the USDC from
    polygon to ethereum. *)
Definition on_ramp : RouteSegment :=
  mkSegment ON_RAMP "USD" "USDC" None (Some "polygon"%string)
            (mkCost (Num 1) (Num 0) (Num 1))
            (mkLatency (Some 5%Z) (Some 10%Z)) 0.95 (Some "provider"%string).

Definition bridge : RouteSegment :=
  mkSegment BRIDGE "USDC" "USDC" (Some "polygon"%string) (Some "ethereum"%string)
            (mkCost (Num 0.1) (Num 0) (Num 1))
            (mkLatency (Some 5%Z) (Some 10%Z)) 0.95 (Some "provider"%string).
End Cases.

(** The leftmost element of a list with the least key. *)
Definition leftmost_least {A} (key : A -> Q) (l : list A) (i : nat) (e : A) : Prop :=
  nth_error l i = Some e
  /\ (forall j e', (j < i)%nat -> nth_error l j = Some e' -> key e < key e')
  /\ (forall e', In e' l -> key e <= key e').

(** The numbers that [_calculate_path_metrics] reads from a segment: the
    [.get] defaults are 0. *)
Definition fee_percent_of (s : RouteSegment) : Q :=
  default 0 (cost_number 0 (fee_percent (cost s))).
Definition fixed_fee_of (s : RouteSegment) : Q :=
  default 0 (cost_number 0 (fixed_fee (cost s))).
Definition min_minutes_of (s : RouteSegment) : Z :=
  default 0%Z (min_minutes (latency s)).
Definition max_minutes_of (s : RouteSegment) : Z :=
  default 0%Z (max_minutes (latency s)).

(** A fee entry of the cost dict holds [None]. *)
Definition fee_is_none (s : RouteSegment) : Prop :=
  fee_percent (cost s) = PyNone \/ fixed_fee (cost s) = PyNone.

Module Solver.

Import Decision.

(** The loop of [_fallback_graph_search] over the paths.  [best_cost]
    starts at [float('inf')], which is [None] here: every cost is lower.
    The outer [None] of the result is an exception of
    [_calculate_path_metrics]. *)
Fixpoint best_path_loop (w : Weights) (paths : list (list RouteSegment))
    (best_path : option (list RouteSegment)) (best_cost : option Q)
  : option (option (list RouteSegment)) :=
  match paths with
  | [] => Some best_path
  | path :: rest =>
      match calculate_path_metrics w path with
      | None => None
      | Some metrics =>
          let cost := combined_score metrics in
          let lower :=
            match best_cost with
            | None => true
            | Some best => Py.lt cost best
            end in
          if lower then best_path_loop w rest (Some path) (Some cost)
          else best_path_loop w rest best_path best_cost
      end
  end.

(** [ORToolsSolver._fallback_graph_search], which [solve_shortest_path]
    returns when OR-Tools is not installed: the path of [find_paths] with
    the lowest combined score, [Some None] when there is no path. *)
Definition fallback_graph_search (w : Weights) (g : Graph.RouteGraph)
    (from_asset to_asset : string) (from_network to_network : option string)
  : option (option (list RouteSegment)) :=
  match Graph.find_paths g from_asset to_asset from_network to_network 5 with
  | None => None
  | Some [] => Some None
  | Some paths => best_path_loop w paths None None
  end.

End Solver.

Module SimulatorQueries.
(** [Simulator.get_transaction_status] *)
Definition get_transaction_status (tx_hash : string) (s : Simulator.t)
  : option Simulator.Transaction :=
  Simulator.transactions s !! tx_hash.
End SimulatorQueries.

(** A statement [m] of an executor, started in a state where [P] holds,
    either returns a value [a] in a state where [Q a] holds or raises an
    exception [e] in a state where [E e] holds. *)
Definition hoare {A} (P : Simulator.t -> Prop) (m : Executors.M A)
    (Q : A -> Simulator.t -> Prop) (E : Exn -> Simulator.t -> Prop) : Prop :=
  forall s, P s ->
    match m s with
    | (s', inr a) => Q a s'
    | (s', inl e) => E e s'
    end.

(** [Inv] is kept by the registration of a wallet; by a new balance of the
    asset [a] in the wallet [w]; by both, for every asset of [w]. *)
Definition registration_stable (Inv : Simulator.t -> Prop) : Prop :=
  forall w' s, Inv s -> Inv (Simulator.ensure_wallet w' s).

Definition balance_stable (Inv : Simulator.t -> Prop) (w a : string) : Prop :=
  forall x s, Inv s -> Inv (Simulator.set_balance w a x s).

Definition wallet_stable (Inv : Simulator.t -> Prop) (w : string) : Prop :=
  registration_stable Inv /\ forall a, balance_stable Inv w a.

(** [Inv] does not depend on the recorded transactions. *)
Definition transaction_blind (Inv : Simulator.t -> Prop) : Prop :=
  forall s txs confs, Inv s -> Inv (Simulator.mk (Simulator.wallets s) txs confs).

(** The fees of an executor that clamps the fee percentage to [0, 100] and
    floors the fixed fee at 0. *)
Definition clamped_fees (input fp ff : Q) : Q :=
  input * Py.max 0 (Py.min 100 fp) / 100 + Py.max 0 ff.

(** The results of an executor that validates the rate and the input
    amount, given how it wraps an output amount and fees into a COMPLETED
    result and an exception into a FAILED one. *)
Inductive rate_validated (segment : RouteSegment) (input : Q)
    (done : Q -> Q -> SegmentExecutionResult)
    (fail : Exn -> SegmentExecutionResult) : SegmentExecutionResult -> Prop :=
  | rate_validated_completed (fp ff rate : Q) :
      cost_number 0 (fee_percent (cost segment)) = Some fp ->
      cost_number 0 (fixed_fee (cost segment)) = Some ff ->
      cost_number 1 (effective_fx_rate (cost segment)) = Some rate ->
      0 < rate -> 0 <= input ->
      rate_validated segment input done fail
        (done (Py.max 0 (input - clamped_fees input fp ff) * rate)
              (clamped_fees input fp ff))
  | rate_validated_none :
      fee_percent (cost segment) = PyNone
      \/ fixed_fee (cost segment) = PyNone
      \/ effective_fx_rate (cost segment) = PyNone ->
      rate_validated segment input done fail (fail TypeError)
  | rate_validated_rate (fp ff rate : Q) :
      cost_number 0 (fee_percent (cost segment)) = Some fp ->
      cost_number 0 (fixed_fee (cost segment)) = Some ff ->
      cost_number 1 (effective_fx_rate (cost segment)) = Some rate ->
      rate <= 0 ->
      rate_validated segment input done fail (fail (InvalidRate rate))
  | rate_validated_input (fp ff rate : Q) :
      cost_number 0 (fee_percent (cost segment)) = Some fp ->
      cost_number 0 (fixed_fee (cost segment)) = Some ff ->
      cost_number 1 (effective_fx_rate (cost segment)) = Some rate ->
      0 < rate -> input < 0 ->
      rate_validated segment input done fail (fail (InvalidInputAmount input)).

(** The results of the bridge executor, which validates the input amount
    and does not read the rate. *)
Inductive input_validated (segment : RouteSegment) (input : Q)
    (done : Q -> Q -> SegmentExecutionResult)
    (fail : Exn -> SegmentExecutionResult) : SegmentExecutionResult -> Prop :=
  | input_validated_completed (fp ff : Q) :
      cost_number 0 (fee_percent (cost segment)) = Some fp ->
      cost_number 0 (fixed_fee (cost segment)) = Some ff ->
      0 <= input ->
      input_validated segment input done fail
        (done (Py.max 0 (input - clamped_fees input fp ff))
              (clamped_fees input fp ff))
  | input_validated_none :
      fee_percent (cost segment) = PyNone \/ fixed_fee (cost segment) = PyNone ->
      input_validated segment input done fail (fail TypeError)
  | input_validated_input (fp ff : Q) :
      cost_number 0 (fee_percent (cost segment)) = Some fp ->
      cost_number 0 (fixed_fee (cost segment)) = Some ff ->
      input < 0 ->
      input_validated segment input done fail (fail (InvalidInputAmount input)).

(** The results of the FX executor, which validates nothing. *)
Inductive unvalidated (segment : RouteSegment) (input : Q)
    (done : Q -> Q -> SegmentExecutionResult)
    (fail : Exn -> SegmentExecutionResult) : SegmentExecutionResult -> Prop :=
  | unvalidated_completed (fp ff rate : Q) :
      cost_number 0 (fee_percent (cost segment)) = Some fp ->
      cost_number 0 (fixed_fee (cost segment)) = Some ff ->
      cost_number 1 (effective_fx_rate (cost segment)) = Some rate ->
      (default 5 (min_minutes (latency segment))
       <= default 10 (max_minutes (latency segment)))%Z ->
      unvalidated segment input done fail
        (done ((input - (input * fp / 100 + ff)) * rate) (input * fp / 100 + ff))
  | unvalidated_none :
      fee_percent (cost segment) = PyNone
      \/ fixed_fee (cost segment) = PyNone
      \/ effective_fx_rate (cost segment) = PyNone ->
      unvalidated segment input done fail (fail TypeError)
  | unvalidated_range (fp ff rate : Q) :
      cost_number 0 (fee_percent (cost segment)) = Some fp ->
      cost_number 0 (fixed_fee (cost segment)) = Some ff ->
      cost_number 1 (effective_fx_rate (cost segment)) = Some rate ->
      (default 10 (max_minutes (latency segment))
       < default 5 (min_minutes (latency segment)))%Z ->
      unvalidated segment input done fail (fail EmptyRange).

(** The results that the executor of a segment can return, by the type of
    the segment: how it validates, and what a COMPLETED result carries. *)
Definition outcome_of (rnd : Simulator.Entropy) (idx : nat) (segment : RouteSegment)
    (input : Q) (wallet_address : option string) (r : SegmentExecutionResult)
  : Prop :=
  let w := wallet_used wallet_address rnd in
  let h := Simulator.tx_hash rnd in
  let done networks tx wallet out fees :=
    Executors.completed idx segment networks input out fees tx wallet in
  let fail networks := Executors.failed idx segment networks input in
  match segment_type segment with
  | FX => unvalidated segment input (done false None None) (fail false) r
  | BANK_RAIL => rate_validated segment input (done false None None) (fail false) r
  | CRYPTO =>
      rate_validated segment input (done true (Some h) (Some w)) (fail true) r
  | BRIDGE => input_validated segment input (done true (Some h) None) (fail true) r
  | ON_RAMP => rate_validated segment input (done true None (Some w)) (fail true) r
  | OFF_RAMP =>
      rate_validated segment input (done true (Some h) (Some w)) (fail true) r
  | GAS | LIQUIDITY => False
  end.

(** The rate that the executor of a segment multiplies with: the bridge
    executor transfers the amount as it is. *)
Definition applied_rate (segment : RouteSegment) : option Q :=
  match segment_type segment with
  | BRIDGE => Some 1
  | _ => cost_number 1 (effective_fx_rate (cost segment))
  end.

(** The transaction that the executor of a segment records: a swap, a
    bridge transfer or an off-ramp of the input amount from its wallet,
    confirmed after the drawn number of blocks.  The other executors record
    none. *)
Definition recorded_transaction (rnd : Simulator.Entropy) (segment : RouteSegment)
    (input : Q) (wallet_address : option string) : option Simulator.Transaction :=
  let record type :=
    Some (Simulator.mkTransaction type (Some (wallet_used wallet_address rnd))
            (from_asset segment) input (from_network segment) "confirmed"
            (Simulator.blocks rnd)) in
  match segment_type segment with
  | CRYPTO => record "swap"%string
  | BRIDGE => record "bridge"%string
  | OFF_RAMP => record "off_ramp"%string
  | _ => None
  end.

(** The amount that the executor of a segment credits to its wallet: the
    output of a completed swap, bridge transfer or on-ramp.  The fiat of an
    off-ramp, of an FX conversion and of a bank transfer is not kept in the
    ledger. *)
Definition credited (segment : RouteSegment) (r : SegmentExecutionResult) : Q :=
  match segment_type segment with
  | CRYPTO | BRIDGE | ON_RAMP =>
      if SegmentExecutionStatus.eqb (status r) SegmentExecutionStatus.COMPLETED
      then output_amount r else 0
  | _ => 0
  end.

(** [segment_result.status == SegmentExecutionStatus.FAILED] *)
Definition has_failed (r : SegmentExecutionResult) : bool :=
  SegmentExecutionStatus.eqb (status r) SegmentExecutionStatus.FAILED.

(** Every result starts from the amount that the one before it put out,
    the first one from [a]. *)
Fixpoint chained (a : Q) (results : list SegmentExecutionResult) : Prop :=
  match results with
  | [] => True
  | r :: rest => input_amount r = a /\ chained (output_amount r) rest
  end.

(** The amount that is left after the results: the output of the last
    result before the first failed one, [a] when there is none. *)
Fixpoint settled (a : Q) (results : list SegmentExecutionResult) : Q :=
  match results with
  | [] => a
  | r :: rest => if has_failed r then a else settled (output_amount r) rest
  end.

(* ===================================================================== *)
(** * Part II: properties *)
(* ===================================================================== *)

(** ** Python comparisons *)

Lemma lt_true (x y : Q) : Py.lt x y = true -> x < y.
Proof.
  unfold Py.lt. intros H. apply negb_true_iff in H.
  apply Qnot_le_lt. intros Hle. apply Qle_bool_iff in Hle. congruence.
Qed.

Lemma lt_false (x y : Q) : Py.lt x y = false -> y <= x.
Proof.
  unfold Py.lt. intros H. apply negb_false_iff in H. now apply Qle_bool_iff.
Qed.

Lemma lt_of (x y : Q) : x < y -> Py.lt x y = true.
Proof.
  intros H. destruct (Py.lt x y) eqn:E; [reflexivity|].
  apply lt_false in E. lra.
Qed.

Lemma lt_not (x y : Q) : y <= x -> Py.lt x y = false.
Proof.
  intros H. destruct (Py.lt x y) eqn:E; [|reflexivity].
  apply lt_true in E. lra.
Qed.

Lemma le_true (x y : Q) : Py.le x y = true -> x <= y.
Proof. apply Qle_bool_iff. Qed.

Lemma le_false (x y : Q) : Py.le x y = false -> y < x.
Proof.
  intros H. apply Qnot_le_lt. intros Hle. apply Qle_bool_iff in Hle.
  unfold Py.le in H. congruence.
Qed.

Lemma le_of (x y : Q) : x <= y -> Py.le x y = true.
Proof. apply Qle_bool_iff. Qed.

Lemma le_not (x y : Q) : y < x -> Py.le x y = false.
Proof.
  intros H. destruct (Py.le x y) eqn:E; [|reflexivity].
  apply le_true in E. lra.
Qed.

(** ** Insertion-ordered dicts *)

Section Dicts.

Context {V : Type}.
Implicit Types (d : list (string * V)) (k : string).

Lemma lookup_update_same k (f : V -> V) (dflt : V) d :
  Graph.lookup k (Graph.update k f dflt d)
  = Some (f (default dflt (Graph.lookup k d))).
Proof.
  induction d as [|[k' v] d IH]; simpl.
  - now rewrite String.eqb_refl.
  - destruct (String.eqb k k') eqn:E; simpl; rewrite E; auto.
Qed.

Lemma lookup_update_other k k' (f : V -> V) (dflt : V) d :
  k <> k' ->
  Graph.lookup k' (Graph.update k f dflt d) = Graph.lookup k' d.
Proof.
  intros Hne. induction d as [|[k0 v] d IH]; simpl.
  - destruct (String.eqb k' k) eqn:E; auto.
    apply String.eqb_eq in E. congruence.
  - destruct (String.eqb k k0) eqn:E; simpl.
    + apply String.eqb_eq in E. subst k0.
      destruct (String.eqb k' k) eqn:E'; auto.
      apply String.eqb_eq in E'. congruence.
    + now rewrite IH.
Qed.

Lemma lookup_In k d (v : V) :
  Graph.lookup k d = Some v -> In (k, v) d.
Proof.
  induction d as [|[k0 v0] d IH]; simpl; [discriminate|].
  destruct (String.eqb k k0) eqn:E.
  - apply String.eqb_eq in E. intros [= ->]. subst. now left.
  - intros H. right. auto.
Qed.

End Dicts.

(** ** Graph builder *)

Lemma qualified_identity (t : SegmentType) (asset : string) (network : option string) :
  is_fx_or_bank_rail t = false ->
  node_identity t asset network (qualified asset network).
Proof.
  intros Ht.
  assert (t <> FX /\ t <> BANK_RAIL) as [H1 H2] by (split; intros ->; discriminate).
  unfold qualified. destruct network as [n|]; simpl.
  - destruct (String.eqb n EmptyString) eqn:E; simpl.
    + apply String.eqb_eq in E. subst n.
      apply identity_without_network; auto.
    + apply String.eqb_neq in E.
      apply identity_with_network; auto.
  - apply identity_without_network; auto.
Qed.

Lemma asset_identity (t : SegmentType) (asset : string) (network : option string) :
  is_fx_or_bank_rail t = true ->
  node_identity t asset network asset.
Proof.
  intros Ht. apply identity_asset_only. destruct t; try discriminate; auto.
Qed.

(** The identity of a node is a function of the segment type, the asset and
    the network. *)
Lemma node_identity_functional (t : SegmentType) (asset : string)
    (network : option string) (a b : string) :
  node_identity t asset network a -> node_identity t asset network b -> a = b.
Proof.
  intros Ha Hb.
  destruct Ha as [Ha | n Hf Hb1 Hn Hne | Hf Hb1 Hn];
    destruct Hb as [Hb | n' Hf' Hb1' Hn' Hne' | Hf' Hb1' Hn']; auto;
    try (destruct Ha; contradiction); try (destruct Hb; contradiction).
  - congruence.
  - destruct Hn'; congruence.
  - destruct Hn; congruence.
Qed.

(** C2. For every segment added to the graph, both endpoint node identifiers
    follow the node identity rule: for FX and BANK_RAIL segments the node is
    the asset alone, for every other type it is asset@network when the
    network field is present and the asset alone otherwise.  Both nodes are
    inserted into the node set, and the segment is appended to the edge list
    between exactly these two nodes. *)
Theorem add_segment_node_identity (g : Graph.RouteGraph) (s : RouteSegment) :
  exists from_node to_node : string,
    node_identity (segment_type s) (from_asset s) (from_network s) from_node
    /\ node_identity (segment_type s) (to_asset s) (to_network s) to_node
    /\ Graph.nodes (Graph.add_segment g s)
       = {[to_node]} ∪ ({[from_node]} ∪ Graph.nodes g)
    /\ Graph.get_segments (Graph.add_segment g s) from_node to_node
       = Graph.get_segments g from_node to_node ++ [s]
    /\ (forall a b : string,
          (a, b) <> (from_node, to_node) ->
          Graph.get_segments (Graph.add_segment g s) a b
          = Graph.get_segments g a b)
    /\ Graph.segments (Graph.add_segment g s) = Graph.segments g ++ [s].
Proof.
  unfold Graph.add_segment, Graph.endpoints.
  destruct (is_fx_or_bank_rail (segment_type s)) eqn:Ht.
  - exists (from_asset s), (to_asset s).
    split; [now apply asset_identity|]. split; [now apply asset_identity|].
    split; [reflexivity|]. unfold Graph.get_segments; simpl.
    split; [|split; [|reflexivity]].
    + rewrite lookup_update_same; simpl. now rewrite lookup_update_same.
    + intros a b Hab. destruct (string_dec (from_asset s) a) as [<-|Ha].
      * rewrite lookup_update_same. simpl.
        rewrite lookup_update_other; [reflexivity|congruence].
      * now rewrite lookup_update_other.
  - exists (qualified (from_asset s) (from_network s)),
           (qualified (to_asset s) (to_network s)).
    split; [now apply qualified_identity|]. split; [now apply qualified_identity|].
    split; [reflexivity|]. unfold Graph.get_segments; simpl.
    split; [|split; [|reflexivity]].
    + rewrite lookup_update_same; simpl. now rewrite lookup_update_same.
    + intros a b Hab.
      destruct (string_dec (qualified (from_asset s) (from_network s)) a) as [<-|Ha].
      * rewrite lookup_update_same. simpl.
        rewrite lookup_update_other; [reflexivity|congruence].
      * now rewrite lookup_update_other.
Qed.

(** ** Path search *)


Lemma In_update {V} (k k' : string) (f : V -> V) (dflt v' : V) (d : list (string * V)) :
  In (k', v') (Graph.update k f dflt d) ->
  In (k', v') d
  \/ (k' = k /\ exists v0, v' = f v0 /\ (v0 = dflt \/ In (k, v0) d)).
Proof.
  induction d as [|[k0 v0] d IH]; simpl.
  - intros [[= <- <-]|[]]. right. split; eauto.
  - destruct (String.eqb k k0) eqn:E; simpl.
    + apply String.eqb_eq in E. subst k0.
      intros [[= <- <-]|H]; [|auto].
      right. split; eauto.
    + intros [H|H]; [auto|].
      destruct (IH H) as [H'|(-> & v1 & -> & [->|H'])]; auto;
        right; split; eauto.
Qed.


Lemma add_segment_filed (g : Graph.RouteGraph) (s : RouteSegment) :
  filed_by_source (Graph.graph g) ->
  filed_by_source (Graph.graph (Graph.add_segment g s)).
Proof.
  intros Hg n nbrs m segs s' Hn Hm Hs.
  unfold Graph.add_segment in Hn.
  destruct (Graph.endpoints s) as [from_node to_node] eqn:E. simpl in Hn.
  apply In_update in Hn as [Hn|(-> & nb0 & -> & Hnb0)]; [eauto|].
  apply In_update in Hm as [Hm|(-> & l0 & -> & Hl0)].
  - destruct Hnb0 as [->|Hnb0]; [destruct Hm|eauto].
  - apply in_app_iff in Hs as [Hs|[<-|[]]].
    + destruct Hl0 as [->|Hl0]; [destruct Hs|].
      destruct Hnb0 as [->|Hnb0]; [destruct Hl0|eauto].
    + now rewrite E.
Qed.

Lemma build_graph_filed (segs : list RouteSegment) :
  filed_by_source (Graph.graph (Graph.build_graph segs)).
Proof.
  unfold Graph.build_graph.
  assert (H : filed_by_source (Graph.graph Graph.empty))
    by (intros ? ? ? ? ? []).
  revert H. generalize Graph.empty.
  induction segs as [|s segs IH]; intros g Hg; simpl; auto.
  apply IH, add_segment_filed, Hg.
Qed.

Lemma next_node_endpoints (s : RouteSegment) :
  Graph.next_node s = snd (Graph.endpoints s).
Proof.
  unfold Graph.next_node, Graph.endpoints.
  now destruct (is_fx_or_bank_rail (segment_type s)).
Qed.

Lemma collect_In {A B} (f : A -> option (list B)) (l : list A) (res : list B) (b : B) :
  Graph.collect f l = Some res -> In b res ->
  exists a r, In a l /\ f a = Some r /\ In b r.
Proof.
  revert res. induction l as [|a l IH]; simpl; intros res.
  - intros [= <-] [].
  - destruct (f a) as [x|] eqn:Ea; [|discriminate].
    destruct (Graph.collect f l) as [y|]; [|discriminate].
    intros [= <-] Hb. apply in_app_iff in Hb as [Hb|Hb].
    + exists a, x. auto.
    + destruct (IH y eq_refl Hb) as (a' & r & ? & ? & ?). exists a', r. auto.
Qed.

Lemma collect_total {A B} (f : A -> option (list B)) (l : list A) :
  (forall a, In a l -> exists r, f a = Some r) ->
  exists res, Graph.collect f l = Some res.
Proof.
  induction l as [|a l IH]; simpl; intros H; [eauto|].
  destruct (H a) as [x ->]; auto.
  destruct IH as [y ->]; eauto.
Qed.

Lemma path_nodes_snoc (start : string) (p : list RouteSegment) (s : RouteSegment) :
  path_nodes start (p ++ [s]) = path_nodes start p ++ [snd (Graph.endpoints s)].
Proof. unfold path_nodes. now rewrite map_app. Qed.

Lemma walk_from_snoc (start current : string) (p : list RouteSegment) (s : RouteSegment) :
  walk_from start p ->
  last (path_nodes start p) = Some current ->
  fst (Graph.endpoints s) = current ->
  walk_from start (p ++ [s]).
Proof.
  revert start. induction p as [|s0 p IH]; simpl; intros start Hw Hl Hs.
  - injection Hl as <-. auto.
  - destruct Hw as [H0 Hw]. split; [assumption|].
    apply IH; auto.
Qed.

Section Search.

Variables (g : Graph.RouteGraph) (end_nodes : list string) (max_hops : Z)
          (start : string).
Hypothesis Hg : filed_by_source (Graph.graph g).


Lemma dfs_sound (fuel : nat) :
  forall (current : string) (path : list RouteSegment) (depth : Z)
         (visited : gset string) (prior : list string)
         (res : list (list RouteSegment)),
    Graph.dfs fuel g end_nodes max_hops current path depth visited = Some res ->
    depth = Z.of_nat (length path) ->
    walk_from start path ->
    path_nodes start path = prior ++ [current] ->
    (forall x, x ∈ visited <-> In x prior) ->
    NoDup prior ->
    (forall x, In x prior -> Graph.reached end_nodes x = false) ->
    forall p, In p res -> found end_nodes max_hops start p.
Proof.
  induction fuel as [|fuel IH]; intros current path depth visited prior res;
    simpl; [discriminate|].
  intros Hres Hdepth Hwalk Hnodes Hvis Hnd Hprior p Hp.
  destruct (max_hops <? depth)%Z eqn:Ebound; [injection Hres as Hres; subst res; destruct Hp|].
  apply Z.ltb_ge in Ebound.
  assert (Hlast : last (path_nodes start path) = Some current)
    by (rewrite Hnodes; apply last_snoc).
  destruct (Graph.reached end_nodes current) eqn:Ereached.
  { injection Hres as Hres; subst res. destruct Hp as [<-|[]].
    repeat split; eauto; [|lia].
    rewrite Hnodes. apply NoDup_app. repeat split; auto.
    - intros x Hx Hin. apply list_elem_of_In in Hx.
      apply list_elem_of_singleton in Hin. subst x.
      apply Hprior in Hx. congruence.
    - apply NoDup_singleton. }
  destruct (bool_decide (current ∈ visited)) eqn:Evis;
    [injection Hres as Hres; subst res; destruct Hp|].
  apply bool_decide_eq_false in Evis.
  destruct (collect_In _ _ _ _ Hres Hp) as ([m segs] & r1 & Hin1 & Hr1 & Hp1).
  destruct (collect_In _ _ _ _ Hr1 Hp1) as (s & r2 & Hin2 & Hr2 & Hp2).
  assert (Hsrc : fst (Graph.endpoints s) = current).
  { unfold Graph.get_neighbors in Hin1.
    destruct (Graph.lookup current (Graph.graph g)) as [nbrs|] eqn:El;
      [|destruct Hin1].
    apply lookup_In in El. eapply Hg; eauto. }
  eapply (IH _ _ _ _ (prior ++ [current]) _ Hr2); auto.
  - rewrite length_app. simpl. lia.
  - eapply walk_from_snoc; eauto.
  - now rewrite path_nodes_snoc, Hnodes, next_node_endpoints.
  - intros x. rewrite elem_of_union, elem_of_singleton, Hvis, in_app_iff.
    simpl. intuition.
  - apply NoDup_app. repeat split; auto.
    + intros x Hx Hin. apply list_elem_of_In in Hx.
      apply list_elem_of_singleton in Hin. subst x.
      apply Evis, Hvis, Hx.
    + apply NoDup_singleton.
  - intros x [Hx|[<-|[]]]%in_app_iff; auto.
Qed.

Lemma dfs_total (fuel : nat) :
  forall (current : string) (path : list RouteSegment) (depth : Z)
         (visited : gset string),
    (Z.to_nat (max_hops - depth + 1) < fuel)%nat ->
    exists res,
      Graph.dfs fuel g end_nodes max_hops current path depth visited = Some res.
Proof.
  induction fuel as [|fuel IH]; intros current path depth visited Hfuel;
    [lia|]. simpl.
  destruct (max_hops <? depth)%Z eqn:Ebound; [eauto|].
  apply Z.ltb_ge in Ebound.
  destruct (Graph.reached end_nodes current); [eauto|].
  destruct (bool_decide (current ∈ visited)); [eauto|].
  apply collect_total. intros [m segs] _.
  apply collect_total. intros s _.
  apply IH. lia.
Qed.

End Search.

(** Every path that [find_paths] returns on a built graph is a walk from a
    source node to a destination node without a repeated node and of at most
    [max_hops] segments; the search always returns. *)
Lemma find_paths_sound (segs : list RouteSegment) (from_asset to_asset : string)
    (from_network to_network : option string) (max_hops : Z) :
  exists paths,
    Graph.find_paths (Graph.build_graph segs) from_asset to_asset
                     from_network to_network max_hops = Some paths
    /\ Forall (acyclic_route from_asset to_asset from_network to_network max_hops)
              paths.
Proof.
  unfold Graph.find_paths, Graph.find_paths_fuel.
  set (g := Graph.build_graph segs).
  set (ends := Graph.candidates to_asset to_network).
  destruct (collect_total
              (fun start =>
                 if bool_decide (start ∈ Graph.nodes g)
                 then Graph.dfs (Z.to_nat max_hops + 2) g ends max_hops start [] 0%Z ∅
                 else Some [])
              (Graph.candidates from_asset from_network)) as [paths Hpaths].
  { intros start _. destruct (bool_decide (start ∈ Graph.nodes g)); [|eauto].
    apply dfs_total. lia. }
  exists paths. split; [exact Hpaths|].
  apply Forall_forall. intros p Hp. apply list_elem_of_In in Hp.
  destruct (collect_In _ _ _ _ Hpaths Hp) as (start & r & Hstart & Hr & Hpr).
  destruct (bool_decide (start ∈ Graph.nodes g)); [|injection Hr as Hr; subst r; destruct Hpr].
  assert (Hfound : found ends max_hops start p).
  { eapply (dfs_sound g ends max_hops start (build_graph_filed segs) _ _ _ _ _ []);
      eauto; simpl; try reflexivity.
    - intros x. split; [intros Hx; now apply not_elem_of_empty in Hx|intros []].
    - constructor.
    - intros x []. }
  destruct Hfound as (Hwalk & (dest & Hlast & Hdest) & Hnd & Hlen).
  exists start, dest. auto 10.
Qed.

(** C3, what holds.  For every built graph, query and [max_hops] bound,
    [find_paths] returns, and every path it returns is a sequence of
    segments forming a walk from a source node of the query, with no node
    repeated within the path and of length at most [max_hops], to a node
    that passes the destination test [Graph.reached] of the search, which is
    not always a destination node of the query; a returned path is empty
    only when a source node of the query already passes the test. *)
Theorem find_paths_acyclic_bounded (segs : list RouteSegment)
    (from_asset to_asset : string) (from_network to_network : option string)
    (max_hops : Z) :
  exists paths,
    Graph.find_paths (Graph.build_graph segs) from_asset to_asset
                     from_network to_network max_hops = Some paths
    /\ Forall (acyclic_route from_asset to_asset from_network to_network max_hops)
              paths
    /\ Forall (fun p =>
                 p <> []
                 \/ exists start,
                      In start (Graph.candidates from_asset from_network)
                      /\ Graph.reached (Graph.candidates to_asset to_network)
                                       start = true)
              paths.
Proof.
  destruct (find_paths_sound segs from_asset to_asset from_network to_network
                             max_hops) as (paths & Hpaths & Hall).
  exists paths. split; [assumption|]. split; [assumption|].
  eapply Forall_impl; [exact Hall|].
  intros [|s p] (start & dest & Hstart & _ & Hlast & Hdest & _).
  - right. exists start. simpl in Hlast. injection Hlast as <-. auto.
  - left. discriminate.
Qed.

(** C3: when the source of the query is also its destination,
    [find_paths] returns the empty path. *)
Lemma find_paths_returns_empty_path :
  Graph.find_paths
    (Graph.build_graph
       [mkSegment FX "USD" "EUR" None None (mkCost Missing Missing Missing)
                  (mkLatency None None) 1 None])
    "USD" "USD" None None Graph.default_max_hops
  = Some [[]].
Proof. vm_compute. reflexivity. Qed.

(** C3, the code at the failing inputs.  The destination test accepts every
    node that begins with the destination asset followed by ["@"], whatever
    network was asked for.  On the graph of an on-ramp from USD to USDC on
    polygon and a bridge of the USDC from polygon to ethereum, the query
    from USD to USDC on ethereum returns the on-ramp alone, a path that ends
    at USDC@polygon, and not the walk over the on-ramp and the bridge that
    reaches USDC@ethereum.  On the graph of the bridge alone, the query from
    USDC on polygon to USDC on ethereum returns the empty path and not the
    bridge. *)
Lemma find_paths_stops_on_another_network :
  let ethereum := Some "ethereum"%string in
  let polygon := Some "polygon"%string in
  Graph.find_paths (Graph.build_graph [Cases.on_ramp; Cases.bridge])
                   "USD" "USDC" None ethereum Graph.default_max_hops
  = Some [[Cases.on_ramp]]
  /\ last (path_nodes "USD" [Cases.on_ramp]) = Some "USDC@polygon"%string
  /\ ~ In "USDC@polygon"%string (Graph.candidates "USDC" ethereum)
  /\ walk_from "USD" [Cases.on_ramp; Cases.bridge]
  /\ last (path_nodes "USD" [Cases.on_ramp; Cases.bridge])
     = Some "USDC@ethereum"%string
  /\ Graph.find_paths (Graph.build_graph [Cases.bridge])
                      "USDC" "USDC" polygon ethereum Graph.default_max_hops
     = Some [[]]
  /\ walk_from "USDC@polygon" [Cases.bridge]
  /\ last (path_nodes "USDC@polygon" [Cases.bridge]) = Some "USDC@ethereum"%string.
Proof.
  intros ethereum polygon.
  split; [vm_compute; reflexivity|]. split; [reflexivity|].
  split; [intros [H|[H|[]]]; discriminate H|].
  split; [simpl; auto|]. split; [reflexivity|].
  split; [vm_compute; reflexivity|]. split; [simpl; auto|reflexivity].
Qed.

(** ** Decision layer *)

Lemma fold_min_spec (r : list Q) (x : Q) :
  let m := fold_left (fun best y => if Py.lt y best then y else best) r x in
  (m <= x /\ forall y, In y r -> m <= y) /\ (m = x \/ In m r).
Proof.
  revert x. induction r as [|y r IH]; intros x; simpl.
  - split; [split; [lra|intros ? []]|auto].
  - destruct (Py.lt y x) eqn:E.
    + apply lt_true in E. destruct (IH y) as [[H1 H2] H3].
      split; [split; [lra|]|].
      * intros z [<-|Hz]; auto.
      * destruct H3; auto.
    + apply lt_false in E. destruct (IH x) as [[H1 H2] H3].
      split; [split; [lra|]|].
      * intros z [<-|Hz]; [lra|auto].
      * destruct H3; auto.
Qed.

Lemma fold_max_spec (r : list Q) (x : Q) :
  let m := fold_left (fun best y => if Py.lt best y then y else best) r x in
  (x <= m /\ forall y, In y r -> y <= m) /\ (m = x \/ In m r).
Proof.
  revert x. induction r as [|y r IH]; intros x; simpl.
  - split; [split; [lra|intros ? []]|auto].
  - destruct (Py.lt x y) eqn:E.
    + apply lt_true in E. destruct (IH y) as [[H1 H2] H3].
      split; [split; [lra|]|].
      * intros z [<-|Hz]; auto.
      * destruct H3; auto.
    + apply lt_false in E. destruct (IH x) as [[H1 H2] H3].
      split; [split; [lra|]|].
      * intros z [<-|Hz]; [lra|auto].
      * destruct H3; auto.
Qed.

Lemma lowest_spec (xs : list Q) :
  xs <> [] ->
  (forall y, In y xs -> Decision.lowest xs <= y) /\ In (Decision.lowest xs) xs.
Proof.
  destruct xs as [|x r]; [congruence|intros _].
  unfold Decision.lowest; simpl.
  destruct (fold_min_spec r x) as [[H1 H2] H3].
  split; [intros y [<-|Hy]; auto|]. destruct H3 as [->|H3]; auto.
Qed.

Lemma highest_spec (xs : list Q) :
  xs <> [] ->
  (forall y, In y xs -> y <= Decision.highest xs) /\ In (Decision.highest xs) xs.
Proof.
  destruct xs as [|x r]; [congruence|intros _].
  unfold Decision.highest; simpl.
  destruct (fold_max_spec r x) as [[H1 H2] H3].
  split; [intros y [<-|Hy]; auto|]. destruct H3 as [->|H3]; auto.
Qed.

Lemma fold_Qmin_spec (r : list Q) (x : Q) :
  (fold_right Qmin x r <= x /\ forall y, In y r -> fold_right Qmin x r <= y)
  /\ (fold_right Qmin x r == x \/ exists y, In y r /\ fold_right Qmin x r == y).
Proof.
  induction r as [|y r [[H1 H2] H3]]; simpl.
  - split; [split; [lra|intros ? []]|left; reflexivity].
  - pose proof (Q.le_min_l y (fold_right Qmin x r)).
    pose proof (Q.le_min_r y (fold_right Qmin x r)).
    split; [split; [lra|]|].
    + intros z [<-|Hz]; [lra|]. specialize (H2 z Hz). lra.
    + destruct (Q.min_spec y (fold_right Qmin x r)) as [[_ Hm]|[_ Hm]].
      * right. exists y. split; [auto|exact Hm].
      * destruct H3 as [H3|(z & Hz & H3)]; [left; lra|].
        right. exists z. split; [auto|lra].
Qed.

Lemma fold_Qmax_spec (r : list Q) (x : Q) :
  (x <= fold_right Qmax x r /\ forall y, In y r -> y <= fold_right Qmax x r)
  /\ (fold_right Qmax x r == x \/ exists y, In y r /\ fold_right Qmax x r == y).
Proof.
  induction r as [|y r [[H1 H2] H3]]; simpl.
  - split; [split; [lra|intros ? []]|left; reflexivity].
  - pose proof (Q.le_max_l y (fold_right Qmax x r)).
    pose proof (Q.le_max_r y (fold_right Qmax x r)).
    split; [split; [lra|]|].
    + intros z [<-|Hz]; [lra|]. specialize (H2 z Hz). lra.
    + destruct (Q.max_spec y (fold_right Qmax x r)) as [[_ Hm]|[_ Hm]].
      * destruct H3 as [H3|(z & Hz & H3)]; [left; lra|].
        right. exists z. split; [auto|lra].
      * right. exists y. split; [auto|exact Hm].
Qed.

Lemma least_lowest (xs : list Q) : xs <> [] -> Decision.least xs == Decision.lowest xs.
Proof.
  intros Hne. destruct (lowest_spec xs Hne) as [Hlb Hin].
  destruct xs as [|x r]; [congruence|]. unfold Decision.least.
  cbn [hd]. destruct (fold_Qmin_spec (x :: r) x) as [[H1 H2] H3].
  apply Qle_antisym.
  - apply H2, Hin.
  - destruct H3 as [->|(y & Hy & ->)]; apply Hlb; simpl; auto.
Qed.

Lemma greatest_highest (xs : list Q) : xs <> [] -> Decision.greatest xs == Decision.highest xs.
Proof.
  intros Hne. destruct (highest_spec xs Hne) as [Hub Hin].
  destruct xs as [|x r]; [congruence|]. unfold Decision.greatest.
  cbn [hd]. destruct (fold_Qmax_spec (x :: r) x) as [[H1 H2] H3].
  apply Qle_antisym.
  - destruct H3 as [->|(y & Hy & ->)]; apply Hub; simpl; auto.
  - apply H2, Hin.
Qed.

Lemma range_positive (xs : list Q) : 0 < Decision.range_of xs.
Proof.
  unfold Decision.range_of.
  destruct (Py.lt (Decision.lowest xs) (Decision.highest xs)) eqn:E; [|lra].
  apply lt_true in E. lra.
Qed.

(** The normalisation of the code never divides by zero, and on the metric
    of a candidate it is the min-max normalisation. *)
Lemma normalize_minmax (xs : list Q) (x : Q) :
  exists v, Decision.normalize xs x = Some v
            /\ (In x xs -> v == Decision.minmax xs x).
Proof.
  unfold Decision.normalize, Py.div.
  pose proof (range_positive xs) as Hpos.
  rewrite (lt_of _ _ Hpos).
  destruct (Qeq_bool (Decision.range_of xs) 0) eqn:E.
  { apply Qeq_bool_iff in E. lra. }
  eexists. split; [reflexivity|]. intros Hin.
  assert (Hne : xs <> []) by (intros ->; destruct Hin).
  destruct (lowest_spec xs Hne) as [Hlb _].
  destruct (highest_spec xs Hne) as [Hub _].
  pose proof (least_lowest xs Hne) as Hl.
  pose proof (greatest_highest xs Hne) as Hh.
  unfold Decision.minmax, Decision.range_of.
  destruct (Py.lt (Decision.lowest xs) (Decision.highest xs)) eqn:Elt.
  - apply lt_true in Elt.
    destruct (Qeq_bool (Decision.greatest xs) (Decision.least xs)) eqn:Eeq.
    + apply Qeq_bool_iff in Eeq. lra.
    + now rewrite Hl, Hh.
  - apply lt_false in Elt.
    specialize (Hlb x Hin). specialize (Hub x Hin).
    destruct (Qeq_bool (Decision.greatest xs) (Decision.least xs)) eqn:Eeq.
    + assert (x == Decision.lowest xs) as -> by lra. field.
    + apply Qeq_bool_neq in Eeq. exfalso. apply Eeq. lra.
Qed.

Lemma score_all_spec (alpha beta gamma : Q) (costs latencies reliabilities : list Q)
    (cs : list Decision.Candidate) :
  exists routes,
    Decision.score_all alpha beta gamma costs latencies reliabilities cs = Some routes
    /\ map fst routes = cs
    /\ Forall (fun r : Decision.Scored =>
                 let m := snd (fst r) in
                 In (Decision.total_cost m) costs ->
                 In (Decision.total_latency m) latencies ->
                 In (Decision.reliability m) reliabilities ->
                 snd r == alpha * Decision.minmax costs (Decision.total_cost m)
                          + beta * Decision.minmax latencies (Decision.total_latency m)
                          + gamma * (1 - Decision.minmax reliabilities
                                                         (Decision.reliability m)))
              routes.
Proof.
  induction cs as [|[p m] cs (routes & Hroutes & Hfst & Hall)]; simpl.
  - exists []. auto.
  - unfold Decision.score_one. simpl.
    destruct (normalize_minmax costs (Decision.total_cost m)) as (vc & -> & Hc).
    destruct (normalize_minmax latencies (Decision.total_latency m)) as (vl & -> & Hl).
    destruct (normalize_minmax reliabilities (Decision.reliability m)) as (vr & -> & Hr).
    rewrite Hroutes. eexists. split; [reflexivity|]. simpl.
    split; [now rewrite Hfst|]. constructor; [|assumption].
    simpl. intros H1 H2 H3. now rewrite (Hc H1), (Hl H2), (Hr H3).
Qed.

Lemma argmin_from_spec (r : list Q) :
  forall (i best : nat) (best_score : Q),
    let k := Decision.argmin_from r i best best_score in
    (k = best /\ forall s, In s r -> best_score <= s)
    \/ (exists j s, k = (i + j)%nat /\ nth_error r j = Some s /\ s < best_score
                    /\ forall s', In s' r -> s <= s').
Proof.
  induction r as [|s r IH]; intros i best best_score; simpl.
  - left. split; [reflexivity|intros ? []].
  - destruct (Py.lt s best_score) eqn:E.
    + apply lt_true in E. right.
      destruct (IH (S i) i s) as [[Hk Hmin]|(j & s' & Hk & Hnth & Hlt & Hmin)].
      * exists 0%nat, s. rewrite Hk.
        split; [lia|]. split; [reflexivity|]. split; [assumption|].
        intros s' [<-|Hs']; [lra|auto].
      * exists (S j), s'. rewrite Hk.
        split; [lia|]. split; [assumption|]. split; [lra|].
        intros s'' [<-|Hs'']; [lra|auto].
    + apply lt_false in E.
      destruct (IH (S i) best best_score)
        as [[Hk Hmin]|(j & s' & Hk & Hnth & Hlt & Hmin)].
      * left. split; [assumption|]. intros s' [<-|Hs']; auto.
      * right. exists (S j), s'. rewrite Hk.
        split; [lia|]. split; [assumption|]. split; [assumption|].
        intros s'' [<-|Hs'']; [lra|auto].
Qed.

Lemma argmin_spec (scores : list Q) :
  scores <> [] ->
  exists k s, Decision.argmin scores = Some k /\ nth_error scores k = Some s
              /\ forall s', In s' scores -> s <= s'.
Proof.
  destruct scores as [|s0 r]; [congruence|intros _]. simpl.
  destruct (argmin_from_spec r 1 0 s0) as [[Hk Hmin]|(j & s & Hk & Hnth & Hlt & Hmin)].
  - exists 0%nat, s0. rewrite Hk.
    split; [reflexivity|]. split; [reflexivity|].
    intros s' [<-|Hs']; [lra|auto].
  - exists (S j), s. rewrite Hk.
    split; [reflexivity|]. split; [assumption|].
    intros s' [<-|Hs']; [lra|auto].
Qed.

Lemma minmax_degenerate (xs : list Q) (x0 x : Q) :
  xs <> [] -> (forall y, In y xs -> y == x0) -> Decision.minmax xs x = 0.
Proof.
  intros Hne Hall. unfold Decision.minmax.
  destruct (lowest_spec xs Hne) as [_ Hlo].
  destruct (highest_spec xs Hne) as [_ Hhi].
  pose proof (least_lowest xs Hne). pose proof (greatest_highest xs Hne).
  apply Hall in Hlo, Hhi.
  destruct (Qeq_bool (Decision.greatest xs) (Decision.least xs)) eqn:E;
    [reflexivity|].
  apply Qeq_bool_neq in E. exfalso. apply E. lra.
Qed.

(** The scores that [select_optimal_route] computes: no iteration raises,
    and every candidate gets the weighted min-max score over [total_cost],
    [total_latency] and [reliability]. *)
Lemma normalized_routes_spec (alpha beta gamma : Q) (cs : list Decision.Candidate) :
  exists routes,
    Decision.normalized_routes alpha beta gamma cs = Some routes
    /\ map fst routes = cs
    /\ Forall (fun r : Decision.Scored =>
                 snd r == Decision.minmax_score Decision.total_cost alpha beta gamma
                            cs (snd (fst r)))
              routes.
Proof.
  unfold Decision.normalized_routes, Decision.minmax_score.
  destruct (score_all_spec alpha beta gamma
              (map (fun c => Decision.total_cost (snd c)) cs)
              (map (fun c => Decision.total_latency (snd c)) cs)
              (map (fun c => Decision.reliability (snd c)) cs) cs)
    as (routes & Hroutes & Hfst & Hall).
  exists routes. split; [assumption|]. split; [assumption|].
  rewrite Forall_forall in Hall |- *. intros r Hr.
  assert (Hin : In (fst r) cs).
  { rewrite <- Hfst. apply in_map. now apply list_elem_of_In. }
  apply (Hall r Hr).
  - apply (in_map (fun c => Decision.total_cost (snd c)) _ _ Hin).
  - apply (in_map (fun c => Decision.total_latency (snd c)) _ _ Hin).
  - apply (in_map (fun c => Decision.reliability (snd c)) _ _ Hin).
Qed.

(** C4, as the code has it. Given one or more candidates,
    [select_optimal_route] returns without raising (no normalisation divides
    by zero) a candidate of the set with the minimum score, where the score
    min-max normalises [total_cost] (the fee percentage plus 0.0001 times
    the fixed fee), [total_latency] and [reliability] across the candidate
    set, a degenerate range giving 0, inverts the reliability normalisation
    and weights the three terms by alpha, beta and gamma; when all
    candidates share the same three metrics every computed score is
    gamma. *)
Theorem select_optimal_route_argmin (alpha beta gamma : Q)
    (c : Decision.Candidate) (cs : list Decision.Candidate) :
  let candidates := c :: cs in
  let score := Decision.minmax_score Decision.total_cost alpha beta gamma candidates in
  exists (routes : list Decision.Scored) (path : list RouteSegment)
         (metrics : Decision.Metrics) (s : Q),
    Decision.normalized_routes alpha beta gamma candidates = Some routes
    /\ map fst routes = candidates
    /\ Forall (fun r => snd r == score (snd (fst r))) routes
    /\ Decision.select_optimal_route alpha beta gamma candidates
       = Some (Decision.Selected (path, metrics, s))
    /\ In (path, metrics) candidates
    /\ s == score metrics
    /\ Forall (fun c' => s <= score (snd c')) candidates
    /\ ((forall c', In c' candidates ->
           Decision.total_cost (snd c') == Decision.total_cost (snd c)
           /\ Decision.total_latency (snd c') == Decision.total_latency (snd c)
           /\ Decision.reliability (snd c') == Decision.reliability (snd c)) ->
        Forall (fun r => snd r == gamma) routes).
Proof.
  intros candidates score.
  destruct (normalized_routes_spec alpha beta gamma candidates)
    as (routes & Hroutes & Hfst & Hall).
  assert (Hne : map snd routes <> []).
  { intros Hnil. apply (f_equal (@length _)) in Hnil, Hfst.
    rewrite !length_map in *. simpl in *. lia. }
  destruct (argmin_spec _ Hne) as (k & s & Hk & Hnth & Hmin).
  pose proof Hnth as Hnth'.
  assert (exists r, nth_error routes k = Some r /\ snd r = s) as (r & Er & Hs).
  { destruct (nth_error routes k) as [r|] eqn:Er.
    - exists r. split; [reflexivity|].
      pose proof (map_nth_error snd _ _ Er) as Hr. congruence.
    - apply nth_error_None in Er.
      assert (nth_error (map snd routes) k <> None) as Hk' by congruence.
      apply nth_error_Some in Hk'. rewrite length_map in Hk'.
      exfalso. exact (Nat.lt_irrefl _ (Nat.lt_le_trans _ _ _ Hk' Er)). }
  destruct r as [[path metrics] s']. simpl in Hs. subst s'.
  assert (Hr : In (path, metrics, s) routes) by (eapply nth_error_In; eauto).
  exists routes, path, metrics, s.
  split; [assumption|]. split; [assumption|]. split; [assumption|].
  split.
  { unfold Decision.select_optimal_route. simpl.
    fold candidates. rewrite Hroutes, Hk, Er. reflexivity. }
  split.
  { rewrite <- Hfst. apply (in_map fst _ _ Hr). }
  rewrite Forall_forall in Hall.
  split.
  { apply (Hall (path, metrics, s)). now apply list_elem_of_In. }
  split.
  { apply Forall_forall. intros c' Hc'. apply list_elem_of_In in Hc'.
    rewrite <- Hfst in Hc'. apply in_map_iff in Hc' as (r & <- & Hr').
    assert (H1 : snd r == score (snd (fst r)))
      by (apply Hall; now apply list_elem_of_In).
    assert (H2 : s <= snd r) by (apply Hmin; now apply in_map).
    lra. }
  intros Hsame. apply Forall_forall. intros r Hr'.
  apply (Qeq_trans _ _ _ (Hall r Hr')). unfold score, Decision.minmax_score.
  rewrite (minmax_degenerate _ (Decision.total_cost (snd c))),
          (minmax_degenerate _ (Decision.total_latency (snd c))),
          (minmax_degenerate _ (Decision.reliability (snd c))).
  - ring.
  - discriminate.
  - intros y (c' & <- & Hc')%in_map_iff. now apply Hsame.
  - discriminate.
  - intros y (c' & <- & Hc')%in_map_iff. now apply Hsame.
  - discriminate.
  - intros y (c' & <- & Hc')%in_map_iff. now apply Hsame.
Qed.

(** C4, a degenerate candidate set: two candidates with the same metrics
    both get the score gamma. *)
Lemma select_optimal_route_argmin_witness :
  exists routes,
    Decision.normalized_routes 0.4 0.3 0.3
      (Examples.candidates_of [[Examples.wire]; [Examples.wire]]) = Some routes
    /\ Forall (fun r => snd r == 0.3) routes.
Proof.
  assert (exists m, Examples.candidates_of [[Examples.wire]; [Examples.wire]]
                    = [([Examples.wire], m); ([Examples.wire], m)]) as [m ->]
    by (eexists; vm_compute; reflexivity).
  destruct (select_optimal_route_argmin 0.4 0.3 0.3
              ([Examples.wire], m) [([Examples.wire], m)])
    as (routes & path & metrics & s & Hroutes & _ & _ & _ & _ & _ & _ & Hsame).
  exists routes. split; [exact Hroutes|].
  apply Hsame. intros c' [<-|[<-|[]]]; repeat split; reflexivity.
Defined.

(** C4, counterexample to the claim as stated: the candidate that
    [select_optimal_route] returns is not the one with the minimum score when
    the score normalises [total_cost_percent].  The transfer has the lower
    fee percentage, the conversion the lower [total_cost], and the
    conversion is selected. *)
Lemma select_optimal_route_not_by_percent :
  exists (m_wire m_conversion : Decision.Metrics) (s : Q),
    let candidates := [([Examples.wire], m_wire);
                       ([Examples.conversion], m_conversion)] in
    let claimed :=
      Decision.minmax_score Decision.total_cost_percent 0.4 0.3 0.3 candidates in
    Examples.candidates_of [[Examples.wire]; [Examples.conversion]] = candidates
    /\ Decision.select_optimal_route 0.4 0.3 0.3 candidates
       = Some (Decision.Selected ([Examples.conversion], m_conversion, s))
    /\ claimed m_wire < claimed m_conversion.
Proof.
  do 3 eexists. cbv zeta.
  split; [vm_compute; reflexivity|].
  split; [vm_compute; reflexivity|].
  vm_compute. reflexivity.
Qed.

(** ** Settlement simulator *)

Section Ledger.

Import Simulator.
Implicit Types (s : Simulator.t) (w a : string).

Lemma balance_ensure_wallet s w w' a :
  balance (ensure_wallet w' s) w a = balance s w a.
Proof.
  unfold balance, ensure_wallet.
  destruct (wallets s !! w') eqn:E; [reflexivity|]. simpl.
  destruct (decide (w' = w)) as [->|Hne].
  - now rewrite lookup_insert_eq, E.
  - now rewrite lookup_insert_ne.
Qed.

Lemma get_balance_value s w a : fst (get_balance w a s) = balance s w a.
Proof. unfold get_balance. simpl. apply balance_ensure_wallet. Qed.

Lemma get_balance_state s w a : snd (get_balance w a s) = ensure_wallet w s.
Proof. reflexivity. Qed.

Lemma balance_set_balance s w a w' a' (x : Q) :
  balance (set_balance w a x s) w' a'
  = if decide (w = w' /\ a = a') then x else balance s w' a'.
Proof.
  unfold set_balance. rewrite <- (balance_ensure_wallet s w' w a').
  unfold balance. simpl.
  destruct (decide (w = w')) as [->|Hw].
  - rewrite lookup_insert_eq. simpl.
    destruct (decide (a = a')) as [->|Ha].
    + rewrite lookup_insert_eq. simpl.
      destruct (decide (w' = w' /\ a' = a')) as [_|[]]; auto.
    + rewrite lookup_insert_ne by assumption.
      destruct (decide (w' = w' /\ a = a')) as [[_ ?]|_]; [contradiction|].
      reflexivity.
  - rewrite lookup_insert_ne by assumption.
    destruct (decide (w = w' /\ a = a')) as [[? _]|_]; [contradiction|].
    reflexivity.
Qed.

Lemma balance_add_balance s w a w' a' (x : Q) :
  balance (add_balance w a x s) w' a'
  = if decide (w = w' /\ a = a') then balance s w a + x else balance s w' a'.
Proof.
  unfold add_balance.
  pose proof (get_balance_value s w a) as Hv.
  pose proof (get_balance_state s w a) as Hs.
  destruct (get_balance w a s) as [current s']. simpl in Hv, Hs. subst.
  rewrite balance_set_balance, balance_ensure_wallet. reflexivity.
Qed.

Lemma subtract_balance_spec s w a (x : Q) :
  subtract_balance w a x s
  = if Py.le x (balance s w a)
    then (true, set_balance w a (balance s w a - x) (ensure_wallet w s))
    else (false, ensure_wallet w s).
Proof.
  unfold subtract_balance.
  pose proof (get_balance_value s w a) as Hv.
  pose proof (get_balance_state s w a) as Hs.
  destruct (get_balance w a s) as [current s']. simpl in Hv, Hs. subst.
  reflexivity.
Qed.

Lemma balance_create_transaction s h ty from a0 (x : Q) net w a :
  balance (snd (create_transaction h ty from a0 x net s)) w a = balance s w a.
Proof. reflexivity. Qed.

Lemma simulate_confirmation_created s h ty from a0 (x : Q) net (b : Z) :
  exists s',
    simulate_confirmation h b (snd (create_transaction h ty from a0 x net s))
    = (s', inr b)
    /\ wallets s' = wallets s.
Proof.
  unfold simulate_confirmation, create_transaction. simpl.
  rewrite lookup_insert_eq. eexists. split; reflexivity.
Qed.

End Ledger.

(** ** Segment executors *)

Section ExecutorFacts.

Import Simulator Executors.

Lemma max_Qmax (a b : Q) : Py.max a b == Qmax a b.
Proof.
  unfold Py.max. destruct (Py.lt a b) eqn:E.
  - apply lt_true in E. symmetry. apply Q.max_r. lra.
  - apply lt_false in E. symmetry. apply Q.max_l. lra.
Qed.

Lemma min_Qmin (a b : Q) : Py.min a b == Qmin a b.
Proof.
  unfold Py.min. destruct (Py.lt b a) eqn:E.
  - apply lt_true in E. symmetry. apply Q.min_r. lra.
  - apply lt_false in E. symmetry. apply Q.min_l. lra.
Qed.

(** The fees and the output that the validating executors compute are those
    of the fee law. *)
Lemma validated_fees_law (input fp ff : Q) :
  input * Py.max 0 (Py.min 100 fp) / 100 + Py.max 0 ff == law_fees input fp ff.
Proof.
  unfold law_fees. now rewrite !max_Qmax, min_Qmin.
Qed.

Lemma validated_output_law (input fp ff rate : Q) :
  Py.max 0 (input - (input * Py.max 0 (Py.min 100 fp) / 100 + Py.max 0 ff)) * rate
  == law_output input fp ff rate.
Proof.
  unfold law_output. now rewrite max_Qmax, validated_fees_law.
Qed.

Lemma wallet_or_new_run (wallet_address : option string) (rnd : Entropy)
    (s : Simulator.t) :
  wallet_or_new wallet_address rnd s
  = (if Py.truthy wallet_address then s else ensure_wallet (wallet_id rnd) s,
     inr (wallet_used wallet_address rnd)).
Proof.
  unfold wallet_or_new, wallet_used.
  destruct (Py.truthy wallet_address); reflexivity.
Qed.

(** After the "ensure wallet has balance" statements the balance covers the
    input amount, so the debit that follows succeeds. *)
Lemma ensure_balance_covers (s : Simulator.t) (w a : string) (x : Q) :
  exists s1,
    ensure_balance w a x s = (s1, inr tt)
    /\ balance s1 w a == Qmax (balance s w a) x
    /\ (forall w' a', (w', a') <> (w, a) -> balance s1 w' a' = balance s w' a')
    /\ fst (subtract_balance w a x s1) = true.
Proof.
  unfold ensure_balance, bind, call, when, exec, ret.
  pose proof (get_balance_value s w a) as Hv.
  pose proof (get_balance_state s w a) as Hs.
  destruct (get_balance w a s) as [current s']. simpl in Hv, Hs. subst.
  destruct (Py.lt (balance s w a) x) eqn:E.
  - apply lt_true in E. eexists. split; [reflexivity|].
    assert (Hb : balance (add_balance w a (x - balance s w a) (ensure_wallet w s)) w a
                 == x).
    { rewrite balance_add_balance, balance_ensure_wallet.
      destruct (decide (w = w /\ a = a)) as [_|[]]; auto. ring. }
    split; [|split].
    + rewrite Hb. symmetry. apply Q.max_r. lra.
    + intros w' a' Hne. rewrite balance_add_balance, !balance_ensure_wallet.
      destruct (decide (w = w' /\ a = a')) as [[-> ->]|_]; congruence.
    + rewrite subtract_balance_spec.
      rewrite (le_of x); [reflexivity|]. rewrite Hb. lra.
  - apply lt_false in E. eexists. split; [reflexivity|].
    split; [|split].
    + rewrite balance_ensure_wallet. symmetry. apply Q.max_l. lra.
    + intros w' a' _. apply balance_ensure_wallet.
    + rewrite subtract_balance_spec.
      rewrite (le_of x); [reflexivity|]. rewrite balance_ensure_wallet. lra.
Qed.

End ExecutorFacts.

Lemma balance_wallets (s s' : Simulator.t) (w a : string) :
  Simulator.wallets s = Simulator.wallets s' -> balance s w a = balance s' w a.
Proof. unfold balance. now intros ->. Qed.

Section Runs.

Import Simulator Executors.

Variables (rnd : Entropy) (idx : nat) (segment : RouteSegment) (input : Q)
          (wallet_address : option string) (sim : Simulator.t)
          (fp ff rate : Q).
Hypothesis Hfp : cost_number 0 (fee_percent (cost segment)) = Some fp.
Hypothesis Hff : cost_number 0 (fixed_fee (cost segment)) = Some ff.
Hypothesis Hrate : cost_number 1 (effective_fx_rate (cost segment)) = Some rate.

Let w := wallet_used wallet_address rnd.
Let fees := input * Py.max 0 (Py.min 100 fp) / 100 + Py.max 0 ff.

Lemma CryptoExecutor_valid :
  0 < rate -> 0 <= input ->
  let out := Py.max 0 (input - fees) * rate in
  exists sim',
    CryptoExecutor rnd idx segment input wallet_address sim
    = (sim', completed idx segment true input out fees
                       (Some (tx_hash rnd)) (Some w))
    /\ balance sim' w (from_asset segment)
       == Qmax (balance sim w (from_asset segment)) input - input
          + (if decide (to_asset segment = from_asset segment) then out else 0).
Proof.
  intros Hr Hi out.
  unfold CryptoExecutor, try_except.
  unfold bind at 1. rewrite wallet_or_new_run. fold w.
  set (s0 := if Py.truthy wallet_address then sim else ensure_wallet (wallet_id rnd) sim).
  assert (Hs0 : forall w' a', balance s0 w' a' = balance sim w' a').
  { intros. unfold s0. destruct (Py.truthy wallet_address); auto.
    apply balance_ensure_wallet. }
  destruct (ensure_balance_covers s0 w (from_asset segment) input)
    as (s1 & He & Hb1 & Hother & Hsub).
  unfold bind at 1. rewrite He.
  unfold number. rewrite Hfp, Hff, Hrate.
  unfold bind, ret, when, raise, call, exec.
  rewrite (le_not rate 0 Hr), (lt_not input 0 Hi).
  assert (Hle : Py.le input (balance s1 w (from_asset segment)) = true).
  { apply le_of. rewrite Hb1. apply Q.le_max_r. }
  unfold ret. cbv beta iota zeta.
  rewrite subtract_balance_spec, Hle.
  unfold create_transaction, simulate_confirmation.
  cbn [transactions wallets confirmations]. cbv beta iota zeta.
  cbn [transactions wallets confirmations].
  rewrite lookup_insert_eq.
  eexists. split; [reflexivity|].
  rewrite balance_add_balance.
  set (s2 := set_balance w (from_asset segment)
               (balance s1 w (from_asset segment) - input) (ensure_wallet w s1)).
  assert (Hs2 : forall S, wallets S = wallets s2 ->
                  balance S w (from_asset segment)
                  == Qmax (balance sim w (from_asset segment)) input - input).
  { intros S HS. rewrite (balance_wallets _ _ _ _ HS). unfold s2.
    rewrite balance_set_balance.
    destruct (decide (w = w /\ from_asset segment = from_asset segment))
      as [_|[]]; auto.
    rewrite Hb1, Hs0. reflexivity. }
  destruct (decide (to_asset segment = from_asset segment)) as [Heq|Hne].
  - rewrite Heq.
    destruct (decide (w = w /\ from_asset segment = from_asset segment))
      as [_|[]]; auto.
    rewrite Hs2 by reflexivity. reflexivity.
  - destruct (decide (w = w /\ to_asset segment = from_asset segment))
      as [[_ ?]|_]; [contradiction|].
    rewrite Hs2 by reflexivity. ring.
Qed.

Lemma BridgeExecutor_valid :
  0 <= input ->
  let out := Py.max 0 (input - fees) in
  exists sim',
    BridgeExecutor rnd idx segment input wallet_address sim
    = (sim', completed idx segment true input out fees (Some (tx_hash rnd)) None)
    /\ balance sim' w (from_asset segment)
       == Qmax (balance sim w (from_asset segment)) input - input
          + (if decide (to_asset segment = from_asset segment) then out else 0).
Proof.
  intros Hi out.
  unfold BridgeExecutor, try_except.
  unfold bind at 1. rewrite wallet_or_new_run. fold w.
  set (s0 := if Py.truthy wallet_address then sim else ensure_wallet (wallet_id rnd) sim).
  assert (Hs0 : forall w' a', balance s0 w' a' = balance sim w' a').
  { intros. unfold s0. destruct (Py.truthy wallet_address); auto.
    apply balance_ensure_wallet. }
  destruct (ensure_balance_covers s0 w (from_asset segment) input)
    as (s1 & He & Hb1 & Hother & Hsub).
  unfold bind at 1. rewrite He.
  unfold number. rewrite Hfp, Hff.
  unfold bind, ret, when, raise, call, exec.
  rewrite (lt_not input 0 Hi).
  assert (Hle : Py.le input (balance s1 w (from_asset segment)) = true).
  { apply le_of. rewrite Hb1. apply Q.le_max_r. }
  unfold ret. cbv beta iota zeta.
  rewrite subtract_balance_spec, Hle.
  unfold create_transaction, simulate_confirmation.
  cbn [transactions wallets confirmations]. cbv beta iota zeta.
  cbn [transactions wallets confirmations].
  rewrite lookup_insert_eq.
  eexists. split; [reflexivity|].
  rewrite balance_add_balance.
  set (s2 := set_balance w (from_asset segment)
               (balance s1 w (from_asset segment) - input) (ensure_wallet w s1)).
  assert (Hs2 : forall S, wallets S = wallets s2 ->
                  balance S w (from_asset segment)
                  == Qmax (balance sim w (from_asset segment)) input - input).
  { intros S HS. rewrite (balance_wallets _ _ _ _ HS). unfold s2.
    rewrite balance_set_balance.
    destruct (decide (w = w /\ from_asset segment = from_asset segment))
      as [_|[]]; auto.
    rewrite Hb1, Hs0. reflexivity. }
  destruct (decide (to_asset segment = from_asset segment)) as [Heq|Hne].
  - rewrite Heq.
    destruct (decide (w = w /\ from_asset segment = from_asset segment))
      as [_|[]]; auto.
    rewrite Hs2 by reflexivity. reflexivity.
  - destruct (decide (w = w /\ to_asset segment = from_asset segment))
      as [[_ ?]|_]; [contradiction|].
    rewrite Hs2 by reflexivity. ring.
Qed.

Lemma RampExecutor_off_ramp_valid :
  segment_type segment = OFF_RAMP ->
  0 < rate -> 0 <= input ->
  let out := Py.max 0 (input - fees) * rate in
  exists sim',
    RampExecutor rnd idx segment input wallet_address sim
    = (sim', completed idx segment true input out fees
                       (Some (tx_hash rnd)) (Some w))
    /\ balance sim' w (from_asset segment)
       == Qmax (balance sim w (from_asset segment)) input - input.
Proof.
  intros Ht Hr Hi out.
  unfold RampExecutor, try_except.
  replace (String.eqb (SegmentType_value (segment_type segment)) "on_ramp")
    with false by (rewrite Ht; reflexivity).
  unfold bind at 1. rewrite wallet_or_new_run. fold w.
  set (s0 := if Py.truthy wallet_address then sim else ensure_wallet (wallet_id rnd) sim).
  assert (Hs0 : forall w' a', balance s0 w' a' = balance sim w' a').
  { intros. unfold s0. destruct (Py.truthy wallet_address); auto.
    apply balance_ensure_wallet. }
  destruct (ensure_balance_covers s0 w (from_asset segment) input)
    as (s1 & He & Hb1 & Hother & Hsub).
  unfold bind at 1. rewrite He.
  unfold number. rewrite Hfp, Hff, Hrate.
  unfold bind, ret, when, raise, call, exec.
  rewrite (le_not rate 0 Hr), (lt_not input 0 Hi).
  assert (Hle : Py.le input (balance s1 w (from_asset segment)) = true).
  { apply le_of. rewrite Hb1. apply Q.le_max_r. }
  unfold ret. cbv beta iota zeta.
  rewrite subtract_balance_spec, Hle.
  unfold create_transaction, simulate_confirmation.
  cbn [transactions wallets confirmations]. cbv beta iota zeta.
  cbn [transactions wallets confirmations].
  rewrite lookup_insert_eq.
  eexists. split; [reflexivity|].
  rewrite (balance_wallets _
             (set_balance w (from_asset segment)
                (balance s1 w (from_asset segment) - input) (ensure_wallet w s1)))
    by reflexivity.
  rewrite balance_set_balance.
  destruct (decide (w = w /\ from_asset segment = from_asset segment))
    as [_|[]]; auto.
  rewrite Hb1, Hs0. reflexivity.
Qed.

Lemma RampExecutor_on_ramp_valid :
  segment_type segment = ON_RAMP ->
  0 < rate -> 0 <= input ->
  let out := Py.max 0 (input - fees) * rate in
  exists sim',
    RampExecutor rnd idx segment input wallet_address sim
    = (sim', completed idx segment true input out fees None (Some w)).
Proof.
  intros Ht Hr Hi out.
  unfold RampExecutor, try_except.
  replace (String.eqb (SegmentType_value (segment_type segment)) "on_ramp")
    with true by (rewrite Ht; reflexivity).
  unfold bind at 1. rewrite wallet_or_new_run. fold w.
  unfold number. rewrite Hfp, Hff, Hrate.
  unfold bind, ret, when, raise, call, exec.
  rewrite (le_not rate 0 Hr), (lt_not input 0 Hi).
  unfold ret. cbv beta iota zeta.
  eexists. reflexivity.
Qed.

Lemma BankRailExecutor_valid :
  0 < rate -> 0 <= input ->
  let out := Py.max 0 (input - fees) * rate in
  BankRailExecutor rnd idx segment input wallet_address sim
  = (sim, completed idx segment false input out fees None None).
Proof.
  intros Hr Hi out.
  unfold BankRailExecutor, try_except.
  unfold number. rewrite Hfp, Hff, Hrate.
  unfold bind, ret, when, raise, call, exec.
  rewrite (le_not rate 0 Hr), (lt_not input 0 Hi).
  reflexivity.
Qed.

(** The FX executor completes whenever the latency window is not empty,
    whatever the rate and the input amount are, and applies neither clamp
    nor floor. *)
Lemma FXExecutor_run :
  (default 5 (min_minutes (latency segment))
   <= default 10 (max_minutes (latency segment)))%Z ->
  let fx_fees := input * fp / 100 + ff in
  FXExecutor rnd idx segment input wallet_address sim
  = (sim, completed idx segment false input ((input - fx_fees) * rate) fx_fees
                    None None).
Proof.
  intros Hl fx_fees.
  unfold FXExecutor, try_except.
  unfold number. rewrite Hfp, Hff, Hrate.
  unfold bind, ret, simulate_fx_conversion.
  apply Z.ltb_ge in Hl. rewrite Hl. reflexivity.
Qed.

(** The executors that validate reject a non-positive rate and a negative
    input amount. *)
Lemma CryptoExecutor_invalid :
  rate <= 0 \/ input < 0 ->
  exists sim' e,
    CryptoExecutor rnd idx segment input wallet_address sim
    = (sim', failed idx segment true input e).
Proof.
  intros Hbad.
  unfold CryptoExecutor, try_except.
  unfold bind at 1. rewrite wallet_or_new_run.
  set (s0 := if Py.truthy wallet_address then sim else ensure_wallet (wallet_id rnd) sim).
  destruct (ensure_balance_covers s0 (wallet_used wallet_address rnd)
              (from_asset segment) input) as (s1 & He & _).
  unfold bind at 1. rewrite He.
  unfold number. rewrite Hfp, Hff, Hrate.
  unfold bind, ret, when, raise.
  destruct (Py.le rate 0) eqn:Er; [eauto|].
  destruct (Py.lt input 0) eqn:Ei; [eauto|].
  apply le_false in Er. apply lt_false in Ei. destruct Hbad; lra.
Qed.

Lemma RampExecutor_invalid :
  rate <= 0 \/ input < 0 ->
  exists sim' e,
    RampExecutor rnd idx segment input wallet_address sim
    = (sim', failed idx segment true input e).
Proof.
  intros Hbad.
  unfold RampExecutor, try_except.
  destruct (String.eqb (SegmentType_value (segment_type segment)) "on_ramp").
  - unfold bind at 1. rewrite wallet_or_new_run.
    unfold number. rewrite Hfp, Hff, Hrate.
    unfold bind, ret, when, raise.
    destruct (Py.le rate 0) eqn:Er; [eauto|].
    destruct (Py.lt input 0) eqn:Ei; [eauto|].
    apply le_false in Er. apply lt_false in Ei. destruct Hbad; lra.
  - unfold bind at 1. rewrite wallet_or_new_run.
    set (s0 := if Py.truthy wallet_address then sim
               else ensure_wallet (wallet_id rnd) sim).
    destruct (ensure_balance_covers s0 (wallet_used wallet_address rnd)
                (from_asset segment) input) as (s1 & He & _).
    unfold bind at 1. rewrite He.
    unfold number. rewrite Hfp, Hff, Hrate.
    unfold bind, ret, when, raise.
    destruct (Py.le rate 0) eqn:Er; [eauto|].
    destruct (Py.lt input 0) eqn:Ei; [eauto|].
    apply le_false in Er. apply lt_false in Ei. destruct Hbad; lra.
Qed.

Lemma BankRailExecutor_invalid :
  rate <= 0 \/ input < 0 ->
  exists e,
    BankRailExecutor rnd idx segment input wallet_address sim
    = (sim, failed idx segment false input e).
Proof.
  intros Hbad.
  unfold BankRailExecutor, try_except.
  unfold number. rewrite Hfp, Hff, Hrate.
  unfold bind, ret, when, raise.
  destruct (Py.le rate 0) eqn:Er; [eauto|].
  destruct (Py.lt input 0) eqn:Ei; [eauto|].
  apply le_false in Er. apply lt_false in Ei. destruct Hbad; lra.
Qed.

Lemma BridgeExecutor_invalid :
  input < 0 ->
  exists sim' e,
    BridgeExecutor rnd idx segment input wallet_address sim
    = (sim', failed idx segment true input e).
Proof.
  intros Hbad.
  unfold BridgeExecutor, try_except.
  unfold bind at 1. rewrite wallet_or_new_run.
  set (s0 := if Py.truthy wallet_address then sim else ensure_wallet (wallet_id rnd) sim).
  destruct (ensure_balance_covers s0 (wallet_used wallet_address rnd)
              (from_asset segment) input) as (s1 & He & _).
  unfold bind at 1. rewrite He.
  unfold number. rewrite Hfp, Hff.
  unfold bind, ret, when, raise.
  rewrite (lt_of input 0 Hbad). eauto.
Qed.

End Runs.

(** C1, as the code has it. For every CRYPTO, ON_RAMP, OFF_RAMP or BANK_RAIL
    segment executed in simulation mode with a non-negative input amount and
    a positive effective rate, the executor completes with
    fees = input*fee_percent/100 + fixed_fee (fee_percent clamped to
    [0, 100], fixed_fee floored at 0) and output = max(0, input - fees) * rate.
    A BRIDGE segment gets the same fees and output = max(0, input - fees):
    the rate is not applied.  An FX segment gets the fees and the output of
    the law when its fee_percent lies in [0, 100], its fixed_fee is not
    negative, the fees do not exceed the input and its latency window is not
    empty.  In particular, for input=1000, fee_percent=0.1, fixed_fee=0,
    rate=0.92 the law gives fees=1.0 and output=919.08. *)
Theorem executor_fee_law (rnd : Simulator.Entropy) (idx : nat)
    (segment : RouteSegment) (input : Q) (wallet_address : option string)
    (sim : Simulator.t) (fp ff rate : Q) (executor : Executors.Executor) :
  cost_number 0 (fee_percent (cost segment)) = Some fp ->
  cost_number 0 (fixed_fee (cost segment)) = Some ff ->
  cost_number 1 (effective_fx_rate (cost segment)) = Some rate ->
  0 <= input -> 0 < rate ->
  Executors.executors (segment_type segment) = Some executor ->
  let result := snd (executor rnd idx segment input wallet_address sim) in
  let by_law (r : Q) :=
    status result = SegmentExecutionStatus.COMPLETED
    /\ fees_paid result == law_fees input fp ff
    /\ output_amount result == law_output input fp ff r in
  match segment_type segment with
  | CRYPTO | ON_RAMP | OFF_RAMP | BANK_RAIL => by_law rate
  | BRIDGE => by_law 1
  | FX =>
      0 <= fp <= 100 -> 0 <= ff -> law_fees input fp ff <= input ->
      (default 5 (min_minutes (latency segment))
       <= default 10 (max_minutes (latency segment)))%Z ->
      by_law rate
  | GAS | LIQUIDITY => True
  end
  /\ law_fees 1000 0.1 0 == 1 /\ law_output 1000 0.1 0 0.92 == 919.08.
Proof.
  intros Hfp Hff Hrate Hi Hr Hex result by_law.
  split; [|split; vm_compute; reflexivity].
  pose proof (validated_fees_law input fp ff) as Hfees.
  pose proof (validated_output_law input fp ff rate) as Hout.
  subst result by_law.
  destruct (segment_type segment) eqn:Ht; simpl in Hex;
    try discriminate Hex; injection Hex as <-.
  - (* FX *)
    intros [Hfp0 Hfp100] Hff0 Hcover Hl.
    rewrite (FXExecutor_run rnd idx segment input wallet_address sim fp ff rate
               Hfp Hff Hrate Hl). simpl.
    assert (Hlaw : input * fp / 100 + ff == law_fees input fp ff).
    { unfold law_fees. rewrite (Q.min_r 100 fp), (Q.max_r 0 fp), (Q.max_r 0 ff);
        try lra; reflexivity. }
    split; [reflexivity|]. split; [exact Hlaw|].
    unfold law_output. rewrite Hlaw, Q.max_r; [reflexivity|lra].
  - (* CRYPTO *)
    destruct (CryptoExecutor_valid rnd idx segment input wallet_address sim
                fp ff rate Hfp Hff Hrate Hr Hi) as (sim' & -> & _).
    simpl. auto.
  - (* BRIDGE *)
    destruct (BridgeExecutor_valid rnd idx segment input wallet_address sim
                fp ff Hfp Hff Hi) as (sim' & -> & _).
    simpl. split; [reflexivity|]. split; [exact Hfees|].
    unfold law_output. rewrite <- Hfees, max_Qmax. ring.
  - (* ON_RAMP *)
    destruct (RampExecutor_on_ramp_valid rnd idx segment input wallet_address sim
                fp ff rate Hfp Hff Hrate Ht Hr Hi) as (sim' & ->).
    simpl. auto.
  - (* OFF_RAMP *)
    destruct (RampExecutor_off_ramp_valid rnd idx segment input wallet_address sim
                fp ff rate Hfp Hff Hrate Ht Hr Hi) as (sim' & -> & _).
    simpl. auto.
  - (* BANK_RAIL *)
    rewrite (BankRailExecutor_valid rnd idx segment input wallet_address sim
               fp ff rate Hfp Hff Hrate Hr Hi).
    simpl. auto.
Qed.

(** C1, the fee law of the specification on a crypto swap: input=1000,
    fee_percent=0.1, fixed_fee=0, rate=0.92 give fees=1.0 and
    output=919.08. *)
Lemma executor_fee_law_witness :
  let result :=
    snd (Executors.CryptoExecutor Examples.rnd 0%nat
           (Examples.segment_of CRYPTO 0.1 0 0.92) 1000 None Simulator.init) in
  status result = SegmentExecutionStatus.COMPLETED
  /\ fees_paid result == 1
  /\ output_amount result == 919.08.
Proof.
  intros result.
  assert (H0 : 0 <= 1000) by (vm_compute; discriminate).
  assert (H1 : 0 < 0.92) by reflexivity.
  destruct (executor_fee_law Examples.rnd 0%nat (Examples.segment_of CRYPTO 0.1 0 0.92)
              1000 None Simulator.init 0.1 0 0.92 Executors.CryptoExecutor
              eq_refl eq_refl eq_refl H0 H1 eq_refl)
    as ((Hstatus & Hfees & Hout) & Hlaw_fees & Hlaw_out).
  split; [exact Hstatus|]. split.
  - exact (Qeq_trans _ _ _ Hfees Hlaw_fees).
  - exact (Qeq_trans _ _ _ Hout Hlaw_out).
Defined.

(** C1, counterexample to the claim as stated: a bridge segment with
    input=1000, fee_percent=0.1, fixed_fee=0 and rate=0.92 completes with
    fees=1.0 and output=999, not 919.08; the bridge executor does not apply
    the rate. *)
Lemma bridge_ignores_rate :
  let result :=
    snd (Executors.BridgeExecutor Examples.rnd 0%nat
           (Examples.segment_of BRIDGE 0.1 0 0.92) 1000 None Simulator.init) in
  status result = SegmentExecutionStatus.COMPLETED
  /\ fees_paid result == 1
  /\ output_amount result == 999
  /\ ~ output_amount result == law_output 1000 0.1 0 0.92.
Proof.
  cbv zeta. split; [vm_compute; reflexivity|].
  split; [vm_compute; reflexivity|].
  split; [vm_compute; reflexivity|].
  intros H. vm_compute in H. discriminate H.
Qed.

(** The executors that validate their input reject a non-positive rate and
    a negative input amount with a FAILED result without fees and output;
    the bridge executor rejects a negative input amount. *)
Lemma validating_executors_reject (rnd : Simulator.Entropy) (idx : nat)
    (segment : RouteSegment) (input : Q) (wallet_address : option string)
    (sim : Simulator.t) (fp ff rate : Q) (executor : Executors.Executor) :
  cost_number 0 (fee_percent (cost segment)) = Some fp ->
  cost_number 0 (fixed_fee (cost segment)) = Some ff ->
  cost_number 1 (effective_fx_rate (cost segment)) = Some rate ->
  Executors.executors (segment_type segment) = Some executor ->
  match segment_type segment with
  | CRYPTO | ON_RAMP | OFF_RAMP | BANK_RAIL => rate <= 0 \/ input < 0
  | BRIDGE => input < 0
  | _ => False
  end ->
  let result := snd (executor rnd idx segment input wallet_address sim) in
  status result = SegmentExecutionStatus.FAILED
  /\ fees_paid result = 0 /\ output_amount result = 0.
Proof.
  intros Hfp Hff Hrate Hex Hbad.
  destruct (segment_type segment) eqn:Ht; simpl in Hex;
    try discriminate Hex; try contradiction; injection Hex as <-.
  - destruct (CryptoExecutor_invalid rnd idx segment input wallet_address sim
                fp ff rate Hfp Hff Hrate Hbad) as (sim' & e & ->). simpl. auto.
  - destruct (BridgeExecutor_invalid rnd idx segment input wallet_address sim
                fp ff Hfp Hff Hbad) as (sim' & e & ->). simpl. auto.
  - destruct (RampExecutor_invalid rnd idx segment input wallet_address sim
                fp ff rate Hfp Hff Hrate Hbad) as (sim' & e & ->). simpl. auto.
  - destruct (RampExecutor_invalid rnd idx segment input wallet_address sim
                fp ff rate Hfp Hff Hrate Hbad) as (sim' & e & ->). simpl. auto.
  - destruct (BankRailExecutor_invalid rnd idx segment input wallet_address sim
                fp ff rate Hfp Hff Hrate Hbad) as (e & ->). simpl. auto.
Qed.

(** C7, the code at the failing inputs: the FX executor completes a segment
    with a negative rate and a segment with a negative input amount, and the
    bridge executor completes a segment whose rate is zero. *)
Lemma FXExecutor_completes_invalid_segments :
  let negative_rate :=
    snd (Executors.FXExecutor Examples.rnd 0%nat
           (Examples.segment_of FX 0.1 0 (-0.92)) 1000 None Simulator.init) in
  let negative_input :=
    snd (Executors.FXExecutor Examples.rnd 0%nat
           (Examples.segment_of FX 0.1 0 0.92) (-1000) None Simulator.init) in
  let zero_rate_bridge :=
    snd (Executors.BridgeExecutor Examples.rnd 0%nat
           (Examples.segment_of BRIDGE 0.1 0 0) 1000 None Simulator.init) in
  (status negative_rate = SegmentExecutionStatus.COMPLETED
   /\ output_amount negative_rate == -919.08)
  /\ (status negative_input = SegmentExecutionStatus.COMPLETED
      /\ fees_paid negative_input == -1
      /\ output_amount negative_input == -919.08)
  /\ status zero_rate_bridge = SegmentExecutionStatus.COMPLETED.
Proof.
  cbv zeta. repeat split; vm_compute; reflexivity.
Qed.

(** ** The top-up in binary64 *)

Section Rounding.

Import PrimFloat.

(** C10, the code at the failing input: a wallet that holds 0.2 USDC and a
    crypto, bridge or off-ramp segment with an input amount of 0.9.  The
    top-up adds 0.9 - 0.2 to the balance, and the rounded sum
    0.2 + (0.9 - 0.2) is 0.8999999999999999, which is below the input
    amount: [subtract_balance] returns [False] and the wallet is not
    debited. *)
Lemma top_up_falls_short_of_input :
  let w := Binary64.set_balance "0xw" "USDC" 0.2%float ∅ in
  let w1 := Binary64.ensure_balance "0xw" "USDC" 0.9%float w in
  fst (Binary64.get_balance "0xw" "USDC" w) = 0.2%float
  /\ fst (Binary64.get_balance "0xw" "USDC" w1) = 0.8999999999999999%float
  /\ (0.8999999999999999 <? 0.9)%float = true
  /\ Binary64.top_up_and_debit "0xw" "USDC" 0.9%float w = (false, w1).
Proof.
  intros w w1. split; [reflexivity|]. split; [vm_compute; reflexivity|].
  split; [reflexivity|]. vm_compute. reflexivity.
Qed.

End Rounding.

(** ** Execution orchestrator *)

Section Orchestration.

Import Simulator Executors Orchestrator.

Lemma returns_ret {A} (P : A -> Prop) (a : A) : P a -> returns P (ret a).
Proof. intros H s s' a' [= _ <-]. exact H. Qed.

Lemma returns_raise {A} (P : A -> Prop) (e : Exn) : returns P (raise e).
Proof. intros s s' a [=]. Qed.

Lemma returns_bind {A B} (P : B -> Prop) (m : M A) (k : A -> M B) :
  (forall a, returns P (k a)) -> returns P (bind m k).
Proof.
  intros H s s' b. unfold bind. destruct (m s) as [s1 [e|a]]; [intros [=]|].
  apply H.
Qed.

Lemma try_except_index (idx : nat) (body : M SegmentExecutionResult)
    (handler : Exn -> SegmentExecutionResult) (s : Simulator.t) :
  returns (fun r => segment_index r = idx) body ->
  (forall e, segment_index (handler e) = idx) ->
  segment_index (snd (try_except body handler s)) = idx.
Proof.
  intros Hbody Hhandler. unfold try_except.
  destruct (body s) as [s' [e|r]] eqn:E; simpl; [apply Hhandler|].
  eapply Hbody, E.
Qed.

Ltac returns_index :=
  repeat first
    [ apply returns_bind; intros ?
    | apply returns_ret; reflexivity
    | apply returns_raise ].

Lemma executor_index (rnd : Entropy) (idx : nat) (segment : RouteSegment)
    (input : Q) (wallet : option string) (s : Simulator.t) (executor : Executor) :
  executors (segment_type segment) = Some executor ->
  segment_index (snd (executor rnd idx segment input wallet s)) = idx.
Proof.
  intros Hex.
  destruct (segment_type segment); simpl in Hex; try discriminate Hex;
    injection Hex as <-;
    apply try_except_index; try (intros; reflexivity).
  - unfold FXExecutor. returns_index.
  - returns_index.
  - returns_index.
  - destruct (String.eqb _ _); returns_index.
  - destruct (String.eqb _ _); returns_index.
  - returns_index.
Qed.

Lemma execute_segment_index (env : Env) (idx : nat) (d : SegmentDict.t)
    (a : Q) (wallet : option string) (svc : Service) :
  segment_index (snd (execute_segment env idx d a wallet svc)) = idx.
Proof.
  unfold execute_segment.
  destruct (to_segment d) as [e|segment]; [reflexivity|].
  destruct (executors (segment_type segment)) as [executor|] eqn:Ex;
    [|reflexivity].
  pose proof (executor_index (entropy env idx) idx segment a wallet
                (simulator svc) executor Ex) as Hidx.
  destruct (executor (entropy env idx) idx segment a wallet (simulator svc))
    as [sim r]. simpl in Hidx.
  destruct (Py.truthy (transaction_hash r)); exact Hidx.
Qed.

Lemma execute_segment_ledger (env : Env) (idx : nat) (d : SegmentDict.t)
    (a : Q) (wallet : option string) (svc1 svc2 : Service) :
  same_ledger svc1 svc2 ->
  snd (execute_segment env idx d a wallet svc1)
  = snd (execute_segment env idx d a wallet svc2)
  /\ same_ledger (fst (execute_segment env idx d a wallet svc1))
                 (fst (execute_segment env idx d a wallet svc2))
  /\ execution (fst (execute_segment env idx d a wallet svc1)) = execution svc1
  /\ execution_state (fst (execute_segment env idx d a wallet svc1))
     = execution_state svc1.
Proof.
  intros [Hsim Hids]. unfold execute_segment.
  destruct (to_segment d) as [e|segment]; [repeat split; assumption|].
  destruct (executors (segment_type segment)) as [executor|];
    [|repeat split; assumption].
  rewrite Hsim.
  destruct (executor (entropy env idx) idx segment a wallet (simulator svc2))
    as [sim r].
  destruct (Py.truthy (transaction_hash r)); simpl;
    repeat split; try reflexivity. now rewrite Hids. assumption.
Qed.


Lemma enumerate_from_split {A} (l : list A) :
  forall (i k : nat),
    (k < length l)%nat ->
    exists (d : A) (rest : list (nat * A)),
      combine (seq i (length l)) l
      = firstn k (combine (seq i (length l)) l) ++ ((i + k)%nat, d) :: rest
      /\ Forall (fun it => (fst it < i + k)%nat)
                (firstn k (combine (seq i (length l)) l)).
Proof.
  induction l as [|x l IH]; intros i k Hk; simpl in Hk; [lia|].
  destruct k as [|k]; simpl.
  - exists x, (combine (seq (S i) (length l)) l).
    rewrite Nat.add_0_r. split; [reflexivity|constructor].
  - assert (Hk' : (k < length l)%nat) by (apply Nat.succ_lt_mono; exact Hk).
    destruct (IH (S i) k Hk') as (d & rest & Heq & Hall).
    exists d, rest. split.
    + replace (i + S k)%nat with (S i + k)%nat by lia. now rewrite <- Heq.
    + constructor; [simpl; lia|].
      eapply Forall_impl; [exact Hall|]. simpl. intros; lia.
Qed.

Section Prefix.

Variables (env : Env) (request : RouteExecutionRequest)
          (enable_ai_rerouting : bool) (n k : nat).
Hypothesis Hquiet : forall i st, (i < k)%nat -> observed env i st = st.
Hypothesis Hsteady :
  forall i a, (i < k)%nat -> enable_ai_rerouting && should_reroute env i a = false.

(** While no other task interferes and no reroute is triggered, the loop
    executes the segments one after the other as long as they complete. *)
Lemma sequential_loop_prefix (pre : list (nat * SegmentDict.t)) :
  forall (rest : list (nat * SegmentDict.t)) (svc svc0 : Service) (l : Locals)
         (results : list SegmentExecutionResult),
    Forall (fun it => (fst it < k)%nat) pre ->
    execution_state svc = ExecutionState.RUNNING ->
    same_ledger svc svc0 ->
    completed_run env pre (amount_now l) (wallet_address l) svc0 = Some results ->
    exists svc' l',
      sequential_loop env request enable_ai_rerouting n (pre ++ rest) svc l
      = sequential_loop env request enable_ai_rerouting n rest svc' l'
      /\ execution_state svc' = ExecutionState.RUNNING
      /\ done l' = done l ++ results
      /\ amount_now l' = match last results with
                         | Some r => output_amount r
                         | None => amount_now l
                         end.
Proof.
  induction pre as [|[idx d] pre IH];
    intros rest svc svc0 l results Hpre Hstate Hledger Hrun.
  - simpl in Hrun. injection Hrun as <-. exists svc, l.
    rewrite app_nil_r. auto.
  - inversion Hpre as [|? ? Hidx Hpre']; subst. simpl in Hidx.
    simpl in Hrun.
    set (svc1 := with_state (observed env idx (execution_state svc)) svc).
    assert (Hstate1 : execution_state svc1 = ExecutionState.RUNNING)
      by (unfold svc1; simpl; now rewrite Hquiet).
    assert (Hledger1 : same_ledger svc1 svc0) by exact Hledger.
    destruct (execute_segment_ledger env idx d (amount_now l) (wallet_address l)
                svc1 svc0 Hledger1) as (Hres & Hledger2 & _ & Hstate2).
    destruct (execute_segment env idx d (amount_now l) (wallet_address l) svc0)
      as [svc0' r0] eqn:E0.
    destruct (SegmentExecutionStatus.eqb (status r0) SegmentExecutionStatus.FAILED)
      eqn:Efailed; [discriminate Hrun|].
    destruct (completed_run env pre (output_amount r0)
                (if Py.truthy (simulation_wallet_address r0)
                 then simulation_wallet_address r0 else wallet_address l) svc0')
      as [results'|] eqn:Erest; [|discriminate Hrun].
    simpl in Hrun. injection Hrun as <-.
    cbn [app sequential_loop]. fold svc1. rewrite Hstate1.
    unfold iteration.
    replace (enable_ai_rerouting && (0 <? idx)%nat
             && should_reroute env idx (amount_now l)) with false
      by (specialize (Hsteady idx (amount_now l) Hidx);
          destruct enable_ai_rerouting, (0 <? idx)%nat,
            (should_reroute env idx (amount_now l)); simpl in *; congruence).
    destruct (execute_segment env idx d (amount_now l) (wallet_address l) svc1)
      as [svc2 r] eqn:E1.
    simpl in Hres, Hledger2, Hstate2. subst r. rewrite Efailed.
    match goal with
    | |- exists svc' l', sequential_loop _ _ _ _ _ ?s ?loc = _ /\ _ =>
        destruct (IH rest s svc0' loc results' Hpre') as (svc' & l' & Hloop & Hst & Hdone & Hamount)
    end.
    + simpl. rewrite Hstate2. exact Hstate1.
    + exact Hledger2.
    + exact Erest.
    + exists svc', l'. split; [exact Hloop|]. split; [exact Hst|].
      split.
      * rewrite Hdone. simpl. rewrite <- List.app_assoc. reflexivity.
      * rewrite Hamount. simpl.
        destruct results' as [|r' results'']; [reflexivity|].
        rewrite last_cons_cons.
        destruct (last (r' :: results'')) eqn:El; [reflexivity|].
        apply last_None in El. discriminate El.
Qed.

End Prefix.


Lemma firstn_enumerate_from {A} (l : list A) :
  forall (i k : nat),
    (k <= length l)%nat ->
    map fst (firstn k (combine (seq i (length l)) l)) = seq i k.
Proof.
  induction l as [|x l IH]; intros i k Hk; simpl in Hk.
  - assert (k = 0)%nat as -> by lia. reflexivity.
  - destruct k as [|k]; [reflexivity|]. simpl. f_equal. apply IH. lia.
Qed.

Lemma completed_run_indices (env : Env) (items : list (nat * SegmentDict.t)) :
  forall (a : Q) (wallet : option string) (svc : Service)
         (results : list SegmentExecutionResult),
    completed_run env items a wallet svc = Some results ->
    map segment_index results = map fst items.
Proof.
  induction items as [|[idx d] items IH]; intros a wallet svc results; simpl.
  - now intros [= <-].
  - pose proof (execute_segment_index env idx d a wallet svc) as Hidx.
    destruct (execute_segment env idx d a wallet svc) as [svc' r]. simpl in Hidx.
    destruct (SegmentExecutionStatus.eqb (status r) SegmentExecutionStatus.FAILED);
      [discriminate|].
    destruct (completed_run env items (output_amount r) _ svc') as [rs|] eqn:E;
      [|discriminate].
    simpl. intros [= <-]. simpl. rewrite Hidx. f_equal. eapply IH, E.
Qed.

(** Once the execution state reads REROUTING and no other task resets it,
    the loop executes nothing more. *)
Lemma sequential_loop_rerouting (env : Env) (request : RouteExecutionRequest)
    (enable_ai_rerouting : bool) (n : nat) (items : list (nat * SegmentDict.t)) :
  forall (svc : Service) (l : Locals),
    (forall i, observed env i ExecutionState.REROUTING = ExecutionState.REROUTING) ->
    execution_state svc = ExecutionState.REROUTING ->
    exists svc',
      sequential_loop env request enable_ai_rerouting n items svc l
      = Some (svc', build_response svc' (route_segments l) (done l)
                                   (amount request) (amount_now l))
      /\ execution_state svc' = ExecutionState.REROUTING.
Proof.
  induction items as [|[idx d] items IH]; intros svc l Hobs Hstate; simpl.
  - rewrite Hstate, Hobs. eexists. split; reflexivity.
  - rewrite Hstate, Hobs. apply IH; [assumption|reflexivity].
Qed.


(** The shape of the groups: they partition the enumerated route in order,
    no group is empty or has more than three segments, and every segment
    of a group after its first is an FX or CRYPTO segment. *)
Lemma group_loop_shape (items : list (nat * SegmentDict.t)) :
  forall (groups : list (list (nat * SegmentDict.t)))
         (current : list (nat * SegmentDict.t)),
    let ok (g : list (nat * SegmentDict.t)) :=
      g <> [] /\ (length g <= 3)%nat
      /\ Forall (fun it => parallelizable (SegmentDict.segment_type (snd it)) = true)
                (tl g) in
    Forall ok groups -> (current = [] \/ ok current) ->
    concat (group_loop items groups current) = concat groups ++ current ++ items
    /\ Forall ok (group_loop items groups current).
Proof.
  induction items as [|[idx d] items IH]; intros groups current ok Hgroups Hcur;
    simpl.
  - destruct current as [|c current].
    + rewrite !app_nil_r. auto.
    + rewrite concat_app. simpl. rewrite !app_nil_r.
      split; [reflexivity|]. apply Forall_app. split; [assumption|].
      destruct Hcur as [Hcur|Hcur]; [discriminate Hcur|]. auto.
  - destruct (parallelizable (SegmentDict.segment_type d)
              && (length current <? 3)%nat) eqn:E.
    + apply andb_true_iff in E as [Ep El]. apply Nat.ltb_lt in El.
      destruct (IH groups (current ++ [(idx, d)])) as [Hc Hok]; [assumption| |].
      * right. split; [now destruct current|]. split.
        { rewrite length_app. simpl. lia. }
        destruct current as [|c current]; [constructor|]. simpl.
        apply Forall_app. split.
        { destruct Hcur as [Hcur|(_ & _ & Hcur)]; [discriminate Hcur|exact Hcur]. }
        constructor; [exact Ep|constructor].
      * split; [|exact Hok]. rewrite Hc. now rewrite <- !List.app_assoc.
    + destruct current as [|c current].
      * destruct (IH groups [(idx, d)]) as [Hc Hok]; [assumption| |].
        { right. split; [discriminate|]. split; [simpl; lia|constructor]. }
        split; [exact Hc|exact Hok].
      * destruct (IH (groups ++ [c :: current]) [(idx, d)]) as [Hc Hok].
        { apply Forall_app. split; [assumption|].
          destruct Hcur as [Hcur|Hcur]; [discriminate Hcur|]. auto. }
        { right. split; [discriminate|]. split; [simpl; lia|constructor]. }
        split; [|exact Hok]. rewrite Hc, concat_app. simpl.
        rewrite !app_nil_r. now rewrite <- !List.app_assoc.
Qed.

End Orchestration.

(** C6, what holds in sequential mode.  When the first [k] segments were
    executed undisturbed and completed, no reroute was triggered, and the
    check before segment [k] reads CANCELLING, the final result has status
    CANCELLED, its per-segment results are those of the first [k] segments
    and of no other, total_fees is the sum of their fees and final_amount is
    the output of the last of them. *)
Theorem cancellation_partial_state (env : Orchestrator.Env) (sim : Simulator.t)
    (request : Orchestrator.RouteExecutionRequest) (route : list SegmentDict.t)
    (enable_ai_rerouting : bool) (k : nat)
    (results : list SegmentExecutionResult) :
  (0 < k < length route)%nat ->
  (forall i st, (i < k)%nat -> Orchestrator.observed env i st = st) ->
  Orchestrator.observed env k ExecutionState.RUNNING = ExecutionState.CANCELLING ->
  (forall i a, (i < k)%nat ->
     enable_ai_rerouting && Orchestrator.should_reroute env i a = false) ->
  completed_run env (firstn k (Orchestrator.enumerate route))
                (Orchestrator.amount request) None
                (Orchestrator.start sim request route) = Some results ->
  exists svc response last_result,
    Orchestrator.execute_route env sim request route false enable_ai_rerouting
    = Some (svc, response)
    /\ Orchestrator.response_status response = ExecutionStatus.CANCELLED
    /\ Orchestrator.response_segment_executions response = results
    /\ map segment_index results = seq 0 k
    /\ Orchestrator.total_fees response = Py.sum (map fees_paid results)
    /\ last results = Some last_result
    /\ Orchestrator.final_amount response = output_amount last_result.
Proof.
  intros [Hk0 Hk] Hquiet Hcancel Hsteady Hrun.
  assert (Hidx : map segment_index results = seq 0 k).
  { rewrite (completed_run_indices _ _ _ _ _ _ Hrun).
    apply firstn_enumerate_from. lia. }
  destruct (last results) as [last_result|] eqn:Hlast.
  2:{ apply last_None in Hlast. subst results. destruct k; [lia|discriminate Hidx]. }
  destruct (enumerate_from_split route 0 k Hk) as (d & rest & Hsplit & Hpre).
  unfold Orchestrator.execute_route, Orchestrator.execute_sequential.
  unfold Orchestrator.enumerate in *. rewrite Hsplit.
  destruct (sequential_loop_prefix env request enable_ai_rerouting (length route) k
              Hquiet Hsteady _ (((0 + k)%nat, d) :: rest)
              (Orchestrator.start sim request route)
              (Orchestrator.start sim request route)
              (Orchestrator.mkLocals route [] (Orchestrator.amount request) None)
              results Hpre eq_refl (conj eq_refl eq_refl) Hrun)
    as (svc' & l' & Hloop & Hstate & Hdone & Hamount).
  rewrite Hloop. simpl. rewrite Hstate, Hcancel. simpl.
  eexists _, _, last_result. split; [reflexivity|].
  unfold Orchestrator.handle_cancellation. simpl.
  simpl in Hdone. rewrite Hdone, Hlast. auto 10.
Qed.

(** C6 in sequential mode on the three-leg route, cancelled while the first
    leg is executed: the result is CANCELLED with the first leg's fee of 1
    and its output of 919.08, and with one per-segment result. *)
Lemma cancellation_partial_state_witness :
  exists svc response,
    Orchestrator.execute_route (Examples.cancelled_at 1) Simulator.init
                               Examples.request Examples.route false true
    = Some (svc, response)
    /\ Orchestrator.response_status response = ExecutionStatus.CANCELLED
    /\ map segment_index (Orchestrator.response_segment_executions response) = [0%nat]
    /\ Orchestrator.total_fees response == 1
    /\ Orchestrator.final_amount response == 919.08.
Proof.
  assert (exists r,
             completed_run (Examples.cancelled_at 1)
               (firstn 1 (Orchestrator.enumerate Examples.route))
               (Orchestrator.amount Examples.request) None
               (Orchestrator.start Simulator.init Examples.request Examples.route)
             = Some [r]
             /\ fees_paid r == 1 /\ output_amount r == 919.08)
    as (r & Hrun & Hfees & Hout).
  { eexists. split; [vm_compute; reflexivity|].
    split; vm_compute; reflexivity. }
  assert (Hk : (0 < 1 < length Examples.route)%nat) by (simpl; lia).
  assert (Hquiet : forall i st, (i < 1)%nat ->
                     Orchestrator.observed (Examples.cancelled_at 1) i st = st).
  { intros [|i] st Hi; [reflexivity|lia]. }
  assert (Hsteady : forall i a, (i < 1)%nat ->
                      true && Orchestrator.should_reroute (Examples.cancelled_at 1) i a
                      = false) by reflexivity.
  destruct (cancellation_partial_state (Examples.cancelled_at 1) Simulator.init
              Examples.request Examples.route true 1 [r] Hk Hquiet eq_refl
              Hsteady Hrun)
    as (svc & response & last_result & Hexec & Hstatus & Hresults & Hidx & Htotal
        & Hlast & Hfinal).
  exists svc, response. split; [exact Hexec|]. split; [exact Hstatus|].
  split; [rewrite Hresults; exact Hidx|].
  injection Hlast as <-. rewrite Htotal, Hfinal. split.
  - unfold Py.sum. simpl. rewrite Hfees. reflexivity.
  - exact Hout.
Defined.

(** C6, the code at the failing input: in parallel mode the state is not
    read between the groups.  A cancellation requested while the first
    group runs still lets the second group execute: the result is CANCELLED
    with all three per-segment results and the fees of all three. *)
Lemma parallel_execution_ignores_cancellation :
  exists svc response,
    Orchestrator.execute_route (Examples.cancelled_at 1) Simulator.init
                               Examples.request Examples.bridged_route true true
    = Some (svc, response)
    /\ map (map fst) (Orchestrator.group_parallel_segments Examples.bridged_route)
       = [[0%nat]; [1%nat; 2%nat]]
    /\ Orchestrator.response_status response = ExecutionStatus.CANCELLED
    /\ map segment_index (Orchestrator.response_segment_executions response)
       = [0%nat; 1%nat; 2%nat]
    /\ map status (Orchestrator.response_segment_executions response)
       = [SegmentExecutionStatus.COMPLETED; SegmentExecutionStatus.COMPLETED;
          SegmentExecutionStatus.COMPLETED]
    /\ Orchestrator.total_fees response == 3.
Proof.
  do 2 eexists. split; [vm_compute; reflexivity|].
  repeat split; vm_compute; reflexivity.
Qed.

(** C6 in sequential mode, when the segment in flight fails: the
    cancellation is requested while the second leg is executed, the second
    leg fails on a rate of [None], and the result is FAILED, not CANCELLED,
    with both per-segment results. *)
Lemma cancellation_during_failing_segment :
  let failing :=
    SegmentDict.mk "fx" "EUR" "GBP" None None (Some "provider"%string)
                   (mkCost (Num 0.1) (Num 0) PyNone)
                   (mkLatency (Some 5%Z) (Some 10%Z)) 0.95 in
  let route :=
    [Examples.dict_of "fx" "USD" "EUR" 0.1 0.92; failing;
     Examples.dict_of "fx" "GBP" "JPY" 0.1 190] in
  exists svc response,
    Orchestrator.execute_route (Examples.cancelled_at 2) Simulator.init
                               Examples.request route false true
    = Some (svc, response)
    /\ Orchestrator.response_status response = ExecutionStatus.FAILED
    /\ map segment_index (Orchestrator.response_segment_executions response)
       = [0%nat; 1%nat]
    /\ map status (Orchestrator.response_segment_executions response)
       = [SegmentExecutionStatus.COMPLETED; SegmentExecutionStatus.FAILED].
Proof.
  do 2 eexists. split; [vm_compute; reflexivity|].
  repeat split; vm_compute; reflexivity.
Qed.

(** C5, the code at the failing input: three FX legs, AI rerouting enabled,
    the trigger fires at segment 1 and the routing service answers with the
    alternative EUR to JPY.  The route of the execution becomes the
    alternative, but only segment 0 of the old route is ever executed: the
    state stays REROUTING, every later iteration is skipped, and the result
    is COMPLETED with the 919.08 EUR that segment 0 produced. *)
Lemma reroute_ends_the_execution :
  exists svc response,
    Orchestrator.execute_route (Examples.quiet (Nat.eqb 1)) Simulator.init
                               Examples.request Examples.route false true
    = Some (svc, response)
    /\ Orchestrator.response_route response = Examples.alternative
    /\ map (fun r => (segment_index r, result_from_asset r, result_to_asset r))
           (Orchestrator.response_segment_executions response)
       = [(0%nat, "USD"%string, "EUR"%string)]
    /\ Orchestrator.response_status response = ExecutionStatus.COMPLETED
    /\ Orchestrator.final_amount response == 919.08
    /\ Orchestrator.execution_state svc = ExecutionState.REROUTING.
Proof.
  do 2 eexists. split; [vm_compute; reflexivity|].
  repeat split; vm_compute; reflexivity.
Qed.

(** C8, the code at the failing input: a bridge segment followed by an FX
    segment.  The bridge opens a run and the FX segment joins it. *)
Lemma group_parallel_segments_joins_bridge :
  let bridge := Examples.dict_of "bridge" "USDC" "USDC" 0.1 1 in
  let conversion := Examples.dict_of "fx" "USDC" "EUR" 0.1 0.92 in
  Orchestrator.group_parallel_segments [bridge; conversion]
  = [[(0%nat, bridge); (1%nat, conversion)]].
Proof. reflexivity. Qed.

(** X28. The groups of [_group_parallel_segments] partition the route in
    order, none is empty or has more than three segments, and only the
    first segment of a group can be other than FX or CRYPTO. *)
Lemma group_parallel_segments_shape (route : list SegmentDict.t) :
  concat (Orchestrator.group_parallel_segments route) = Orchestrator.enumerate route
  /\ Forall (fun g =>
               g <> [] /\ (length g <= 3)%nat
               /\ Forall (fun it => Orchestrator.parallelizable
                                      (SegmentDict.segment_type (snd it)) = true)
                         (tl g))
            (Orchestrator.group_parallel_segments route).
Proof.
  unfold Orchestrator.group_parallel_segments.
  destruct (group_loop_shape (Orchestrator.enumerate route) [] [])
    as [Hconcat Hok]; [constructor|now left|].
  split; [exact Hconcat|exact Hok].
Qed.

(** C9, the code at the failing input: in parallel mode the first run of
    the bridged route is the FX leg alone, whose output is 919.08; the
    segments of the second run are still executed on 1000, and the final
    amount is 1000. *)
Lemma parallel_amount_keeps_input :
  exists svc response,
    Orchestrator.execute_route (Examples.quiet (fun _ => false)) Simulator.init
                               Examples.request Examples.bridged_route true true
    = Some (svc, response)
    /\ map (map fst) (Orchestrator.group_parallel_segments Examples.bridged_route)
       = [[0%nat]; [1%nat; 2%nat]]
    /\ Forall2 (fun r expected =>
                  segment_index r = fst (fst expected)
                  /\ input_amount r == snd (fst expected)
                  /\ output_amount r == snd expected)
               (Orchestrator.response_segment_executions response)
               [(0%nat, 1000, 919.08); (1%nat, 1000, 999); (2%nat, 1000, 849.15)]
    /\ Orchestrator.final_amount response == 1000.
Proof.
  do 2 eexists. split; [vm_compute; reflexivity|].
  split; [reflexivity|]. split; [|vm_compute; reflexivity].
  repeat constructor; vm_compute; reflexivity.
Qed.
(* ===================================================================== *)
(** * Part III: further properties of the code *)
(* ===================================================================== *)

(** ** The route graph *)

Lemma get_segments_add_segment (g : Graph.RouteGraph) (s : RouteSegment)
    (a b : string) :
  Graph.get_segments (Graph.add_segment g s) a b
  = Graph.get_segments g a b
    ++ (if bool_decide (Graph.endpoints s = (a, b)) then [s] else []).
Proof.
  unfold Graph.add_segment, Graph.get_segments.
  destruct (Graph.endpoints s) as [f t]. simpl.
  destruct (string_dec f a) as [->|Hf].
  - rewrite lookup_update_same. simpl.
    destruct (string_dec t b) as [->|Ht].
    + rewrite lookup_update_same. simpl.
      rewrite bool_decide_eq_true_2 by reflexivity. reflexivity.
    + rewrite lookup_update_other by assumption.
      rewrite bool_decide_eq_false_2 by congruence. now rewrite app_nil_r.
  - rewrite lookup_update_other by assumption.
    rewrite bool_decide_eq_false_2 by congruence. now rewrite app_nil_r.
Qed.

Lemma fold_add_segment_get_segments (segs : list RouteSegment) :
  forall (g : Graph.RouteGraph) (a b : string),
    Graph.get_segments (fold_left Graph.add_segment segs g) a b
    = Graph.get_segments g a b
      ++ List.filter (fun s => bool_decide (Graph.endpoints s = (a, b))) segs.
Proof.
  induction segs as [|s segs IH]; intros g a b; simpl.
  - now rewrite app_nil_r.
  - rewrite IH, get_segments_add_segment, <- List.app_assoc.
    now destruct (bool_decide (Graph.endpoints s = (a, b))).
Qed.

(** X1. Between two nodes, the graph that [build_graph] builds from a list
    of segments holds exactly the segments of the list whose two endpoint
    nodes are these, in the order of the list; so [get_segments] answers
    with the empty list for a pair of nodes that no segment connects. *)
Theorem build_graph_get_segments (segs : list RouteSegment) (a b : string) :
  Graph.get_segments (Graph.build_graph segs) a b
  = List.filter (fun s => bool_decide (Graph.endpoints s = (a, b))) segs.
Proof.
  unfold Graph.build_graph. now rewrite fold_add_segment_get_segments.
Qed.

Lemma fold_add_segment_nodes (segs : list RouteSegment) :
  forall (g : Graph.RouteGraph),
    Graph.segments (fold_left Graph.add_segment segs g) = Graph.segments g ++ segs
    /\ forall n,
         n ∈ Graph.nodes (fold_left Graph.add_segment segs g)
         <-> n ∈ Graph.nodes g
             \/ exists s, In s segs
                          /\ (fst (Graph.endpoints s) = n
                              \/ snd (Graph.endpoints s) = n).
Proof.
  induction segs as [|s segs IH]; intros g; simpl.
  - split; [now rewrite app_nil_r|]. intros n. split; [auto|].
    intros [H|(s & [] & _)]. exact H.
  - destruct (IH (Graph.add_segment g s)) as [Hsegs Hnodes]. split.
    + rewrite Hsegs. unfold Graph.add_segment.
      destruct (Graph.endpoints s). simpl. now rewrite <- List.app_assoc.
    + intros n. rewrite Hnodes. unfold Graph.add_segment.
      destruct (Graph.endpoints s) as [f t] eqn:E. simpl.
      rewrite !elem_of_union, !elem_of_singleton. split.
      * intros [[->|[->|H]]|(s' & Hs' & H)]; eauto.
        -- right. exists s. rewrite E. auto.
        -- right. exists s. rewrite E. auto.
      * intros [H|(s' & [<-|Hs'] & H)]; eauto.
        rewrite E in H. simpl in H. destruct H as [<-|<-]; auto.
Qed.

(** X2. [build_graph] keeps the list of segments as it is given, and the
    nodes of the built graph are exactly the endpoint nodes of its
    segments. *)
Theorem build_graph_nodes (segs : list RouteSegment) :
  Graph.segments (Graph.build_graph segs) = segs
  /\ forall n : string,
       n ∈ Graph.nodes (Graph.build_graph segs)
       <-> exists s, In s segs
                     /\ (fst (Graph.endpoints s) = n \/ snd (Graph.endpoints s) = n).
Proof.
  unfold Graph.build_graph.
  destruct (fold_add_segment_nodes segs Graph.empty) as [Hsegs Hnodes].
  split; [exact Hsegs|]. intros n. rewrite Hnodes. simpl. split.
  - intros [H|H]; [now apply not_elem_of_empty in H|exact H].
  - auto.
Qed.

Lemma collect_elem {A B} (f : A -> option (list B)) (l : list A) (res r : list B)
    (a : A) (b : B) :
  Graph.collect f l = Some res -> In a l -> f a = Some r -> In b r -> In b res.
Proof.
  revert res. induction l as [|a0 l IH]; simpl; intros res Hres Ha Hr Hb;
    [destruct Ha|].
  destruct (f a0) as [x|] eqn:E0; [|discriminate].
  destruct (Graph.collect f l) as [y|]; [|discriminate].
  injection Hres as <-. apply in_app_iff. destruct Ha as [->|Ha].
  - left. congruence.
  - right. eapply IH; eauto.
Qed.

Lemma collect_defined {A B} (f : A -> option (list B)) (l : list A) (res : list B)
    (a : A) :
  Graph.collect f l = Some res -> In a l -> exists r, f a = Some r.
Proof.
  revert res. induction l as [|a0 l IH]; simpl; intros res Hres Ha; [destruct Ha|].
  destruct (f a0) as [x|] eqn:E0; [|discriminate].
  destruct (Graph.collect f l) as [y|]; [|discriminate].
  destruct Ha as [->|Ha]; eauto.
Qed.

Lemma lookup_default_In {V} (k : string) (d : list (string * list V)) (v : V) :
  In v (default [] (Graph.lookup k d)) ->
  exists l, In (k, l) d /\ In v l.
Proof.
  destruct (Graph.lookup k d) as [l|] eqn:E; simpl; [|intros []].
  intros Hv. exists l. split; [now apply lookup_In|exact Hv].
Qed.

(** A segment of the list is stored in the neighbours of its source node,
    under its target node. *)
Lemma build_graph_neighbors (segs : list RouteSegment) (s : RouteSegment) :
  In s segs ->
  exists l,
    In (snd (Graph.endpoints s), l)
       (Graph.get_neighbors (Graph.build_graph segs) (fst (Graph.endpoints s)))
    /\ In s l.
Proof.
  intros Hs.
  assert (H : In s (Graph.get_segments (Graph.build_graph segs)
                      (fst (Graph.endpoints s)) (snd (Graph.endpoints s)))).
  { unfold Graph.build_graph. rewrite fold_add_segment_get_segments. simpl.
    apply filter_In. split; [exact Hs|].
    apply bool_decide_eq_true_2. now destruct (Graph.endpoints s). }
  unfold Graph.get_segments in H. apply lookup_default_In in H. exact H.
Qed.

Section Exhaustive.

Variables (g : Graph.RouteGraph) (end_nodes : list string) (max_hops : Z).
Variable segs : list RouteSegment.
Hypothesis Hstored :
  forall s, In s segs ->
    exists l, In (snd (Graph.endpoints s), l)
                 (Graph.get_neighbors g (fst (Graph.endpoints s)))
              /\ In s l.

(** The search from [current] records every continuation [q] of the path
    that is a walk over stored segments to a first destination node, visits
    no node twice nor a visited one, and stays within the bound. *)
Lemma dfs_complete (q : list RouteSegment) :
  forall (fuel : nat) (current : string) (path : list RouteSegment) (depth : Z)
         (visited : gset string) (res : list (list RouteSegment)),
    Graph.dfs fuel g end_nodes max_hops current path depth visited = Some res ->
    Forall (fun s => In s segs) q ->
    walk_from current q ->
    stops_at_first_match end_nodes current q ->
    NoDup (path_nodes current q) ->
    (forall n, In n (path_nodes current q) -> n ∉ visited) ->
    (depth + Z.of_nat (length q) <= max_hops)%Z ->
    In (path ++ q) res.
Proof.
  induction q as [|s q IH];
    intros fuel current path depth visited res Hres Hsegs Hwalk Hends Hnd Hvis Hlen;
    (destruct fuel as [|fuel]; simpl in Hres; [discriminate|]).
  - destruct Hends as (prior & dest & Hnodes & Hprior & Hdest).
    unfold path_nodes in Hnodes. simpl in Hnodes.
    destruct prior as [|x prior]; simpl in Hnodes.
    2:{ injection Hnodes as _ Hnodes. now destruct prior. }
    injection Hnodes as <-.
    simpl in Hlen.
    destruct (max_hops <? depth)%Z eqn:Eb; [apply Z.ltb_lt in Eb; lia|].
    rewrite Hdest in Hres. injection Hres as <-. rewrite app_nil_r. now left.
  - destruct Hends as (prior & dest & Hnodes & Hprior & Hdest).
    unfold path_nodes in Hnodes. simpl in Hnodes.
    destruct prior as [|x prior]; simpl in Hnodes.
    { injection Hnodes as _ Hnodes. discriminate Hnodes. }
    injection Hnodes as <- Hnodes.
    inversion Hprior as [|? ? Hcur Hprior']; subst.
    simpl in Hwalk. destruct Hwalk as [Hsrc Hwalk].
    inversion Hsegs as [|? ? Hs Hsegs']; subst.
    simpl in Hlen.
    destruct (max_hops <? depth)%Z eqn:Eb; [apply Z.ltb_lt in Eb; lia|].
    rewrite Hcur in Hres.
    assert (Hnv : fst (Graph.endpoints s) ∉ visited)
      by (apply Hvis; unfold path_nodes; simpl; auto).
    rewrite bool_decide_eq_false_2 in Hres by exact Hnv.
    destruct (Hstored s Hs) as (l & Hl & Hsl).
    unfold path_nodes in Hnd. simpl in Hnd. apply NoDup_cons in Hnd as [Hfresh Hnd].
    destruct (collect_defined _ _ _ _ Hres Hl) as [r1 E1].
    destruct (collect_defined _ _ _ _ E1 Hsl) as [r2 E2].
    eapply (collect_elem _ _ _ r1 (snd (Graph.endpoints s), l)); eauto.
    eapply (collect_elem _ _ _ r2 s); eauto.
    replace (path ++ s :: q) with ((path ++ [s]) ++ q)
      by (rewrite <- List.app_assoc; reflexivity).
    rewrite next_node_endpoints in E2.
    eapply (IH _ _ _ _ _ _ E2); auto.
    + exists prior, dest. auto.
    + intros n Hn. rewrite elem_of_union, elem_of_singleton.
      intros [->|Hn'].
      * apply Hfresh. apply list_elem_of_In. exact Hn.
      * apply (Hvis n); [|exact Hn']. unfold path_nodes. simpl. right. exact Hn.
    + lia.
Qed.

End Exhaustive.

(** X3. [find_paths] is exhaustive relative to its own destination test.
    Every walk over segments of the built graph that starts at a source node
    of the query which is a node of the graph, repeats no node, has at most
    [max_hops] segments, and stops at the first of its nodes that passes the
    test of the search (a node that is an end node of the query, or begins
    with an end node followed by ["@"]: any network of the destination
    asset), is one of the returned paths.  A walk that passes such a node
    before its last node is not covered. *)
Theorem find_paths_complete (segs : list RouteSegment)
    (from_asset to_asset : string) (from_network to_network : option string)
    (max_hops : Z) (start : string) (p : list RouteSegment) :
  In start (Graph.candidates from_asset from_network) ->
  start ∈ Graph.nodes (Graph.build_graph segs) ->
  Forall (fun s => In s segs) p ->
  walk_from start p ->
  NoDup (path_nodes start p) ->
  stops_at_first_match (Graph.candidates to_asset to_network) start p ->
  (Z.of_nat (length p) <= max_hops)%Z ->
  exists paths,
    Graph.find_paths (Graph.build_graph segs) from_asset to_asset
                     from_network to_network max_hops = Some paths
    /\ In p paths.
Proof.
  intros Hstart Hnode Hsegs Hwalk Hnd Hends Hlen.
  destruct (find_paths_sound segs from_asset to_asset from_network to_network
                             max_hops) as (paths & Hpaths & _).
  exists paths. split; [exact Hpaths|].
  unfold Graph.find_paths, Graph.find_paths_fuel in Hpaths.
  destruct (collect_defined _ _ _ _ Hpaths Hstart) as [r Hr].
  eapply collect_elem; eauto. cbv beta in Hr.
  rewrite bool_decide_eq_true_2 in Hr by exact Hnode.
  change p with ([] ++ p).
  eapply (dfs_complete _ _ _ segs (build_graph_neighbors segs) p _ _ _ _ _ _ Hr);
    auto.
  intros n _. apply not_elem_of_empty.
Qed.

Section Stops.

Variables (g : Graph.RouteGraph) (end_nodes : list string) (max_hops : Z)
          (start : string) (P : RouteSegment -> Prop).
Hypothesis Hg : adjacency_all P (Graph.graph g).

(** Every path that the search records consists of stored segments and
    passes no destination node before its last node. *)
Lemma dfs_stops (fuel : nat) :
  forall (current : string) (path : list RouteSegment) (depth : Z)
         (visited : gset string) (prior : list string)
         (res : list (list RouteSegment)),
    Graph.dfs fuel g end_nodes max_hops current path depth visited = Some res ->
    Forall P path ->
    path_nodes start path = prior ++ [current] ->
    Forall (fun n => Graph.reached end_nodes n = false) prior ->
    forall p, In p res ->
      Forall P p /\ stops_at_first_match end_nodes start p.
Proof.
  induction fuel as [|fuel IH]; intros current path depth visited prior res;
    simpl; [discriminate|].
  intros Hres Hpath Hnodes Hprior p Hp.
  destruct (max_hops <? depth)%Z; [injection Hres as <-; destruct Hp|].
  destruct (Graph.reached end_nodes current) eqn:Ereached.
  { injection Hres as <-. destruct Hp as [<-|[]].
    split; [exact Hpath|]. exists prior, current. auto. }
  destruct (bool_decide (current ∈ visited)); [injection Hres as <-; destruct Hp|].
  destruct (collect_In _ _ _ _ Hres Hp) as ([m segs] & r1 & Hin1 & Hr1 & Hp1).
  destruct (collect_In _ _ _ _ Hr1 Hp1) as (s & r2 & Hin2 & Hr2 & Hp2).
  assert (Hs : P s).
  { unfold Graph.get_neighbors in Hin1.
    destruct (Graph.lookup current (Graph.graph g)) as [nbrs|] eqn:El;
      [|destruct Hin1].
    apply lookup_In in El. eapply Hg; eauto. }
  eapply (IH _ _ _ _ (prior ++ [current]) _ Hr2); auto.
  - apply Forall_app. split; [exact Hpath|]. constructor; [exact Hs|constructor].
  - now rewrite path_nodes_snoc, Hnodes, next_node_endpoints.
  - apply Forall_app. split; [exact Hprior|]. constructor; [exact Ereached|constructor].
Qed.

End Stops.

Lemma add_segment_all (P : RouteSegment -> Prop) (g : Graph.RouteGraph)
    (s : RouteSegment) :
  P s -> adjacency_all P (Graph.graph g) ->
  adjacency_all P (Graph.graph (Graph.add_segment g s)).
Proof.
  intros HP Hg n nbrs m segs s' Hn Hm Hs.
  unfold Graph.add_segment in Hn.
  destruct (Graph.endpoints s) as [from_node to_node] eqn:E. simpl in Hn.
  apply In_update in Hn as [Hn|(-> & nb0 & -> & Hnb0)]; [eauto|].
  apply In_update in Hm as [Hm|(-> & l0 & -> & Hl0)].
  - destruct Hnb0 as [->|Hnb0]; [destruct Hm|eauto].
  - apply in_app_iff in Hs as [Hs|[<-|[]]]; [|exact HP].
    destruct Hl0 as [->|Hl0]; [destruct Hs|].
    destruct Hnb0 as [->|Hnb0]; [destruct Hl0|eauto].
Qed.

Lemma fold_add_segment_all (P : RouteSegment -> Prop) (segs : list RouteSegment) :
  forall g : Graph.RouteGraph,
    (forall s, In s segs -> P s) ->
    adjacency_all P (Graph.graph g) ->
    adjacency_all P (Graph.graph (fold_left Graph.add_segment segs g)).
Proof.
  induction segs as [|s segs IH]; intros g Hall Hg; simpl; auto.
  apply IH.
  - intros s' Hs'. apply Hall. now right.
  - apply add_segment_all; [apply Hall; now left|exact Hg].
Qed.

(** X4. Every path that [find_paths] returns consists of segments of the
    built graph and is a walk from a source node of the query that is a node
    of the graph; the last node of the walk passes the destination test of
    the search (it is an end node of the query, or begins with an end node
    followed by ["@"]) and no node before it does: the search never goes on
    through a node that passes the test, whatever network was asked for. *)
Theorem find_paths_stops_at_destination (segs : list RouteSegment)
    (from_asset to_asset : string) (from_network to_network : option string)
    (max_hops : Z) :
  exists paths,
    Graph.find_paths (Graph.build_graph segs) from_asset to_asset
                     from_network to_network max_hops = Some paths
    /\ Forall (fun p =>
                 Forall (fun s => In s segs) p
                 /\ exists start,
                      In start (Graph.candidates from_asset from_network)
                      /\ start ∈ Graph.nodes (Graph.build_graph segs)
                      /\ walk_from start p
                      /\ stops_at_first_match
                           (Graph.candidates to_asset to_network) start p)
              paths.
Proof.
  destruct (find_paths_sound segs from_asset to_asset from_network to_network
                             max_hops) as (paths & Hpaths & _).
  exists paths. split; [exact Hpaths|].
  apply Forall_forall. intros p Hp. apply list_elem_of_In in Hp.
  unfold Graph.find_paths, Graph.find_paths_fuel in Hpaths.
  destruct (collect_In _ _ _ _ Hpaths Hp) as (start & r & Hstart & Hr & Hpr).
  destruct (bool_decide (start ∈ Graph.nodes (Graph.build_graph segs))) eqn:En;
    [|injection Hr as <-; destruct Hpr].
  apply bool_decide_eq_true in En.
  assert (Hg : adjacency_all (fun s => In s segs)
                 (Graph.graph (Graph.build_graph segs))).
  { apply fold_add_segment_all; [auto|]. intros ? ? ? ? ? []. }
  destruct (dfs_stops _ _ _ start _ Hg _ _ _ _ _ [] _ Hr) with (p := p)
    as [Hall Hends]; auto.
  assert (Hfound : found (Graph.candidates to_asset to_network) max_hops start p).
  { eapply (dfs_sound _ _ max_hops start (build_graph_filed segs) _ _ _ _ _ []);
      eauto; simpl; try reflexivity.
    - intros x. split; [intros Hx; now apply not_elem_of_empty in Hx|intros []].
    - constructor.
    - intros x []. }
  destruct Hfound as (Hwalk & _).
  split; [exact Hall|]. exists start. auto.
Qed.

(** X5. [find_paths] returns the empty list, without raising, when
    [max_hops] is negative or when no source node of the query is a node of
    the graph. *)
Theorem find_paths_no_start (g : Graph.RouteGraph)
    (from_asset to_asset : string) (from_network to_network : option string)
    (max_hops : Z) :
  (max_hops < 0)%Z
  \/ (forall start, In start (Graph.candidates from_asset from_network) ->
                    start ∉ Graph.nodes g) ->
  Graph.find_paths g from_asset to_asset from_network to_network max_hops
  = Some [].
Proof.
  intros H. unfold Graph.find_paths, Graph.find_paths_fuel.
  assert (Hnone : forall start,
             In start (Graph.candidates from_asset from_network) ->
             (if bool_decide (start ∈ Graph.nodes g)
              then Graph.dfs (Z.to_nat max_hops + 2) g
                     (Graph.candidates to_asset to_network) max_hops start [] 0%Z ∅
              else Some []) = Some []).
  { intros start Hstart. destruct H as [H|H].
    - destruct (bool_decide (start ∈ Graph.nodes g)); [|reflexivity].
      rewrite Nat.add_comm. simpl.
      apply Z.ltb_lt in H. now rewrite H.
    - rewrite bool_decide_eq_false_2; [reflexivity|]. now apply H. }
  revert Hnone. generalize (Graph.candidates from_asset from_network).
  intros l. induction l as [|x l IH]; intros Hnone; simpl; [reflexivity|].
  rewrite (Hnone x) by now left. rewrite IH; [reflexivity|].
  intros start Hs. apply Hnone. now right.
Qed.

Lemma find_paths_no_start_witness :
  Graph.find_paths (Graph.build_graph [Examples.wire]) "GBP" "EUR" None None 5
  = Some [].
Proof.
  apply find_paths_no_start. right. intros start [<-|[]]. vm_compute.
  discriminate.
Defined.

Lemma find_paths_complete_witness :
  let usd_eur := Cases.leg "USD" "EUR" 0.92 in
  let eur_gbp := Cases.leg "EUR" "GBP" 0.85 in
  exists paths,
    Graph.find_paths (Graph.build_graph [usd_eur; eur_gbp]) "USD" "GBP" None None 5
    = Some paths
    /\ In [usd_eur; eur_gbp] paths.
Proof.
  intros usd_eur eur_gbp.
  apply (find_paths_complete [usd_eur; eur_gbp] "USD" "GBP" None None 5 "USD").
  - left. reflexivity.
  - vm_compute. reflexivity.
  - constructor; [simpl; auto|]. constructor; [simpl; auto|]. constructor.
  - simpl. auto.
  - apply (bool_decide_unpack _). vm_compute. exact I.
  - exists ["USD"; "EUR"]%string, "GBP"%string. repeat split.
    repeat constructor.
  - simpl. lia.
Defined.

(** ** Ranking, path metrics and the fallback search *)

Section Sorting.

Context {A : Type} (key : A -> Q).

Lemma insert_by_perm (x : A) (l : list A) :
  Permutation (Ranking.insert_by key x l) (x :: l).
Proof.
  induction l as [|y l IH]; simpl; [reflexivity|].
  destruct (Py.lt (key y) (key x)); [|reflexivity].
  rewrite IH. apply perm_swap.
Qed.

Lemma sorted_by_perm (l : list A) : Permutation (Ranking.sorted_by key l) l.
Proof.
  induction l as [|x l IH]; simpl; [reflexivity|].
  rewrite insert_by_perm. now rewrite IH.
Qed.

Lemma insert_by_sorted (x : A) (l : list A) :
  StronglySorted (fun a b => key a <= key b) l ->
  StronglySorted (fun a b => key a <= key b) (Ranking.insert_by key x l).
Proof.
  induction l as [|y l IH]; simpl; intros Hs.
  - repeat constructor.
  - inversion Hs as [|? ? Hl Hy]; subst.
    destruct (Py.lt (key y) (key x)) eqn:E.
    + apply lt_true in E. constructor; [now apply IH|].
      apply Forall_forall. intros z Hz. apply list_elem_of_In in Hz.
      apply (Permutation_in _ (insert_by_perm x l)) in Hz.
      destruct Hz as [<-|Hz]; [lra|].
      rewrite Forall_forall in Hy. apply Hy. now apply list_elem_of_In.
    + apply lt_false in E. constructor; [exact Hs|].
      constructor; [exact E|].
      eapply Forall_impl; [exact Hy|]. simpl. intros z Hz. lra.
Qed.

Lemma sorted_by_sorted (l : list A) :
  StronglySorted (fun a b => key a <= key b) (Ranking.sorted_by key l).
Proof.
  induction l as [|x l IH]; simpl; [constructor|].
  now apply insert_by_sorted.
Qed.

(** The head of the sorted list is the leftmost element with the least
    key. *)
Lemma sorted_by_head (l : list A) :
  l <> [] ->
  exists i e tail,
    Ranking.sorted_by key l = e :: tail /\ leftmost_least key l i e.
Proof.
  induction l as [|x l IH]; [congruence|intros _].
  destruct l as [|y l].
  - exists 0%nat, x, []. split; [reflexivity|].
    split; [reflexivity|]. split; [intros j e' Hj; lia|].
    intros e' [<-|[]]. lra.
  - destruct IH as (i & e & tail & Hsorted & Hnth & Hbefore & Hall);
      [discriminate|].
    change (Ranking.sorted_by key (x :: y :: l))
      with (Ranking.insert_by key x (Ranking.sorted_by key (y :: l))).
    rewrite Hsorted. simpl.
    destruct (Py.lt (key e) (key x)) eqn:E.
    + apply lt_true in E. exists (S i), e, (Ranking.insert_by key x tail).
      split; [reflexivity|]. split; [exact Hnth|]. split.
      * intros [|j] e' Hj Hj'; simpl in Hj'.
        -- injection Hj' as <-. exact E.
        -- apply (Hbefore j); [lia|exact Hj'].
      * intros e' [<-|He']; [lra|auto].
    + apply lt_false in E. exists 0%nat, x, (e :: tail).
      split; [reflexivity|]. split; [reflexivity|].
      split; [intros j e' Hj; lia|].
      intros e' [<-|He']; [lra|]. specialize (Hall e' He'). lra.
Qed.

Lemma leftmost_least_unique (l : list A) (i j : nat) (e e' : A) :
  leftmost_least key l i e -> leftmost_least key l j e' -> i = j /\ e = e'.
Proof.
  intros (Hi & Hbi & Hai) (Hj & Hbj & Haj).
  assert (i = j) as ->.
  { destruct (Nat.lt_trichotomy i j) as [H|[H|H]]; [|exact H|].
    - specialize (Hbj i e H Hi).
      specialize (Hai e' (nth_error_In _ _ Hj)). lra.
    - specialize (Hbi j e' H Hj).
      specialize (Haj e (nth_error_In _ _ Hi)). lra. }
  split; [reflexivity|]. congruence.
Qed.

End Sorting.

Lemma argmin_from_leftmost (r : list Q) :
  forall (i best : nat) (best_score : Q),
    let k := Decision.argmin_from r i best best_score in
    (k = best /\ forall s, In s r -> best_score <= s)
    \/ (exists j s, k = (i + j)%nat /\ nth_error r j = Some s /\ s < best_score
                    /\ (forall j' s', (j' < j)%nat -> nth_error r j' = Some s' -> s < s')
                    /\ forall s', In s' r -> s <= s').
Proof.
  induction r as [|s r IH]; intros i best best_score; simpl.
  - left. split; [reflexivity|intros ? []].
  - destruct (Py.lt s best_score) eqn:E.
    + apply lt_true in E. right.
      destruct (IH (S i) i s) as [[Hk Hmin]|(j & s' & Hk & Hnth & Hlt & Hbefore & Hmin)].
      * exists 0%nat, s. rewrite Hk.
        split; [lia|]. split; [reflexivity|]. split; [assumption|].
        split; [intros j' s' Hj'; lia|].
        intros s' [<-|Hs']; [lra|auto].
      * exists (S j), s'. rewrite Hk.
        split; [lia|]. split; [assumption|]. split; [lra|]. split.
        -- intros [|j'] s'' Hj' Hn; simpl in Hn.
           ++ injection Hn as <-. exact Hlt.
           ++ apply (Hbefore j'); [lia|exact Hn].
        -- intros s'' [<-|Hs'']; [lra|auto].
    + apply lt_false in E.
      destruct (IH (S i) best best_score)
        as [[Hk Hmin]|(j & s' & Hk & Hnth & Hlt & Hbefore & Hmin)].
      * left. split; [assumption|]. intros s' [<-|Hs']; auto.
      * right. exists (S j), s'. rewrite Hk.
        split; [lia|]. split; [assumption|]. split; [assumption|]. split.
        -- intros [|j'] s'' Hj' Hn; simpl in Hn.
           ++ injection Hn as <-. lra.
           ++ apply (Hbefore j'); [lia|exact Hn].
        -- intros s'' [<-|Hs'']; [lra|auto].
Qed.

(** [argmin] returns the index of the leftmost least score. *)
Lemma argmin_leftmost {A} (key : A -> Q) (l : list A) :
  l <> [] ->
  exists k e, Decision.argmin (map key l) = Some k /\ leftmost_least key l k e.
Proof.
  destruct l as [|x l]; [congruence|intros _]. simpl.
  destruct (argmin_from_leftmost (map key l) 1 0 (key x))
    as [[Hk Hmin]|(j & s & Hk & Hnth & Hlt & Hbefore & Hmin)].
  - exists 0%nat, x. rewrite Hk. split; [reflexivity|].
    split; [reflexivity|]. split; [intros j e' Hj; lia|].
    intros e' [<-|He']; [lra|]. apply Hmin. now apply in_map.
  - rewrite nth_error_map in Hnth.
    destruct (nth_error l j) as [e|] eqn:Ee; [|discriminate Hnth].
    simpl in Hnth. injection Hnth as <-.
    exists (S j), e. rewrite Hk. split; [reflexivity|].
    split; [exact Ee|]. split.
    + intros [|j'] e' Hj' Hn; simpl in Hn.
      * injection Hn as <-. exact Hlt.
      * apply (Hbefore j' (key e')); [lia|]. now apply map_nth_error.
    + intros e' [<-|He']; [lra|]. apply Hmin. now apply in_map.
Qed.

Lemma rank_routes_run (alpha beta gamma : Q) (cs : list Decision.Candidate)
    (top_k : Z) :
  exists routes,
    Decision.normalized_routes alpha beta gamma cs = Some routes
    /\ map fst routes = cs
    /\ Ranking.rank_routes alpha beta gamma cs top_k
       = Some (Ranking.slice_to top_k (Ranking.sorted_by snd routes)).
Proof.
  destruct (normalized_routes_spec alpha beta gamma cs) as (routes & Hroutes & Hfst & _).
  exists routes. split; [exact Hroutes|]. split; [exact Hfst|].
  unfold Ranking.rank_routes. rewrite Hroutes.
  destruct cs as [|c cs]; [|reflexivity].
  destruct routes; [|discriminate Hfst].
  unfold Ranking.slice_to. simpl. now destruct (0 <=? top_k)%Z, (Z.to_nat top_k).
Qed.

(** X6. [rank_routes] returns, whatever [top_k], the first routes of the
    scored candidates in ascending order of the score: the returned routes
    followed by some rest are a permutation of the scored candidates that is
    sorted by score, and with n candidates it returns min(top_k, n) routes
    for a [top_k] that is not negative and max(0, n - |top_k|) routes for a
    negative one, as the slice [sorted_routes[:top_k]] does. *)
Theorem rank_routes_top_k (alpha beta gamma : Q) (cs : list Decision.Candidate)
    (top_k : Z) :
  exists routes ranked rest,
    Decision.normalized_routes alpha beta gamma cs = Some routes
    /\ Ranking.rank_routes alpha beta gamma cs top_k = Some ranked
    /\ Permutation (ranked ++ rest) routes
    /\ StronglySorted (fun a b : Decision.Scored => snd a <= snd b) (ranked ++ rest)
    /\ length ranked
       = (if (0 <=? top_k)%Z then Nat.min (Z.to_nat top_k) (length cs)
          else length cs - Z.to_nat (- top_k))%nat.
Proof.
  destruct (rank_routes_run alpha beta gamma cs top_k) as (routes & Hroutes & Hfst & Hrank).
  pose proof (sorted_by_perm snd routes) as Hperm.
  pose proof (sorted_by_sorted snd routes) as Hsorted.
  assert (Hlen : length (Ranking.sorted_by snd routes) = length cs).
  { rewrite (Permutation_length Hperm), <- Hfst. now rewrite length_map. }
  unfold Ranking.slice_to in Hrank. rewrite Hlen in Hrank.
  set (m := (if (0 <=? top_k)%Z then Z.to_nat top_k
             else length cs - Z.to_nat (- top_k))%nat).
  exists routes, (firstn m (Ranking.sorted_by snd routes)),
         (skipn m (Ranking.sorted_by snd routes)).
  split; [exact Hroutes|]. split.
  { rewrite Hrank. unfold m. now destruct (0 <=? top_k)%Z. }
  rewrite firstn_skipn. split; [exact Hperm|]. split; [exact Hsorted|].
  rewrite length_firstn, Hlen. unfold m.
  destruct (0 <=? top_k)%Z; lia.
Qed.

(** X7. With at least one candidate and a positive [top_k], the first route
    that [rank_routes] returns is the route that [select_optimal_route]
    selects, with the same metrics and the same score: both resolve a tie of
    the least score in favour of the earliest candidate. *)
Theorem rank_routes_head_is_optimal (alpha beta gamma : Q)
    (c : Decision.Candidate) (cs : list Decision.Candidate) (top_k : positive) :
  exists (r : Decision.Scored) (tail : list Decision.Scored),
    Decision.select_optimal_route alpha beta gamma (c :: cs)
    = Some (Decision.Selected r)
    /\ Ranking.rank_routes alpha beta gamma (c :: cs) (Z.pos top_k)
       = Some (r :: tail).
Proof.
  destruct (rank_routes_run alpha beta gamma (c :: cs) (Z.pos top_k))
    as (routes & Hroutes & Hfst & Hrank).
  assert (Hne : routes <> []) by (intros ->; discriminate Hfst).
  destruct (argmin_leftmost snd routes Hne) as (k & r & Hk & Hleft).
  destruct (sorted_by_head snd routes Hne) as (i & e & tail & Hsorted & Hleft').
  destruct (leftmost_least_unique snd routes _ _ _ _ Hleft Hleft') as [<- <-].
  exists r, (firstn (Pos.to_nat top_k - 1) tail). split.
  - assert (Hnth : @nth_error Decision.Scored routes k = Some r) by apply Hleft.
    unfold Decision.select_optimal_route. rewrite Hroutes, Hk, Hnth. reflexivity.
  - rewrite Hrank, Hsorted. unfold Ranking.slice_to. simpl.
    change (Z.to_nat (Z.pos top_k)) with (Pos.to_nat top_k).
    destruct (Pos.to_nat top_k) as [|n] eqn:E; [lia|].
    simpl. now rewrite Nat.sub_0_r.
Qed.

(** A normalised metric of a candidate lies between 0 and 1. *)
Lemma normalize_bounds (xs : list Q) (x : Q) :
  In x xs ->
  exists v, Decision.normalize xs x = Some v /\ 0 <= v <= 1.
Proof.
  intros Hin.
  assert (Hne : xs <> []) by (intros ->; destruct Hin).
  destruct (lowest_spec xs Hne) as [Hlb _].
  destruct (highest_spec xs Hne) as [Hub _].
  specialize (Hlb x Hin). specialize (Hub x Hin).
  unfold Decision.normalize, Py.div.
  pose proof (range_positive xs) as Hpos.
  rewrite (lt_of _ _ Hpos).
  destruct (Qeq_bool (Decision.range_of xs) 0) eqn:E.
  { apply Qeq_bool_iff in E. lra. }
  eexists. split; [reflexivity|].
  assert (Hrange : x - Decision.lowest xs <= Decision.range_of xs).
  { unfold Decision.range_of.
    destruct (Py.lt (Decision.lowest xs) (Decision.highest xs)) eqn:Elt; [lra|].
    apply lt_false in Elt. lra. }
  split.
  - apply Qle_shift_div_l; [exact Hpos|lra].
  - apply Qle_shift_div_r; [exact Hpos|lra].
Qed.

(** X8. With weights alpha, beta and gamma that are not negative, every
    score that the decision layer computes for a candidate lies between 0
    and alpha + beta + gamma. *)
Theorem scores_bounded (alpha beta gamma : Q) (cs : list Decision.Candidate) :
  0 <= alpha -> 0 <= beta -> 0 <= gamma ->
  exists routes,
    Decision.normalized_routes alpha beta gamma cs = Some routes
    /\ Forall (fun r : Decision.Scored => 0 <= snd r <= alpha + beta + gamma) routes.
Proof.
  intros Ha Hb Hg. unfold Decision.normalized_routes.
  set (costs := map (fun c => Decision.total_cost (snd c)) cs).
  set (latencies := map (fun c => Decision.total_latency (snd c)) cs).
  set (reliabilities := map (fun c => Decision.reliability (snd c)) cs).
  assert (Hin : forall c, In c cs ->
                  In (Decision.total_cost (snd c)) costs
                  /\ In (Decision.total_latency (snd c)) latencies
                  /\ In (Decision.reliability (snd c)) reliabilities).
  { intros c Hc. repeat split.
    - apply (in_map (fun c => Decision.total_cost (snd c)) _ _ Hc).
    - apply (in_map (fun c => Decision.total_latency (snd c)) _ _ Hc).
    - apply (in_map (fun c => Decision.reliability (snd c)) _ _ Hc). }
  clearbody costs latencies reliabilities.
  induction cs as [|c cs IH]; simpl.
  - exists []. split; [reflexivity|constructor].
  - destruct IH as (routes & Hroutes & Hall); [intros c' Hc'; apply Hin; now right|].
    destruct (Hin c) as (Hc & Hl & Hr); [now left|].
    unfold Decision.score_one.
    destruct (normalize_bounds _ _ Hc) as (vc & -> & Hvc).
    destruct (normalize_bounds _ _ Hl) as (vl & -> & Hvl).
    destruct (normalize_bounds _ _ Hr) as (vr & -> & Hvr).
    rewrite Hroutes. eexists. split; [reflexivity|].
    constructor; [|exact Hall]. simpl. split; nra.
Qed.

Lemma scores_bounded_witness :
  exists routes,
    Decision.normalized_routes 0.4 0.3 0.3
      (Examples.candidates_of [[Examples.wire]; [Examples.conversion]]) = Some routes
    /\ Forall (fun r : Decision.Scored => 0 <= snd r <= 0.4 + 0.3 + 0.3) routes.
Proof.
  apply scores_bounded; vm_compute; discriminate.
Defined.

Lemma fold_accumulate_None (path : list RouteSegment) :
  fold_left Decision.accumulate path None = None.
Proof. induction path; simpl; auto. Qed.

Lemma cost_number_None (d : Q) (e : CostEntry) :
  cost_number d e = None <-> e = PyNone.
Proof. destruct e; simpl; split; congruence. Qed.

Lemma fold_accumulate (path : list RouteSegment) :
  forall (pct fixed : Q) (lo hi : Z) (rels : list Q),
    (Exists fee_is_none path
     /\ fold_left Decision.accumulate path (Some (pct, fixed, lo, hi, rels)) = None)
    \/ (Forall (fun s => ~ fee_is_none s) path
        /\ fold_left Decision.accumulate path (Some (pct, fixed, lo, hi, rels))
           = Some (fold_left Qplus (map fee_percent_of path) pct,
                   fold_left Qplus (map fixed_fee_of path) fixed,
                   fold_left Z.add (map min_minutes_of path) lo,
                   fold_left Z.add (map max_minutes_of path) hi,
                   rels ++ map reliability_score path)).
Proof.
  induction path as [|s path IH]; intros pct fixed lo hi rels; simpl.
  - right. split; [constructor|]. now rewrite app_nil_r.
  - destruct (cost_number 0 (fee_percent (cost s))) as [p|] eqn:Ep.
    2:{ left. split; [|apply fold_accumulate_None].
        apply Exists_cons_hd. left. now apply cost_number_None in Ep. }
    destruct (cost_number 0 (fixed_fee (cost s))) as [f|] eqn:Ef.
    2:{ left. split; [|apply fold_accumulate_None].
        apply Exists_cons_hd. right. now apply cost_number_None in Ef. }
    simpl.
    destruct (IH (pct + p) (fixed + f)
                (lo + default 0%Z (min_minutes (latency s)))%Z
                (hi + default 0%Z (max_minutes (latency s)))%Z
                (rels ++ [reliability_score s])) as [[Hex Hnone]|[Hall Hsome]].
    + left. split; [now apply Exists_cons_tl|exact Hnone].
    + right. split.
      * constructor; [|exact Hall]. intros [H|H].
        -- rewrite H in Ep. discriminate Ep.
        -- rewrite H in Ef. discriminate Ef.
      * rewrite Hsome. unfold fee_percent_of at 3, fixed_fee_of at 3,
          min_minutes_of at 3, max_minutes_of at 3.
        rewrite Ep, Ef. simpl. now rewrite <- List.app_assoc.
Qed.

(** X9. [_calculate_path_metrics] raises exactly when the [fee_percent] or
    the [fixed_fee] entry of the cost dict of some segment of the path holds
    [None]; missing entries count as 0. *)
Theorem calculate_path_metrics_raises (w : Decision.Weights)
    (path : list RouteSegment) :
  Decision.calculate_path_metrics w path = None <-> Exists fee_is_none path.
Proof.
  unfold Decision.calculate_path_metrics.
  destruct (fold_accumulate path 0 0 0%Z 0%Z []) as [[Hex ->]|[Hall ->]].
  - split; auto.
  - split; [discriminate|]. intros Hex. exfalso.
    apply Exists_exists in Hex as (s & Hs & Hnone).
    rewrite Forall_forall in Hall. exact (Hall s Hs Hnone).
Qed.

(** X10. When [_calculate_path_metrics] returns, total_cost_percent,
    total_fixed_fee, min_latency and max_latency are the sums of the
    entries of the segments (a missing entry counting as 0), num_segments
    is the length of the path, reliability is the mean of the reliability
    scores (0 for the empty path), total_cost is
    total_cost_percent + 0.0001 * total_fixed_fee, total_latency is the mean
    of min_latency and max_latency, and combined_score weights total_cost,
    total_latency / 60 and 1 - reliability. *)
Theorem calculate_path_metrics_totals (w : Decision.Weights)
    (path : list RouteSegment) (m : Decision.Metrics) :
  Decision.calculate_path_metrics w path = Some m ->
  Decision.total_cost_percent m = Py.sum (map fee_percent_of path)
  /\ Decision.total_fixed_fee m = Py.sum (map fixed_fee_of path)
  /\ Decision.min_latency m = fold_left Z.add (map min_minutes_of path) 0%Z
  /\ Decision.max_latency m = fold_left Z.add (map max_minutes_of path) 0%Z
  /\ Decision.num_segments m = length path
  /\ Decision.reliability m
     = match path with
       | [] => 0
       | _ => Py.sum (map reliability_score path)
              / inject_Z (Z.of_nat (length path))
       end
  /\ Decision.total_cost m
     = Decision.total_cost_percent m + Decision.total_fixed_fee m * 0.0001
  /\ Decision.total_latency m
     = inject_Z (Decision.min_latency m + Decision.max_latency m) / 2
  /\ Decision.combined_score m
     = Decision.cost_weight w * Decision.total_cost m
       + Decision.latency_weight w * (Decision.total_latency m / 60)
       + Decision.reliability_weight w * (1 - Decision.reliability m).
Proof.
  unfold Decision.calculate_path_metrics.
  destruct (fold_accumulate path 0 0 0%Z 0%Z []) as [[Hex ->]|[Hall ->]];
    [discriminate|].
  intros [= <-]. simpl. unfold Py.sum.
  repeat split; try reflexivity.
  destruct path as [|s path]; [reflexivity|].
  simpl. rewrite length_map. reflexivity.
Qed.

Lemma calculate_path_metrics_totals_witness :
  exists m,
    Decision.calculate_path_metrics Examples.weights
      [Examples.wire; Examples.conversion] = Some m
    /\ Decision.total_cost_percent m == 1.002
    /\ Decision.total_fixed_fee m == 30
    /\ Decision.total_cost m == 1.005
    /\ Decision.total_latency m == 90
    /\ Decision.num_segments m = 2%nat.
Proof.
  destruct (Decision.calculate_path_metrics Examples.weights
              [Examples.wire; Examples.conversion]) as [m|] eqn:E;
    [|vm_compute in E; discriminate E].
  destruct (calculate_path_metrics_totals _ _ _ E)
    as (Hpct & Hfixed & Hlo & Hhi & Hn & _ & Hcost & Hlat & _).
  exists m. split; [reflexivity|].
  rewrite Hcost, Hlat, Hpct, Hfixed, Hlo, Hhi, Hn.
  repeat split; vm_compute; reflexivity.
Defined.

Lemma sum_unit_bounds (xs : list Q) :
  forall a : Q,
    Forall (fun x => 0 <= x <= 1) xs ->
    a <= fold_left Qplus xs a <= a + inject_Z (Z.of_nat (length xs)).
Proof.
  induction xs as [|x xs IH]; intros a Hall.
  - change (inject_Z (Z.of_nat (length (@nil Q)))) with 0. simpl. lra.
  - inversion Hall as [|? ? Hx Hxs]; subst.
    specialize (IH (a + x) Hxs).
    change (length (x :: xs)) with (S (length xs)).
    rewrite Nat2Z.inj_succ, <- Z.add_1_r, inject_Z_plus.
    change (inject_Z 1) with 1. simpl. lra.
Qed.

(** X11. When the reliability score of every segment of a path lies
    between 0 and 1, so does the reliability that [_calculate_path_metrics]
    reports for the path. *)
Theorem calculate_path_metrics_reliability (w : Decision.Weights)
    (path : list RouteSegment) (m : Decision.Metrics) :
  Decision.calculate_path_metrics w path = Some m ->
  Forall (fun s => 0 <= reliability_score s <= 1) path ->
  0 <= Decision.reliability m <= 1.
Proof.
  unfold Decision.calculate_path_metrics.
  destruct (fold_accumulate path 0 0 0%Z 0%Z []) as [[Hex ->]|[Hall ->]];
    [discriminate|].
  intros [= <-] Hrel. simpl.
  destruct (map reliability_score path) as [|x xs] eqn:E; [lra|].
  assert (Hunit : Forall (fun x => 0 <= x <= 1) (x :: xs)).
  { rewrite <- E. apply Forall_map. exact Hrel. }
  pose proof (sum_unit_bounds (x :: xs) 0 Hunit) as Hsum.
  assert (Hpos : 0 < inject_Z (Z.of_nat (length (x :: xs)))).
  { change 0 with (inject_Z 0). rewrite <- Zlt_Qlt. simpl. lia. }
  unfold Py.sum. split.
  - apply Qle_shift_div_l; [exact Hpos|lra].
  - apply Qle_shift_div_r; [exact Hpos|lra].
Qed.

Lemma calculate_path_metrics_reliability_witness :
  exists m,
    Decision.calculate_path_metrics Examples.weights
      [Examples.wire; Examples.conversion] = Some m
    /\ 0 <= Decision.reliability m <= 1.
Proof.
  destruct (Decision.calculate_path_metrics Examples.weights
              [Examples.wire; Examples.conversion]) as [m|] eqn:E;
    [|vm_compute in E; discriminate E].
  exists m. split; [reflexivity|].
  apply (calculate_path_metrics_reliability _ _ _ E).
  repeat constructor; vm_compute; discriminate.
Defined.

Lemma best_path_loop_spec (w : Decision.Weights) (paths : list (list RouteSegment)) :
  forall (best_path : option (list RouteSegment)) (best_cost : option Q),
    match Solver.best_path_loop w paths best_path best_cost with
    | None => exists p, In p paths /\ Decision.calculate_path_metrics w p = None
    | Some res =>
        (res = best_path
         /\ forall p m', In p paths -> Decision.calculate_path_metrics w p = Some m' ->
              exists c, best_cost = Some c /\ c <= Decision.combined_score m')
        \/ (exists b m,
              res = Some b /\ In b paths
              /\ Decision.calculate_path_metrics w b = Some m
              /\ (forall c, best_cost = Some c -> Decision.combined_score m < c)
              /\ forall p m', In p paths ->
                   Decision.calculate_path_metrics w p = Some m' ->
                   Decision.combined_score m <= Decision.combined_score m')
    end.
Proof.
  induction paths as [|path rest IH]; intros best_path best_cost; simpl.
  - left. split; [reflexivity|]. intros p m' [].
  - destruct (Decision.calculate_path_metrics w path) as [metrics|] eqn:Em.
    2:{ exists path. auto. }
    destruct (match best_cost with
              | Some best => Py.lt (Decision.combined_score metrics) best
              | None => true
              end) eqn:Elower.
    + specialize (IH (Some path) (Some (Decision.combined_score metrics))).
      destruct (Solver.best_path_loop w rest (Some path)
                  (Some (Decision.combined_score metrics))) as [res|].
      2:{ destruct IH as (p & Hp & Hnone). exists p. auto. }
      right. destruct IH as [[-> Hrest]|(b & m & -> & Hb & Hm & Hlt & Hrest)].
      * exists path, metrics. split; [reflexivity|]. split; [now left|].
        split; [exact Em|]. split.
        -- intros c ->. now apply lt_true.
        -- intros p m' [<-|Hp] Hm'; [rewrite Em in Hm'; injection Hm' as <-; lra|].
           destruct (Hrest p m' Hp Hm') as (c & [= <-] & Hc). exact Hc.
      * exists b, m. split; [reflexivity|]. split; [now right|].
        split; [exact Hm|]. specialize (Hlt _ eq_refl). split.
        -- intros c ->. apply lt_true in Elower. lra.
        -- intros p m' [<-|Hp] Hm'; [rewrite Em in Hm'; injection Hm' as <-; lra|].
           eauto.
    + destruct best_cost as [best|]; [|discriminate Elower].
      apply lt_false in Elower.
      specialize (IH best_path (Some best)).
      destruct (Solver.best_path_loop w rest best_path (Some best)) as [res|].
      2:{ destruct IH as (p & Hp & Hnone). exists p. auto. }
      destruct IH as [[-> Hrest]|(b & m & -> & Hb & Hm & Hlt & Hrest)].
      * left. split; [reflexivity|].
        intros p m' [<-|Hp] Hm'; [|eauto].
        rewrite Em in Hm'. injection Hm' as <-. eauto.
      * right. exists b, m. split; [reflexivity|]. split; [now right|].
        split; [exact Hm|]. split; [exact Hlt|].
        intros p m' [<-|Hp] Hm'; [|eauto].
        rewrite Em in Hm'. injection Hm' as <-. specialize (Hlt _ eq_refl). lra.
Qed.

(** X12. [_fallback_graph_search] on a built graph.  [find_paths] with
    [max_hops] = 5 returns; when the search answers [None] no path was
    found; when it answers with a path, this is one of the found paths and
    its combined_score is the least among the found paths; it raises only
    when [_calculate_path_metrics] raises on one of the found paths. *)
Theorem fallback_graph_search_least (w : Decision.Weights)
    (segs : list RouteSegment) (from_asset to_asset : string)
    (from_network to_network : option string) :
  exists paths,
    Graph.find_paths (Graph.build_graph segs) from_asset to_asset
                     from_network to_network 5 = Some paths
    /\ match Solver.fallback_graph_search w (Graph.build_graph segs)
               from_asset to_asset from_network to_network with
       | Some (Some best) =>
           In best paths
           /\ exists m,
                Decision.calculate_path_metrics w best = Some m
                /\ forall p m', In p paths ->
                     Decision.calculate_path_metrics w p = Some m' ->
                     Decision.combined_score m <= Decision.combined_score m'
       | Some None => paths = []
       | None => exists p, In p paths /\ Decision.calculate_path_metrics w p = None
       end.
Proof.
  destruct (find_paths_sound segs from_asset to_asset from_network to_network 5)
    as (paths & Hpaths & _).
  exists paths. split; [exact Hpaths|].
  unfold Solver.fallback_graph_search. rewrite Hpaths.
  destruct paths as [|p0 paths]; [reflexivity|].
  pose proof (best_path_loop_spec w (p0 :: paths) None None) as Hloop.
  destruct (Solver.best_path_loop w (p0 :: paths) None None) as [res|] eqn:Eloop;
    [|exact Hloop].
  destruct Hloop as [[-> Hall]|(b & m & -> & Hb & Hm & _ & Hleast)].
  - exfalso. destruct (Decision.calculate_path_metrics w p0) as [m0|] eqn:E0.
    + destruct (Hall p0 m0 (or_introl eq_refl) E0) as (c & Hc & _). discriminate Hc.
    + simpl in Eloop. rewrite E0 in Eloop. discriminate Eloop.
  - split; [exact Hb|]. exists m. auto.
Qed.

(** ** The executors, statement by statement *)

Section Hoare.

Import Simulator Executors.

Context {A B : Type}.
Implicit Types (P I J : Simulator.t -> Prop) (E : Exn -> Simulator.t -> Prop).

Lemma hoare_ret P (a : A) (Q : A -> Simulator.t -> Prop) E :
  (forall s, P s -> Q a s) -> hoare P (ret a) Q E.
Proof. intros H s Hs. simpl. auto. Qed.

Lemma hoare_raise P (e : Exn) (Q : A -> Simulator.t -> Prop) E :
  (forall s, P s -> E e s) -> hoare P (raise e) Q E.
Proof. intros H s Hs. simpl. auto. Qed.

Lemma hoare_bind P (m : M A) (R : A -> Simulator.t -> Prop) (k : A -> M B)
    (Q : B -> Simulator.t -> Prop) E :
  hoare P m R E -> (forall a, hoare (R a) (k a) Q E) -> hoare P (bind m k) Q E.
Proof.
  intros Hm Hk s Hs. unfold bind. specialize (Hm s Hs).
  destruct (m s) as [s' [e|a]]; [exact Hm|]. apply Hk, Hm.
Qed.

Lemma hoare_pure P (R : Prop) (m : M A) (Q : A -> Simulator.t -> Prop) E :
  (R -> hoare P m Q E) -> hoare (fun s => P s /\ R) m Q E.
Proof. intros H s [Hs HR]. now apply H. Qed.

Lemma hoare_try_except P (body : M SegmentExecutionResult)
    (handler : Exn -> SegmentExecutionResult)
    (Q : SegmentExecutionResult -> Simulator.t -> Prop) E
    (G : SegmentExecutionResult -> Simulator.t -> Prop) (s : Simulator.t) :
  hoare P body Q E ->
  (forall r s', Q r s' -> G r s') ->
  (forall e s', E e s' -> G (handler e) s') ->
  P s ->
  G (snd (try_except body handler s)) (fst (try_except body handler s)).
Proof.
  intros Hbody HQ HE Hs. unfold try_except. specialize (Hbody s Hs).
  destruct (body s) as [s' [e|r]]; simpl; auto.
Qed.

End Hoare.

Section HoarePrimitives.

Import Simulator Executors.

Implicit Types (P Inv Post : Simulator.t -> Prop) (E : Exn -> Simulator.t -> Prop).

Lemma hoare_number Inv (d : Q) (c : CostEntry) E :
  (cost_number d c = None -> forall s, Inv s -> E TypeError s) ->
  hoare Inv (number d c) (fun q s => Inv s /\ cost_number d c = Some q) E.
Proof.
  intros HE s Hs. unfold number.
  destruct (cost_number d c) as [q|]; simpl; auto.
Qed.

Lemma hoare_guard Inv (b : bool) (e : Exn) E :
  (b = true -> forall s, Inv s -> E e s) ->
  hoare Inv (when b (raise e)) (fun _ s => Inv s /\ b = false) E.
Proof. intros HE s Hs. destruct b; simpl; auto. Qed.

Lemma hoare_wallet_or_new Inv (wallet_address : option string) (rnd : Entropy) E :
  registration_stable Inv ->
  hoare Inv (wallet_or_new wallet_address rnd)
        (fun w s => Inv s /\ w = wallet_used wallet_address rnd) E.
Proof.
  intros HI s Hs. rewrite wallet_or_new_run.
  destruct (Py.truthy wallet_address); auto.
Qed.

Lemma add_balance_stable Inv (w a : string) (x : Q) (s : Simulator.t) :
  registration_stable Inv -> balance_stable Inv w a -> Inv s -> Inv (add_balance w a x s).
Proof.
  intros Hens Hset Hs. unfold add_balance, get_balance.
  apply Hset, Hens, Hs.
Qed.

Lemma hoare_ensure_balance Inv (w a : string) (x : Q) E :
  registration_stable Inv -> balance_stable Inv w a ->
  hoare Inv (ensure_balance w a x) (fun _ s => Inv s /\ True) E.
Proof.
  intros Hens Hset s Hs.
  unfold ensure_balance, bind, call, when, exec, ret, get_balance.
  destruct (Py.lt _ x); simpl; (split; [|exact I]).
  - apply add_balance_stable; [exact Hens|exact Hset|]. now apply Hens.
  - now apply Hens.
Qed.

Lemma hoare_subtract_balance Inv (w a : string) (x : Q) E :
  registration_stable Inv -> balance_stable Inv w a ->
  hoare Inv (call (subtract_balance w a x)) (fun _ s => Inv s /\ True) E.
Proof.
  intros Hens Hset s Hs. unfold call, subtract_balance, get_balance.
  destruct (Py.le x _); simpl; (split; [|exact I]).
  - apply Hset, Hens, Hs.
  - apply Hens, Hs.
Qed.

Lemma hoare_add_balance Inv (w a : string) (x : Q) E :
  registration_stable Inv -> balance_stable Inv w a ->
  hoare Inv (exec (add_balance w a x)) (fun _ s => Inv s /\ True) E.
Proof.
  intros Hens Hset s Hs. unfold exec. split; [|exact I].
  now apply add_balance_stable.
Qed.

Lemma hoare_create_transaction Inv Post (h ty : string) (from : option string)
    (a : string) (x : Q) (net : option string) E :
  (forall s, Inv s -> Post (snd (create_transaction h ty from a x net s))) ->
  hoare Inv (call (create_transaction h ty from a x net))
        (fun tx s => Post s /\ tx = h) E.
Proof. intros HJ s Hs. unfold call. simpl. split; [|reflexivity]. now apply HJ. Qed.

Lemma hoare_simulate_confirmation Inv Post (h : string) (b : Z) E :
  (forall s, Inv s ->
     match transactions s !! h with
     | Some _ => Post (fst (simulate_confirmation h b s))
     | None => E (TransactionNotFound h) s
     end) ->
  hoare Inv (simulate_confirmation h b) (fun _ s => Post s /\ True) E.
Proof.
  intros HJ s Hs. specialize (HJ s Hs). unfold simulate_confirmation in *.
  destruct (transactions s !! h); simpl in *; auto.
Qed.

Lemma hoare_simulate_fx_conversion Inv (lo hi : Z) E :
  ((hi < lo)%Z -> forall s, Inv s -> E EmptyRange s) ->
  hoare Inv (simulate_fx_conversion lo hi) (fun _ s => Inv s /\ (lo <= hi)%Z) E.
Proof.
  intros HE s Hs. unfold simulate_fx_conversion.
  destruct (hi <? lo)%Z eqn:Er.
  - apply Z.ltb_lt in Er. auto.
  - apply Z.ltb_ge in Er. auto.
Qed.

End HoarePrimitives.

Lemma cost_number_none (d : Q) (c : CostEntry) :
  cost_number d c = None -> c = PyNone.
Proof. destruct c; simpl; congruence. Qed.

Tactic Notation "hoare_step" ident(a) ident(H) :=
  lazymatch goal with
  | |- hoare _ (Executors.bind _ _) _ _ =>
      eapply hoare_bind;
      [ first
          [ apply hoare_number
          | apply hoare_guard
          | apply hoare_wallet_or_new
          | apply hoare_ensure_balance
          | apply hoare_subtract_balance
          | apply hoare_add_balance
          | apply hoare_simulate_fx_conversion ]
      | intros a; apply hoare_pure; intros H ]
  end.

(** The error cases of an executor: what the handler returns is a result of
    the executor, in a state that keeps the invariant. *)
Ltac hoare_error :=
  let s := fresh "s" in
  let Hs := fresh "Hs" in
  intros ? s Hs; split; [exact Hs|].

Section Outcomes.

Import Simulator Executors.

Variables (rnd : Entropy) (idx : nat) (segment : RouteSegment) (input : Q)
          (wallet_address : option string).

Let w := wallet_used wallet_address rnd.

(** A bank transfer: no ledger involvement. *)
Lemma BankRailExecutor_outcome (Inv : Simulator.t -> Prop) (sim : Simulator.t) :
  let done out fees := completed idx segment false input out fees None None in
  let fail := failed idx segment false input in
  Inv sim ->
  Inv (fst (BankRailExecutor rnd idx segment input wallet_address sim))
  /\ rate_validated segment input done fail
       (snd (BankRailExecutor rnd idx segment input wallet_address sim)).
Proof.
  intros done fail Hsim. unfold BankRailExecutor.
  apply (hoare_try_except Inv _ _
           (fun r s => Inv s /\ rate_validated segment input done fail r)
           (fun e s => Inv s /\ rate_validated segment input done fail (fail e)));
    [|auto|auto|exact Hsim].
  hoare_step fp Hfp.
  { hoare_error. apply rate_validated_none. left. eapply cost_number_none; eassumption. }
  hoare_step ff Hff.
  { hoare_error. apply rate_validated_none. right. left. eapply cost_number_none; eassumption. }
  hoare_step rate Hrate.
  { hoare_error. apply rate_validated_none. right. right. eapply cost_number_none; eassumption. }
  hoare_step u Hr.
  { hoare_error. eapply rate_validated_rate; try eassumption. now apply le_true. }
  hoare_step u' Hi.
  { hoare_error. apply le_false in Hr.
    eapply rate_validated_input; try eassumption. now apply lt_true. }
  apply hoare_ret. intros s Hs. split; [exact Hs|].
  apply le_false in Hr. apply lt_false in Hi.
  exact (rate_validated_completed segment input done fail fp ff rate
           Hfp Hff Hrate Hr Hi).
Qed.

(** An FX conversion: no ledger involvement, no validation. *)
Lemma FXExecutor_outcome (Inv : Simulator.t -> Prop) (sim : Simulator.t) :
  let done out fees := completed idx segment false input out fees None None in
  let fail := failed idx segment false input in
  Inv sim ->
  Inv (fst (FXExecutor rnd idx segment input wallet_address sim))
  /\ unvalidated segment input done fail
       (snd (FXExecutor rnd idx segment input wallet_address sim)).
Proof.
  intros done fail Hsim. unfold FXExecutor.
  apply (hoare_try_except Inv _ _
           (fun r s => Inv s /\ unvalidated segment input done fail r)
           (fun e s => Inv s /\ unvalidated segment input done fail (fail e)));
    [|auto|auto|exact Hsim].
  hoare_step fp Hfp.
  { hoare_error. apply unvalidated_none. left. eapply cost_number_none; eassumption. }
  hoare_step ff Hff.
  { hoare_error. apply unvalidated_none. right. left. eapply cost_number_none; eassumption. }
  hoare_step rate Hrate.
  { hoare_error. apply unvalidated_none. right. right. eapply cost_number_none; eassumption. }
  hoare_step u Hl.
  { hoare_error. eapply unvalidated_range; eassumption. }
  apply hoare_ret. intros s Hs. split; [exact Hs|].
  exact (unvalidated_completed segment input done fail fp ff rate Hfp Hff Hrate Hl).
Qed.

(** The transaction that an executor creates is there when it is confirmed. *)
Lemma hoare_transaction (Inv : Simulator.t -> Prop) (ty : string)
    (from : option string) (a : string) (x : Q) (net : option string)
    {A} (k : M A) (Q : A -> Simulator.t -> Prop) (E : Exn -> Simulator.t -> Prop) :
  transaction_blind Inv ->
  hoare Inv k Q E ->
  hoare Inv
    (bind (call (create_transaction (tx_hash rnd) ty from a x net))
       (fun tx => bind (simulate_confirmation tx (blocks rnd)) (fun _ => k)))
    Q E.
Proof.
  intros Hblind Hk s Hs. unfold bind, call, create_transaction, simulate_confirmation.
  cbn [transactions wallets confirmations]. rewrite lookup_insert_eq.
  apply Hk. apply (Hblind s). exact Hs.
Qed.

(** A crypto swap. *)
Lemma CryptoExecutor_outcome (Inv : Simulator.t -> Prop) (sim : Simulator.t) :
  let done out fees :=
    completed idx segment true input out fees (Some (tx_hash rnd)) (Some w) in
  let fail := failed idx segment true input in
  wallet_stable Inv w -> transaction_blind Inv ->
  Inv sim ->
  Inv (fst (CryptoExecutor rnd idx segment input wallet_address sim))
  /\ rate_validated segment input done fail
       (snd (CryptoExecutor rnd idx segment input wallet_address sim)).
Proof.
  intros done fail Hstable Hblind Hsim. unfold CryptoExecutor.
  apply (hoare_try_except Inv _ _
           (fun r s => Inv s /\ rate_validated segment input done fail r)
           (fun e s => Inv s /\ rate_validated segment input done fail (fail e)));
    [|auto|auto|exact Hsim].
  hoare_step wallet Hwallet; try apply Hstable. subst wallet. fold w.
  hoare_step u0 Hu0; try apply Hstable.
  hoare_step fp Hfp.
  { hoare_error. apply rate_validated_none. left. eapply cost_number_none; eassumption. }
  hoare_step ff Hff.
  { hoare_error. apply rate_validated_none. right. left. eapply cost_number_none; eassumption. }
  hoare_step rate Hrate.
  { hoare_error. apply rate_validated_none. right. right. eapply cost_number_none; eassumption. }
  hoare_step u Hr.
  { hoare_error. eapply rate_validated_rate; try eassumption. now apply le_true. }
  hoare_step u' Hi.
  { hoare_error. apply le_false in Hr.
    eapply rate_validated_input; try eassumption. now apply lt_true. }
  hoare_step u1 Hu1; try apply Hstable.
  apply hoare_transaction; [exact Hblind|].
  hoare_step u2 Hu2; try apply Hstable.
  apply hoare_ret. intros s Hs. split; [exact Hs|].
  apply le_false in Hr. apply lt_false in Hi.
  exact (rate_validated_completed segment input done fail fp ff rate
           Hfp Hff Hrate Hr Hi).
Qed.

(** A bridge transfer. *)
Lemma BridgeExecutor_outcome (Inv : Simulator.t -> Prop) (sim : Simulator.t) :
  let done out fees :=
    completed idx segment true input out fees (Some (tx_hash rnd)) None in
  let fail := failed idx segment true input in
  wallet_stable Inv w -> transaction_blind Inv ->
  Inv sim ->
  Inv (fst (BridgeExecutor rnd idx segment input wallet_address sim))
  /\ input_validated segment input done fail
       (snd (BridgeExecutor rnd idx segment input wallet_address sim)).
Proof.
  intros done fail Hstable Hblind Hsim. unfold BridgeExecutor.
  apply (hoare_try_except Inv _ _
           (fun r s => Inv s /\ input_validated segment input done fail r)
           (fun e s => Inv s /\ input_validated segment input done fail (fail e)));
    [|auto|auto|exact Hsim].
  hoare_step wallet Hwallet; try apply Hstable. subst wallet. fold w.
  hoare_step u0 Hu0; try apply Hstable.
  hoare_step fp Hfp.
  { hoare_error. apply input_validated_none. left. eapply cost_number_none; eassumption. }
  hoare_step ff Hff.
  { hoare_error. apply input_validated_none. right. eapply cost_number_none; eassumption. }
  hoare_step u' Hi.
  { hoare_error. eapply input_validated_input; try eassumption. now apply lt_true. }
  hoare_step u1 Hu1; try apply Hstable.
  apply hoare_transaction; [exact Hblind|].
  hoare_step u2 Hu2; try apply Hstable.
  apply hoare_ret. intros s Hs. split; [exact Hs|].
  apply lt_false in Hi.
  exact (input_validated_completed segment input done fail fp ff Hfp Hff Hi).
Qed.

(** An on-ramp or an off-ramp. *)
Lemma RampExecutor_outcome (Inv : Simulator.t -> Prop) (sim : Simulator.t) :
  let done out fees :=
    completed idx segment true input out fees
              (if String.eqb (SegmentType_value (segment_type segment)) "on_ramp"
               then None else Some (tx_hash rnd))
              (Some w) in
  let fail := failed idx segment true input in
  wallet_stable Inv w -> transaction_blind Inv ->
  Inv sim ->
  Inv (fst (RampExecutor rnd idx segment input wallet_address sim))
  /\ rate_validated segment input done fail
       (snd (RampExecutor rnd idx segment input wallet_address sim)).
Proof.
  intros done fail Hstable Hblind Hsim. unfold RampExecutor.
  apply (hoare_try_except Inv _ _
           (fun r s => Inv s /\ rate_validated segment input done fail r)
           (fun e s => Inv s /\ rate_validated segment input done fail (fail e)));
    [|auto|auto|exact Hsim].
  subst done.
  destruct (String.eqb (SegmentType_value (segment_type segment)) "on_ramp").
  - hoare_step wallet Hwallet; try apply Hstable. subst wallet. fold w.
    hoare_step fp Hfp.
    { hoare_error. apply rate_validated_none. left. eapply cost_number_none; eassumption. }
    hoare_step ff Hff.
    { hoare_error. apply rate_validated_none. right. left. eapply cost_number_none; eassumption. }
    hoare_step rate Hrate.
    { hoare_error. apply rate_validated_none. right. right. eapply cost_number_none; eassumption. }
    hoare_step u Hr.
    { hoare_error. eapply rate_validated_rate; try eassumption. now apply le_true. }
    hoare_step u' Hi.
    { hoare_error. apply le_false in Hr.
    eapply rate_validated_input; try eassumption. now apply lt_true. }
    hoare_step u2 Hu2; try apply Hstable.
    apply hoare_ret. intros s Hs. split; [exact Hs|].
    apply le_false in Hr. apply lt_false in Hi.
    exact (rate_validated_completed segment input _ fail fp ff rate
             Hfp Hff Hrate Hr Hi).
  - hoare_step wallet Hwallet; try apply Hstable. subst wallet. fold w.
    hoare_step u0 Hu0; try apply Hstable.
    hoare_step fp Hfp.
    { hoare_error. apply rate_validated_none. left. eapply cost_number_none; eassumption. }
    hoare_step ff Hff.
    { hoare_error. apply rate_validated_none. right. left. eapply cost_number_none; eassumption. }
    hoare_step rate Hrate.
    { hoare_error. apply rate_validated_none. right. right. eapply cost_number_none; eassumption. }
    hoare_step u Hr.
    { hoare_error. eapply rate_validated_rate; try eassumption. now apply le_true. }
    hoare_step u' Hi.
    { hoare_error. apply le_false in Hr.
    eapply rate_validated_input; try eassumption. now apply lt_true. }
    hoare_step u1 Hu1; try apply Hstable.
    apply hoare_transaction; [exact Hblind|].
    apply hoare_ret. intros s Hs. split; [exact Hs|].
    apply le_false in Hr. apply lt_false in Hi.
    exact (rate_validated_completed segment input _ fail fp ff rate
             Hfp Hff Hrate Hr Hi).
Qed.

End Outcomes.

(** Every executor keeps an invariant of the ledger that does not depend on
    the balances of its wallet nor on the transactions, and returns one of
    the results of its kind. *)
Lemma executor_outcome (rnd : Simulator.Entropy) (idx : nat)
    (segment : RouteSegment) (input : Q) (wallet_address : option string)
    (executor : Executors.Executor) (Inv : Simulator.t -> Prop)
    (sim : Simulator.t) :
  Executors.executors (segment_type segment) = Some executor ->
  wallet_stable Inv (wallet_used wallet_address rnd) ->
  transaction_blind Inv ->
  Inv sim ->
  Inv (fst (executor rnd idx segment input wallet_address sim))
  /\ outcome_of rnd idx segment input wallet_address
       (snd (executor rnd idx segment input wallet_address sim)).
Proof.
  intros Hex Hstable Hblind Hsim. unfold outcome_of.
  destruct (segment_type segment) eqn:Ht; simpl in Hex;
    try discriminate Hex; injection Hex as <-.
  - now apply FXExecutor_outcome.
  - now apply CryptoExecutor_outcome.
  - now apply BridgeExecutor_outcome.
  - pose proof (RampExecutor_outcome rnd idx segment input wallet_address Inv sim
                  Hstable Hblind Hsim) as H.
    rewrite Ht in H. exact H.
  - pose proof (RampExecutor_outcome rnd idx segment input wallet_address Inv sim
                  Hstable Hblind Hsim) as H.
    rewrite Ht in H. exact H.
  - now apply BankRailExecutor_outcome.
Qed.

Lemma trivially_stable (w : string) : wallet_stable (fun _ => True) w.
Proof. split; repeat intro; exact I. Qed.

Lemma trivially_blind : transaction_blind (fun _ => True).
Proof. intros ? ? ? ?. exact I. Qed.

(** X13. Whatever the segment, the input amount and the ledger, an executor
    returns a result (it catches every exception) which carries the index,
    the input amount, the type, the two assets and the provider of the
    segment, and which is either COMPLETED without an error message, or
    FAILED with an error message, an output amount of 0, fees of 0, no
    transaction hash and no wallet address. *)
Theorem executor_result_shape (rnd : Simulator.Entropy) (idx : nat)
    (segment : RouteSegment) (input : Q) (wallet_address : option string)
    (sim : Simulator.t) :
  match Executors.executors (segment_type segment) with
  | None => True
  | Some executor =>
      let r := snd (executor rnd idx segment input wallet_address sim) in
      (segment_index r = idx /\ input_amount r = input
       /\ result_segment_type r = SegmentType_value (segment_type segment)
       /\ result_from_asset r = from_asset segment
       /\ result_to_asset r = to_asset segment
       /\ result_provider r = provider segment)
      /\ ((status r = SegmentExecutionStatus.COMPLETED /\ error_message r = None)
          \/ (status r = SegmentExecutionStatus.FAILED
              /\ output_amount r = 0 /\ fees_paid r = 0
              /\ transaction_hash r = None
              /\ simulation_wallet_address r = None
              /\ exists e, error_message r = Some e))
  end.
Proof.
  destruct (Executors.executors (segment_type segment)) as [executor|] eqn:Hex;
    [|exact I].
  destruct (executor_outcome rnd idx segment input wallet_address executor
              (fun _ => True) sim Hex (trivially_stable _) trivially_blind I)
    as [_ Hout].
  unfold outcome_of in Hout. cbv zeta.
  destruct (segment_type segment) eqn:Ht; try contradiction;
    destruct Hout; simpl;
    (split; [repeat split; rewrite ?Ht; reflexivity|]); eauto 10.
Qed.

Lemma max_zero_nonneg (x : Q) : 0 <= Py.max 0 x.
Proof. rewrite max_Qmax. apply Q.le_max_l. Qed.

Lemma max_zero_le (x y : Q) : 0 <= y -> x <= y -> Py.max 0 x <= y.
Proof. intros Hy Hx. rewrite max_Qmax. now apply Q.max_lub. Qed.

Lemma clamped_fees_nonneg (input fp ff : Q) :
  0 <= input -> 0 <= clamped_fees input fp ff.
Proof.
  intros Hi. unfold clamped_fees.
  pose proof (max_zero_nonneg (Py.min 100 fp)) as Hp.
  pose proof (max_zero_nonneg ff) as Hf.
  pose proof (Qmult_le_0_compat _ _ Hi Hp) as Hm.
  assert (0 <= input * Py.max 0 (Py.min 100 fp) / 100)
    by (apply Qle_shift_div_l; [reflexivity|lra]).
  lra.
Qed.

(** X14. The executors other than the FX executor report no negative
    amount: fees_paid and output_amount of every result are at least 0.  A
    COMPLETED result has an input amount that is not negative and a positive
    applied rate (1 for a bridge transfer), and its output amount is at most
    the input amount times this rate. *)
Theorem validated_amounts (rnd : Simulator.Entropy) (idx : nat)
    (segment : RouteSegment) (input : Q) (wallet_address : option string)
    (sim : Simulator.t) (executor : Executors.Executor) :
  Executors.executors (segment_type segment) = Some executor ->
  segment_type segment <> FX ->
  let r := snd (executor rnd idx segment input wallet_address sim) in
  0 <= fees_paid r
  /\ 0 <= output_amount r
  /\ (status r = SegmentExecutionStatus.COMPLETED ->
      0 <= input
      /\ exists rate, applied_rate segment = Some rate /\ 0 < rate
                      /\ output_amount r <= input * rate).
Proof.
  intros Hex Hfx r.
  destruct (executor_outcome rnd idx segment input wallet_address executor
              (fun _ => True) sim Hex (trivially_stable _) trivially_blind I)
    as [_ Hout].
  fold r in Hout. unfold outcome_of, applied_rate in *. clearbody r.
  assert (Hrate : forall fp ff rate,
             0 <= input -> 0 < rate ->
             0 <= clamped_fees input fp ff
             /\ 0 <= Py.max 0 (input - clamped_fees input fp ff) * rate
             /\ Py.max 0 (input - clamped_fees input fp ff) * rate <= input * rate).
  { intros fp ff rate Hi Hr.
    pose proof (clamped_fees_nonneg input fp ff Hi) as Hf.
    pose proof (max_zero_nonneg (input - clamped_fees input fp ff)) as H0.
    assert (H1 : Py.max 0 (input - clamped_fees input fp ff) <= input)
      by (apply max_zero_le; lra).
    split; [exact Hf|]. split; [apply Qmult_le_0_compat; lra|].
    apply Qmult_le_compat_r; lra. }
  destruct (segment_type segment) eqn:Ht; try contradiction; try congruence;
    destruct Hout; simpl;
    try (split; [lra|split; [lra|discriminate]]).
  all: try (destruct (Hrate fp ff rate) as (Hlaw1 & Hlaw2 & Hlaw3);
            [assumption|assumption|];
            split; [exact Hlaw1|]; split; [exact Hlaw2|]; intros _;
            split; [assumption|]; exists rate; auto).
  (* the bridge *)
  destruct (Hrate fp ff 1) as (Hlaw1 & Hlaw2 & Hlaw3); [assumption|reflexivity|].
  split; [exact Hlaw1|]. split; [apply max_zero_nonneg|]. intros _.
  split; [assumption|]. exists 1. split; [reflexivity|]. split; [reflexivity|].
  lra.
Qed.

Lemma validated_amounts_witness :
  let r := snd (Executors.BridgeExecutor Examples.rnd 0%nat
                  (Examples.segment_of BRIDGE 0.1 0 0.92) 1000 None Simulator.init) in
  0 <= fees_paid r /\ 0 <= output_amount r.
Proof.
  intros r.
  destruct (validated_amounts Examples.rnd 0%nat (Examples.segment_of BRIDGE 0.1 0 0.92)
              1000 None Simulator.init Executors.BridgeExecutor eq_refl)
    as (Hfees & Hout & _); [discriminate|].
  split; [exact Hfees|exact Hout].
Defined.

(** X15. A segment other than a bridge transfer whose cost dict holds
    [None] as its [effective_fx_rate] fails: the result is FAILED with the
    [TypeError] of the conversion as its error message, an output amount of
    0 and fees of 0. *)
Theorem none_rate_fails (rnd : Simulator.Entropy) (idx : nat)
    (segment : RouteSegment) (input : Q) (wallet_address : option string)
    (sim : Simulator.t) (executor : Executors.Executor) :
  Executors.executors (segment_type segment) = Some executor ->
  segment_type segment <> BRIDGE ->
  effective_fx_rate (cost segment) = PyNone ->
  let r := snd (executor rnd idx segment input wallet_address sim) in
  status r = SegmentExecutionStatus.FAILED
  /\ error_message r = Some TypeError
  /\ output_amount r = 0 /\ fees_paid r = 0.
Proof.
  intros Hex Hbridge Hnone r.
  destruct (executor_outcome rnd idx segment input wallet_address executor
              (fun _ => True) sim Hex (trivially_stable _) trivially_blind I)
    as [_ Hout].
  fold r in Hout. unfold outcome_of in Hout. clearbody r.
  assert (Hnum : forall rate,
             cost_number 1 (effective_fx_rate (cost segment)) <> Some rate)
    by (intros rate; rewrite Hnone; discriminate).
  destruct (segment_type segment); try contradiction; try congruence;
    destruct Hout; simpl; auto;
    match goal with
    | H : cost_number 1 _ = Some ?rate |- _ => destruct (Hnum rate H)
    end.
Qed.

Lemma none_rate_fails_witness :
  let transfer :=
    mkSegment BANK_RAIL "USD" "EUR" None None (mkCost (Num 0.5) (Num 0) PyNone)
              (mkLatency (Some 30%Z) (Some 60%Z)) 0.95 (Some "wise"%string) in
  let r := snd (Executors.BankRailExecutor Examples.rnd 0%nat transfer 1000 None
                  Simulator.init) in
  status r = SegmentExecutionStatus.FAILED /\ error_message r = Some TypeError.
Proof.
  intros transfer r.
  destruct (none_rate_fails Examples.rnd 0%nat transfer 1000 None Simulator.init
              Executors.BankRailExecutor eq_refl)
    as (Hstatus & Herror & _); [discriminate|reflexivity|].
  split; [exact Hstatus|exact Herror].
Defined.

(** X16. An executor changes no balance of a wallet other than the one it
    uses (the wallet address it is given, or else the generated one); the
    FX and the bank rail executors leave the whole simulator, wallets and
    transactions, as it was. *)
Theorem executor_isolation (rnd : Simulator.Entropy) (idx : nat)
    (segment : RouteSegment) (input : Q) (wallet_address : option string)
    (sim : Simulator.t) :
  match Executors.executors (segment_type segment) with
  | None => True
  | Some executor =>
      let sim' := fst (executor rnd idx segment input wallet_address sim) in
      (forall w' a : string,
          w' <> wallet_used wallet_address rnd ->
          balance sim' w' a = balance sim w' a)
      /\ (is_fx_or_bank_rail (segment_type segment) = true -> sim' = sim)
  end.
Proof.
  destruct (Executors.executors (segment_type segment)) as [executor|] eqn:Hex;
    [|exact I].
  cbv zeta. split.
  - set (Inv := fun s : Simulator.t =>
                  forall w' a : string,
                    w' <> wallet_used wallet_address rnd ->
                    balance s w' a = balance sim w' a).
    assert (Hstable : wallet_stable Inv (wallet_used wallet_address rnd)).
    { split.
      - intros w' s Hs w'' a Hne. rewrite balance_ensure_wallet. now apply Hs.
      - intros a x s Hs w'' a' Hne. rewrite balance_set_balance.
        destruct (decide (wallet_used wallet_address rnd = w'' /\ a = a'))
          as [[Heq _]|_]; [congruence|]. now apply Hs. }
    assert (Hblind : transaction_blind Inv).
    { intros s txs confs Hs w' a Hne. now apply Hs. }
    apply (executor_outcome rnd idx segment input wallet_address executor
             Inv sim Hex Hstable Hblind).
    intros w' a _. reflexivity.
  - intros Ht.
    destruct (segment_type segment); try discriminate Ht; simpl in Hex;
      injection Hex as <-.
    + apply (FXExecutor_outcome rnd idx segment input wallet_address
               (fun s => s = sim) sim eq_refl).
    + apply (BankRailExecutor_outcome rnd idx segment input wallet_address
               (fun s => s = sim) sim eq_refl).
Qed.

Section Recorded.

Import Simulator Executors.

Variables (rnd : Entropy) (idx : nat) (segment : RouteSegment) (input : Q)
          (wallet_address : option string).

Let w := wallet_used wallet_address rnd.
Let h := tx_hash rnd.

(** The state after the confirmation of the transaction of the segment. *)
Let confirmed (type : string) (s : Simulator.t) : Prop :=
  transactions s !! h
  = Some (mkTransaction type (Some w) (from_asset segment) input
            (from_network segment) "confirmed" (blocks rnd))
  /\ confirmations s !! h = Some (blocks rnd).

Lemma confirmed_stable (type : string) : wallet_stable (confirmed type) w.
Proof.
  split.
  - intros w' s Hs. unfold ensure_wallet.
    destruct (wallets s !! w'); exact Hs.
  - intros a x s Hs. unfold set_balance, ensure_wallet.
    destruct (wallets s !! w); exact Hs.
Qed.

Lemma hoare_transaction_recorded (type : string) {A} (k : M A)
    (Q : A -> Simulator.t -> Prop) (E : Exn -> Simulator.t -> Prop) :
  hoare (confirmed type) k Q E ->
  hoare (fun _ => True)
    (bind (call (create_transaction h type (Some w) (from_asset segment) input
                   (from_network segment)))
       (fun tx => bind (simulate_confirmation tx (blocks rnd)) (fun _ => k)))
    Q E.
Proof.
  intros Hk s _. unfold bind, call, create_transaction, simulate_confirmation.
  cbn [transactions wallets confirmations]. rewrite lookup_insert_eq.
  apply Hk. split; cbn [transactions wallets confirmations];
    now rewrite lookup_insert_eq.
Qed.

(** What a result says about the recorded transactions, and the state that
    goes with it. *)
Let recorded (type : string) (r : SegmentExecutionResult) (s : Simulator.t) : Prop :=
  status r = SegmentExecutionStatus.COMPLETED ->
  transaction_hash r = Some h /\ confirmed type s.

Ltac trivial_step a H :=
  hoare_step a H;
  try solve [ apply trivially_stable | apply confirmed_stable
            | intros ? ? ?; exact I ].

Lemma CryptoExecutor_recorded (sim : Simulator.t) :
  recorded "swap" (snd (CryptoExecutor rnd idx segment input wallet_address sim))
           (fst (CryptoExecutor rnd idx segment input wallet_address sim)).
Proof.
  unfold CryptoExecutor.
  apply (hoare_try_except (fun _ => True) _ _ (recorded "swap") (fun _ _ => True));
    [|auto|intros e s' _; discriminate|exact I].
  trivial_step wallet Hwallet. subst wallet. fold w.
  trivial_step u0 Hu0. trivial_step fp Hfp. trivial_step ff Hff.
  trivial_step rate Hrate. trivial_step u Hr. trivial_step u' Hi.
  trivial_step u1 Hu1.
  apply hoare_transaction_recorded.
  trivial_step u2 Hu2.
  apply hoare_ret. intros s Hs _. split; [reflexivity|exact Hs].
Qed.

Lemma BridgeExecutor_recorded (sim : Simulator.t) :
  recorded "bridge" (snd (BridgeExecutor rnd idx segment input wallet_address sim))
           (fst (BridgeExecutor rnd idx segment input wallet_address sim)).
Proof.
  unfold BridgeExecutor.
  apply (hoare_try_except (fun _ => True) _ _ (recorded "bridge") (fun _ _ => True));
    [|auto|intros e s' _; discriminate|exact I].
  trivial_step wallet Hwallet. subst wallet. fold w.
  trivial_step u0 Hu0. trivial_step fp Hfp. trivial_step ff Hff.
  trivial_step u' Hi. trivial_step u1 Hu1.
  apply hoare_transaction_recorded.
  trivial_step u2 Hu2.
  apply hoare_ret. intros s Hs _. split; [reflexivity|exact Hs].
Qed.

Lemma RampExecutor_recorded (sim : Simulator.t) :
  segment_type segment = OFF_RAMP ->
  recorded "off_ramp" (snd (RampExecutor rnd idx segment input wallet_address sim))
           (fst (RampExecutor rnd idx segment input wallet_address sim)).
Proof.
  intros Ht. unfold RampExecutor.
  replace (String.eqb (SegmentType_value (segment_type segment)) "on_ramp")
    with false by (rewrite Ht; reflexivity).
  apply (hoare_try_except (fun _ => True) _ _ (recorded "off_ramp") (fun _ _ => True));
    [|auto|intros e s' _; discriminate|exact I].
  trivial_step wallet Hwallet. subst wallet. fold w.
  trivial_step u0 Hu0. trivial_step fp Hfp. trivial_step ff Hff.
  trivial_step rate Hrate. trivial_step u Hr. trivial_step u' Hi.
  trivial_step u1 Hu1.
  apply hoare_transaction_recorded.
  apply hoare_ret. intros s Hs _. split; [reflexivity|exact Hs].
Qed.

(** The executors without a transaction leave the recorded transactions as
    they are. *)
Let untouched (sim : Simulator.t) (s : Simulator.t) : Prop :=
  transactions s = transactions sim /\ confirmations s = confirmations sim.

Lemma untouched_stable (sim : Simulator.t) : wallet_stable (untouched sim) w.
Proof.
  split.
  - intros w' s Hs. unfold ensure_wallet.
    destruct (wallets s !! w'); exact Hs.
  - intros a x s Hs. unfold set_balance, ensure_wallet.
    destruct (wallets s !! w); exact Hs.
Qed.

Lemma RampExecutor_unrecorded (sim : Simulator.t) :
  segment_type segment = ON_RAMP ->
  untouched sim (fst (RampExecutor rnd idx segment input wallet_address sim))
  /\ transaction_hash (snd (RampExecutor rnd idx segment input wallet_address sim))
     = None.
Proof.
  intros Ht. unfold RampExecutor.
  replace (String.eqb (SegmentType_value (segment_type segment)) "on_ramp")
    with true by (rewrite Ht; reflexivity).
  pose proof (untouched_stable sim) as Hstable.
  apply (hoare_try_except (untouched sim) _ _
           (fun r s => untouched sim s /\ transaction_hash r = None)
           (fun _ s => untouched sim s));
    [|auto|intros e s' Hs; split; [exact Hs|reflexivity]|split; reflexivity].
  hoare_step wallet Hwallet; try apply Hstable. subst wallet. fold w.
  hoare_step fp Hfp; [auto|]. hoare_step ff Hff; [auto|].
  hoare_step rate Hrate; [auto|]. hoare_step u Hr; [auto|].
  hoare_step u' Hi; [auto|]. hoare_step u2 Hu2; try apply Hstable.
  apply hoare_ret. intros s Hs. split; [exact Hs|reflexivity].
Qed.

End Recorded.

Section Credit.

Import Simulator Executors.

Variables (rnd : Entropy) (idx : nat) (segment : RouteSegment) (input : Q)
          (wallet_address : option string) (sim : Simulator.t).

Let w := wallet_used wallet_address rnd.

(** The balance of the target asset is as it was. *)
Let kept (s : Simulator.t) : Prop :=
  balance s w (to_asset segment) = balance sim w (to_asset segment).

(** The balance of the target asset has grown by the output of a completed
    result. *)
Let grown (r : SegmentExecutionResult) (s : Simulator.t) : Prop :=
  balance s w (to_asset segment)
  == balance sim w (to_asset segment)
     + (if SegmentExecutionStatus.eqb (status r) SegmentExecutionStatus.COMPLETED
        then output_amount r else 0).

Lemma kept_registration : registration_stable kept.
Proof. intros w' s Hs. unfold kept. now rewrite balance_ensure_wallet. Qed.

Lemma kept_balance :
  to_asset segment <> from_asset segment ->
  balance_stable kept w (from_asset segment).
Proof.
  intros Hne x s Hs. unfold kept. rewrite balance_set_balance.
  destruct (decide (w = w /\ from_asset segment = to_asset segment)) as [[_ Heq]|_];
    [congruence|exact Hs].
Qed.

Lemma kept_blind : transaction_blind kept.
Proof. intros s txs confs Hs. exact Hs. Qed.

Lemma kept_failed (networks : bool) (e : Exn) (s : Simulator.t) :
  kept s -> grown (failed idx segment networks input e) s.
Proof. intros Hs. unfold grown. simpl. rewrite Hs. ring. Qed.

Lemma hoare_credit (x : Q) {A} (k : M A) (Q : A -> Simulator.t -> Prop)
    (E : Exn -> Simulator.t -> Prop) :
  hoare (fun s => balance s w (to_asset segment)
                  = balance sim w (to_asset segment) + x) k Q E ->
  hoare kept (bind (exec (add_balance w (to_asset segment) x)) (fun _ => k)) Q E.
Proof.
  intros Hk s Hs. unfold bind, exec. apply Hk.
  rewrite balance_add_balance.
  destruct (decide (w = w /\ to_asset segment = to_asset segment)) as [_|[]]; auto.
  now rewrite Hs.
Qed.

Ltac kept_step a H :=
  hoare_step a H;
  try solve [ apply kept_registration | now apply kept_balance
            | intros ? ? Hkept; exact Hkept ].

Lemma CryptoExecutor_credit :
  to_asset segment <> from_asset segment ->
  grown (snd (CryptoExecutor rnd idx segment input wallet_address sim))
        (fst (CryptoExecutor rnd idx segment input wallet_address sim)).
Proof.
  intros Hne. unfold CryptoExecutor.
  apply (hoare_try_except kept _ _ grown (fun _ s => kept s));
    [|auto|intros; now apply kept_failed|reflexivity].
  kept_step wallet Hwallet. subst wallet. fold w.
  kept_step u0 Hu0. kept_step fp Hfp. kept_step ff Hff. kept_step rate Hrate.
  kept_step u Hr. kept_step u' Hi. kept_step u1 Hu1.
  apply hoare_transaction; [exact kept_blind|].
  apply hoare_credit. apply hoare_ret. intros s Hs. unfold grown. simpl.
  now rewrite Hs.
Qed.

Lemma BridgeExecutor_credit :
  to_asset segment <> from_asset segment ->
  grown (snd (BridgeExecutor rnd idx segment input wallet_address sim))
        (fst (BridgeExecutor rnd idx segment input wallet_address sim)).
Proof.
  intros Hne. unfold BridgeExecutor.
  apply (hoare_try_except kept _ _ grown (fun _ s => kept s));
    [|auto|intros; now apply kept_failed|reflexivity].
  kept_step wallet Hwallet. subst wallet. fold w.
  kept_step u0 Hu0. kept_step fp Hfp. kept_step ff Hff.
  kept_step u' Hi. kept_step u1 Hu1.
  apply hoare_transaction; [exact kept_blind|].
  apply hoare_credit. apply hoare_ret. intros s Hs. unfold grown. simpl.
  now rewrite Hs.
Qed.

Lemma RampExecutor_on_ramp_credit :
  segment_type segment = ON_RAMP ->
  grown (snd (RampExecutor rnd idx segment input wallet_address sim))
        (fst (RampExecutor rnd idx segment input wallet_address sim)).
Proof.
  intros Ht. unfold RampExecutor.
  replace (String.eqb (SegmentType_value (segment_type segment)) "on_ramp")
    with true by (rewrite Ht; reflexivity).
  apply (hoare_try_except kept _ _ grown (fun _ s => kept s));
    [|auto|intros; now apply kept_failed|reflexivity].
  kept_step wallet Hwallet. subst wallet. fold w.
  kept_step fp Hfp. kept_step ff Hff. kept_step rate Hrate.
  kept_step u Hr. kept_step u' Hi.
  apply hoare_credit. apply hoare_ret. intros s Hs. unfold grown. simpl.
  now rewrite Hs.
Qed.

Lemma RampExecutor_off_ramp_credit :
  segment_type segment = OFF_RAMP ->
  to_asset segment <> from_asset segment ->
  kept (fst (RampExecutor rnd idx segment input wallet_address sim)).
Proof.
  intros Ht Hne. unfold RampExecutor.
  replace (String.eqb (SegmentType_value (segment_type segment)) "on_ramp")
    with false by (rewrite Ht; reflexivity).
  apply (hoare_try_except kept _ _ (fun _ s => kept s) (fun _ s => kept s)
           (fun _ s => kept s)); [|auto|auto|reflexivity].
  kept_step wallet Hwallet. subst wallet. fold w.
  kept_step u0 Hu0. kept_step fp Hfp. kept_step ff Hff. kept_step rate Hrate.
  kept_step u Hr. kept_step u' Hi. kept_step u1 Hu1.
  apply hoare_transaction; [exact kept_blind|].
  apply hoare_ret. auto.
Qed.

End Credit.

(** X18. After the execution of an on-ramp, or of a segment whose target
    asset is not its source asset, the balance of the target asset in the
    wallet of the executor has grown by exactly the output amount when the
    segment is a completed crypto swap, bridge transfer or on-ramp, and is
    what it was otherwise: a failed segment, an off-ramp, an FX conversion
    and a bank transfer credit nothing. *)
Theorem executor_credits_output (rnd : Simulator.Entropy) (idx : nat)
    (segment : RouteSegment) (input : Q) (wallet_address : option string)
    (sim : Simulator.t) (executor : Executors.Executor) :
  Executors.executors (segment_type segment) = Some executor ->
  segment_type segment = ON_RAMP \/ to_asset segment <> from_asset segment ->
  let w := wallet_used wallet_address rnd in
  let sim' := fst (executor rnd idx segment input wallet_address sim) in
  let r := snd (executor rnd idx segment input wallet_address sim) in
  balance sim' w (to_asset segment)
  == balance sim w (to_asset segment) + credited segment r.
Proof.
  intros Hex Hne w sim' r. subst w sim' r. unfold credited.
  destruct (segment_type segment) eqn:Ht; simpl in Hex;
    try discriminate Hex; injection Hex as <-.
  - destruct (FXExecutor_outcome rnd idx segment input wallet_address
                (fun s => s = sim) sim eq_refl) as [-> _]. ring.
  - destruct Hne as [Hne|Hne]; [discriminate Hne|].
    now apply CryptoExecutor_credit.
  - destruct Hne as [Hne|Hne]; [discriminate Hne|].
    now apply BridgeExecutor_credit.
  - now apply RampExecutor_on_ramp_credit.
  - destruct Hne as [Hne|Hne]; [discriminate Hne|].
    pose proof (RampExecutor_off_ramp_credit rnd idx segment input wallet_address
                  sim Ht Hne) as Hkept.
    cbv zeta in Hkept. rewrite Hkept. ring.
  - destruct (BankRailExecutor_outcome rnd idx segment input wallet_address
                (fun s => s = sim) sim eq_refl) as [-> _]. ring.
Qed.

Lemma executor_credits_output_witness :
  let swap := Examples.segment_of CRYPTO 0.1 0 0.92 in
  let sim := Simulator.set_balance "0xw" "EUR" 50 Simulator.init in
  let sim' :=
    fst (Executors.CryptoExecutor Examples.rnd 0%nat swap 1000 (Some "0xw"%string) sim) in
  balance sim' "0xw" "EUR" == 969.08.
Proof.
  intros swap sim sim'.
  assert (Hne : segment_type swap = ON_RAMP \/ to_asset swap <> from_asset swap)
    by (right; discriminate).
  pose proof (executor_credits_output Examples.rnd 0%nat swap 1000
                (Some "0xw"%string) sim Executors.CryptoExecutor eq_refl Hne) as H.
  cbv zeta in H. fold sim' in H. apply (Qeq_trans _ _ _ H).
  vm_compute. reflexivity.
Defined.

(** X17. A completed crypto swap, bridge transfer or off-ramp reports the
    drawn transaction hash, under which the simulator then holds a
    transaction of the kind of the segment ("swap", "bridge", "off_ramp") of
    the input amount of the source asset from the wallet of the executor,
    confirmed after the drawn number of blocks.  The FX, the on-ramp and the
    bank rail executors report no transaction hash and record no
    transaction, whether they complete or fail. *)
Theorem executor_transaction_record (rnd : Simulator.Entropy) (idx : nat)
    (segment : RouteSegment) (input : Q) (wallet_address : option string)
    (sim : Simulator.t) :
  match Executors.executors (segment_type segment) with
  | None => True
  | Some executor =>
      let sim' := fst (executor rnd idx segment input wallet_address sim) in
      let r := snd (executor rnd idx segment input wallet_address sim) in
      match recorded_transaction rnd segment input wallet_address with
      | Some tx =>
          status r = SegmentExecutionStatus.COMPLETED ->
          transaction_hash r = Some (Simulator.tx_hash rnd)
          /\ SimulatorQueries.get_transaction_status (Simulator.tx_hash rnd) sim'
             = Some tx
          /\ Simulator.confirmations sim' !! Simulator.tx_hash rnd
             = Some (Simulator.blocks rnd)
      | None =>
          transaction_hash r = None
          /\ Simulator.transactions sim' = Simulator.transactions sim
          /\ Simulator.confirmations sim' = Simulator.confirmations sim
      end
  end.
Proof.
  unfold recorded_transaction, SimulatorQueries.get_transaction_status.
  destruct (segment_type segment) eqn:Ht; simpl; try exact I.
  - destruct (FXExecutor_outcome rnd idx segment input wallet_address
                (fun s => s = sim) sim eq_refl) as [-> Hout].
    split; [|auto]. destruct Hout; reflexivity.
  - intros Hdone.
    destruct (CryptoExecutor_recorded rnd idx segment input wallet_address sim Hdone)
      as (Hhash & Htx & Hconf). auto.
  - intros Hdone.
    destruct (BridgeExecutor_recorded rnd idx segment input wallet_address sim Hdone)
      as (Hhash & Htx & Hconf). auto.
  - destruct (RampExecutor_unrecorded rnd idx segment input wallet_address sim Ht)
      as [[Htx Hconf] Hhash]. auto.
  - intros Hdone.
    destruct (RampExecutor_recorded rnd idx segment input wallet_address sim Ht Hdone)
      as (Hhash & Htx & Hconf). auto.
  - destruct (BankRailExecutor_outcome rnd idx segment input wallet_address
                (fun s => s = sim) sim eq_refl) as [-> Hout].
    split; [|auto]. destruct Hout; reflexivity.
Qed.

Lemma executor_transaction_record_witness :
  let swap := Examples.segment_of CRYPTO 0.1 0 0.92 in
  let sim' :=
    fst (Executors.CryptoExecutor Examples.rnd 0%nat swap 1000 (Some "0xw"%string)
           Simulator.init) in
  SimulatorQueries.get_transaction_status "0x7a5c" sim'
  = Some (Simulator.mkTransaction "swap" (Some "0xw"%string) "USDC" 1000
            (Some "ethereum"%string) "confirmed" 3).
Proof.
  intros swap sim'.
  pose proof (executor_transaction_record Examples.rnd 0%nat swap 1000
                (Some "0xw"%string) Simulator.init) as H.
  simpl in H. destruct H as (_ & Htx & _); [reflexivity|exact Htx].
Defined.

Section LedgerTheorems.

Import Simulator SimulatorQueries.

(** X19. A transaction that [create_transaction] has created is reported
    by [get_transaction_status] as pending with 0 confirmations.
    [simulate_confirmation] on its hash returns the number of blocks; the
    transaction is then reported as confirmed with this number of
    confirmations and its other fields as before, the wallets and the other
    transactions are untouched, and confirming another hash that was never
    created still raises the not-found error and changes nothing. *)
Theorem transaction_lifecycle (s : Simulator.t) (h type : string)
    (from : option string) (a : string) (x : Q) (net : option string) (b : Z) :
  let s1 := snd (create_transaction h type from a x net s) in
  get_transaction_status h s1
  = Some (mkTransaction type from a x net "pending" 0)
  /\ confirmations s1 !! h = Some 0%Z
  /\ exists s2,
       simulate_confirmation h b s1 = (s2, inr b)
       /\ get_transaction_status h s2
          = Some (mkTransaction type from a x net "confirmed" b)
       /\ confirmations s2 !! h = Some b
       /\ wallets s2 = wallets s
       /\ (forall h', h' <> h ->
            get_transaction_status h' s2 = get_transaction_status h' s)
       /\ (forall h', get_transaction_status h' s = None -> h' <> h ->
            simulate_confirmation h' b s2 = (s2, inl (TransactionNotFound h'))).
Proof.
  unfold get_transaction_status, create_transaction, simulate_confirmation. simpl.
  rewrite !lookup_insert_eq. split; [reflexivity|]. split; [reflexivity|].
  eexists. split; [reflexivity|]. simpl. rewrite !lookup_insert_eq.
  repeat split.
  - intros h' Hne. now rewrite !lookup_insert_ne by congruence.
  - intros h' Hnone Hne. rewrite !lookup_insert_ne by congruence.
    now rewrite Hnone.
Qed.

Lemma transactions_ensure_wallet (s : Simulator.t) (w : string) :
  transactions (ensure_wallet w s) = transactions s
  /\ confirmations (ensure_wallet w s) = confirmations s.
Proof. unfold ensure_wallet. now destruct (wallets s !! w). Qed.

Lemma transactions_set_balance (s : Simulator.t) (w a : string) (x : Q) :
  transactions (set_balance w a x s) = transactions s
  /\ confirmations (set_balance w a x s) = confirmations s.
Proof. unfold set_balance. simpl. apply transactions_ensure_wallet. Qed.

(** X20. [subtract_balance] succeeds exactly when the amount does not
    exceed the balance; it then lowers this balance by the amount, which
    leaves it at 0 or more, and otherwise leaves it unchanged.  It changes
    no other balance and no transaction. *)
Theorem subtract_balance_debits (s : Simulator.t) (w a : string) (x : Q) :
  let ok := fst (subtract_balance w a x s) in
  let s' := snd (subtract_balance w a x s) in
  ok = Py.le x (balance s w a)
  /\ balance s' w a = (if ok then balance s w a - x else balance s w a)
  /\ (ok = true -> 0 <= balance s' w a)
  /\ (forall w' a', (w', a') <> (w, a) -> balance s' w' a' = balance s w' a')
  /\ transactions s' = transactions s.
Proof.
  cbv zeta. rewrite subtract_balance_spec.
  destruct (Py.le x (balance s w a)) eqn:E; simpl.
  - split; [reflexivity|].
    assert (Hb : balance (set_balance w a (balance s w a - x) (ensure_wallet w s)) w a
                 = balance s w a - x).
    { rewrite balance_set_balance.
      destruct (decide (w = w /\ a = a)) as [_|[]]; auto. }
    split; [exact Hb|]. split.
    + intros _. rewrite Hb. apply le_true in E. lra.
    + split.
      * intros w' a' Hne. rewrite balance_set_balance, balance_ensure_wallet.
        destruct (decide (w = w' /\ a = a')) as [[-> ->]|_]; congruence.
      * destruct (transactions_ensure_wallet (ensure_wallet w s) w) as [-> _].
        apply transactions_ensure_wallet.
  - split; [reflexivity|]. rewrite balance_ensure_wallet.
    split; [reflexivity|]. split; [discriminate|]. split.
    + intros w' a' _. apply balance_ensure_wallet.
    + apply transactions_ensure_wallet.
Qed.

(** X22. [get_balance] returns the balance, 0 for an unknown wallet or
    asset, and changes no balance and no transaction; but it registers the
    wallet it is asked about: afterwards the wallet is present, with the
    balances it had or with none, and every other wallet is as before. *)
Theorem get_balance_registers (s : Simulator.t) (w a : string) :
  let v := fst (get_balance w a s) in
  let s' := snd (get_balance w a s) in
  v = balance s w a
  /\ (forall w' a', balance s' w' a' = balance s w' a')
  /\ wallets s' !! w = Some (default ∅ (wallets s !! w))
  /\ (forall w', w' <> w -> wallets s' !! w' = wallets s !! w')
  /\ transactions s' = transactions s.
Proof.
  cbv zeta. rewrite get_balance_value, get_balance_state.
  split; [reflexivity|]. split; [intros; apply balance_ensure_wallet|].
  unfold ensure_wallet. destruct (wallets s !! w) eqn:E; simpl.
  - rewrite E. auto.
  - rewrite lookup_insert_eq. split; [reflexivity|]. split; [|reflexivity].
    intros w' Hne. now rewrite lookup_insert_ne by congruence.
Qed.

End LedgerTheorems.

(** ** The orchestrator *)

Section Runs.

Import Simulator Executors Orchestrator.

Lemma executor_input_amount (rnd : Entropy) (idx : nat) (segment : RouteSegment)
    (input : Q) (wallet : option string) (s : Simulator.t) (executor : Executor) :
  executors (segment_type segment) = Some executor ->
  input_amount (snd (executor rnd idx segment input wallet s)) = input.
Proof.
  intros Hex.
  destruct (executor_outcome rnd idx segment input wallet executor
              (fun _ => True) s Hex (trivially_stable _) trivially_blind I)
    as [_ Hout].
  unfold outcome_of in Hout.
  destruct (segment_type segment); try contradiction; destruct Hout; reflexivity.
Qed.

Lemma execute_segment_input (env : Env) (idx : nat) (d : SegmentDict.t)
    (a : Q) (wallet : option string) (svc : Service) :
  input_amount (snd (execute_segment env idx d a wallet svc)) = a.
Proof.
  unfold execute_segment.
  destruct (to_segment d) as [e|segment]; [reflexivity|].
  destruct (executors (segment_type segment)) as [executor|] eqn:Ex;
    [|reflexivity].
  pose proof (executor_input_amount (entropy env idx) idx segment a wallet
                (simulator svc) executor Ex) as Hin.
  destruct (executor (entropy env idx) idx segment a wallet (simulator svc))
    as [sim r]. simpl in Hin.
  destruct (Py.truthy (transaction_hash r)); exact Hin.
Qed.

Lemma any_failed_false (l : list SegmentExecutionResult) :
  Forall (fun r => has_failed r = false) l -> any_failed l = false.
Proof.
  induction 1 as [|r l Hr Hl IH]; simpl; [reflexivity|].
  unfold has_failed in Hr. now rewrite Hr, IH.
Qed.

Lemma any_failed_snoc (l : list SegmentExecutionResult) (r : SegmentExecutionResult) :
  has_failed r = true -> any_failed (l ++ [r]) = true.
Proof.
  intros Hr. unfold any_failed. rewrite existsb_app. simpl.
  unfold has_failed in Hr. rewrite Hr. now rewrite orb_true_r.
Qed.

Lemma build_response_status (svc : Service) (route : list SegmentDict.t)
    (results : list SegmentExecutionResult) (a b : Q) :
  response_status (build_response svc route results a b) = ExecutionStatus.FAILED
  <-> any_failed results = true.
Proof.
  unfold build_response. simpl.
  destruct (any_failed results); [split; reflexivity|].
  destruct (execution_state svc); split; discriminate.
Qed.

(** What a run of the loop adds to the results that it starts with. *)
Lemma sequential_loop_results (env : Env) (request : RouteExecutionRequest)
    (enable_ai_rerouting : bool) (n : nat) (items : list (nat * SegmentDict.t)) :
  forall (svc : Service) (l : Locals) (svc' : Service)
         (response : RouteExecutionResponse),
    sequential_loop env request enable_ai_rerouting n items svc l
    = Some (svc', response) ->
    Forall (fun r => has_failed r = false) (done l) ->
    amount_now l = match last (done l) with
                   | Some r => output_amount r
                   | None => amount request
                   end ->
    exists rs,
      response_segment_executions response = done l ++ rs
      /\ sublist (map segment_index rs) (map fst items)
      /\ chained (amount_now l) rs
      /\ final_amount response = settled (amount_now l) rs
      /\ Forall (fun r => has_failed r = false) (removelast rs)
      /\ (response_status response = ExecutionStatus.FAILED
          <-> exists r, last rs = Some r /\ has_failed r = true).
Proof.
  induction items as [|[idx d] items IH]; intros svc l svc' response Hrun Hok Hamount.
  - simpl in Hrun. injection Hrun as <- <-. exists []. rewrite app_nil_r.
    split; [reflexivity|]. split; [constructor|]. split; [exact I|].
    split; [reflexivity|]. split; [constructor|].
    rewrite build_response_status, (any_failed_false _ Hok).
    split; [discriminate|]. intros (r & Hr & _). discriminate Hr.
  - cbn [sequential_loop] in Hrun.
    set (svc1 := with_state (observed env idx (execution_state svc)) svc) in Hrun.
    assert (Hskip : forall rs,
               sublist (map segment_index rs) (map fst items) ->
               sublist (map segment_index rs) (map fst ((idx, d) :: items)))
      by (intros rs Hrs; now apply sublist_cons).
    assert (Hbody : forall svc0,
               match iteration env request enable_ai_rerouting idx d svc0 l with
               | Continue svc2 l2 =>
                   sequential_loop env request enable_ai_rerouting n items svc2 l2
               | Break svc2 l2 =>
                   Some (svc2, build_response svc2 (route_segments l2) (done l2)
                                              (amount request) (amount_now l2))
               end = Some (svc', response) ->
               exists rs,
                 response_segment_executions response = done l ++ rs
                 /\ sublist (map segment_index rs) (map fst ((idx, d) :: items))
                 /\ chained (amount_now l) rs
                 /\ final_amount response = settled (amount_now l) rs
                 /\ Forall (fun r => has_failed r = false) (removelast rs)
                 /\ (response_status response = ExecutionStatus.FAILED
                     <-> exists r, last rs = Some r /\ has_failed r = true)).
    { intros svc0 Hiter. unfold iteration in Hiter.
      destruct (if enable_ai_rerouting && (0 <? idx)%nat
                   && should_reroute env idx (amount_now l)
                then match calculate_reroute env idx request svc0 with
                     | (svc2, Some (s :: r)) => (svc2, Some (s :: r))
                     | (svc2, _) => (svc2, None)
                     end
                else (svc0, None)) as [svc2 [new_route|]].
      - (* the route is replaced, nothing is executed *)
        destruct (IH _ _ _ _ Hiter Hok Hamount)
          as (rs & Hres & Hsub & Hchain & Hfinal & Hlast & Hstatus).
        exists rs. simpl in *. auto 10.
      - pose proof (execute_segment_index env idx d (amount_now l)
                      (wallet_address l) svc2) as Hidx.
        pose proof (execute_segment_input env idx d (amount_now l)
                      (wallet_address l) svc2) as Hin.
        destruct (execute_segment env idx d (amount_now l) (wallet_address l) svc2)
          as [svc3 r]. simpl in Hidx, Hin.
        fold (has_failed r) in Hiter.
        destruct (has_failed r) eqn:Hfailed.
        + injection Hiter as <- <-. exists [r].
          split; [reflexivity|]. split.
          { simpl. rewrite Hidx. constructor. apply sublist_nil_l. }
          split; [simpl; auto|].
          split; [simpl; rewrite Hfailed; reflexivity|]. split; [constructor|].
          rewrite build_response_status. simpl done.
          rewrite (any_failed_snoc _ _ Hfailed).
          split; [eauto|reflexivity].
        + destruct (IH _ _ _ _ Hiter)
            as (rs & Hres & Hsub & Hchain & Hfinal & Hlast & Hstatus).
          { simpl. apply Forall_app. split; [exact Hok|]. now constructor. }
          { simpl. now rewrite last_snoc. }
          simpl in Hres, Hchain, Hfinal.
          exists (r :: rs). split; [rewrite Hres, <- List.app_assoc; reflexivity|].
          split; [simpl; rewrite Hidx; now constructor|].
          split; [simpl; auto|]. split; [simpl; now rewrite Hfailed|].
          destruct rs as [|r' rs].
          * split; [constructor|]. rewrite Hstatus. simpl.
            split; intros (r0 & Hr0 & Hf).
            -- discriminate Hr0.
            -- injection Hr0 as <-. congruence.
          * split.
            -- change (removelast (r :: r' :: rs)) with (r :: removelast (r' :: rs)).
               now constructor.
            -- rewrite Hstatus. now rewrite last_cons_cons. }
    destruct (execution_state svc1) eqn:Hstate.
    + now apply Hbody in Hrun.
    + destruct (resumed env idx) as [st|]; [|discriminate Hrun].
      now apply Hbody in Hrun.
    + injection Hrun as <- <-. exists []. rewrite app_nil_r.
      split; [reflexivity|]. split; [apply sublist_nil_l|].
      split; [exact I|]. split; [simpl; now rewrite Hamount|].
      split; [constructor|]. simpl.
      split; [discriminate|]. intros (r & Hr & _). discriminate Hr.
    + destruct (IH _ _ _ _ Hrun Hok Hamount)
        as (rs & Hres & Hsub & Hchain & Hfinal & Hlast & Hstatus).
      exists rs. auto 10.
Qed.

Lemma enumerate_indices {A} (l : list A) :
  map fst (enumerate l) = seq 0 (length l).
Proof.
  unfold enumerate. generalize 0%nat.
  induction l as [|x l IH]; intros i; simpl; [reflexivity|]. now rewrite IH.
Qed.

End Runs.

(** X23. A sequential execution that returns has executed segments in
    ascending order of their index, each at most once; no result before
    the last one is FAILED, so it stops at the first failure; and the
    response is FAILED exactly when its last result is. *)
Theorem sequential_stops_at_failure (env : Orchestrator.Env) (sim : Simulator.t)
    (request : Orchestrator.RouteExecutionRequest) (route : list SegmentDict.t)
    (enable_ai_rerouting : bool) (svc : Orchestrator.Service)
    (response : Orchestrator.RouteExecutionResponse) :
  Orchestrator.execute_route env sim request route false enable_ai_rerouting
  = Some (svc, response) ->
  let rs := Orchestrator.response_segment_executions response in
  sublist (map segment_index rs) (seq 0 (length route))
  /\ Forall (fun r => has_failed r = false) (removelast rs)
  /\ (Orchestrator.response_status response = ExecutionStatus.FAILED
      <-> exists r, last rs = Some r /\ has_failed r = true).
Proof.
  unfold Orchestrator.execute_route, Orchestrator.execute_sequential. intros Hrun.
  destruct (sequential_loop_results _ _ _ _ _ _ _ _ _ Hrun)
    as (rs & Hres & Hsub & _ & _ & Hlast & Hstatus);
    [constructor|reflexivity|].
  simpl in Hres. cbv zeta. rewrite Hres.
  rewrite enumerate_indices in Hsub. auto.
Qed.

Lemma sequential_stops_at_failure_witness :
  exists svc response,
    Orchestrator.execute_route (Examples.quiet (fun _ => false)) Simulator.init
                               Examples.request Examples.route false true
    = Some (svc, response)
    /\ sublist (map segment_index
                  (Orchestrator.response_segment_executions response))
               [0; 1; 2]%nat.
Proof.
  destruct (Orchestrator.execute_route (Examples.quiet (fun _ => false))
              Simulator.init Examples.request Examples.route false true)
    as [[svc response]|] eqn:E; [|vm_compute in E; discriminate E].
  exists svc, response. split; [reflexivity|].
  apply (sequential_stops_at_failure _ _ _ _ _ _ _ E).
Defined.

(** X24. In a sequential execution that returns, the first segment is
    executed on the requested amount and every later one on the output
    amount of the segment executed before it; final_amount is the output
    amount of the last result before a failed one, and the requested amount
    when there is none. *)
Theorem sequential_amounts_chain (env : Orchestrator.Env) (sim : Simulator.t)
    (request : Orchestrator.RouteExecutionRequest) (route : list SegmentDict.t)
    (enable_ai_rerouting : bool) (svc : Orchestrator.Service)
    (response : Orchestrator.RouteExecutionResponse) :
  Orchestrator.execute_route env sim request route false enable_ai_rerouting
  = Some (svc, response) ->
  let rs := Orchestrator.response_segment_executions response in
  chained (Orchestrator.amount request) rs
  /\ Orchestrator.final_amount response = settled (Orchestrator.amount request) rs.
Proof.
  unfold Orchestrator.execute_route, Orchestrator.execute_sequential. intros Hrun.
  destruct (sequential_loop_results _ _ _ _ _ _ _ _ _ Hrun)
    as (rs & Hres & _ & Hchain & Hfinal & _);
    [constructor|reflexivity|].
  simpl in Hres, Hchain, Hfinal. cbv zeta. rewrite Hres. auto.
Qed.

Lemma sequential_amounts_chain_witness :
  exists svc response,
    Orchestrator.execute_route (Examples.cancelled_at 2) Simulator.init
                               Examples.request Examples.route false true
    = Some (svc, response)
    /\ chained 1000 (Orchestrator.response_segment_executions response)
    /\ Orchestrator.final_amount response
       = settled 1000 (Orchestrator.response_segment_executions response).
Proof.
  destruct (Orchestrator.execute_route (Examples.cancelled_at 2)
              Simulator.init Examples.request Examples.route false true)
    as [[svc response]|] eqn:E; [|vm_compute in E; discriminate E].
  exists svc, response. split; [reflexivity|].
  apply (sequential_amounts_chain _ _ _ _ _ _ _ E).
Defined.

Section Parallel.

Import Simulator Executors Orchestrator.

Variable env : Env.







End Parallel.


(** X27. A sequential execution that is cancelled before its first segment
    returns CANCELLED with no segment result, total_fees 0 and the requested
    amount as final_amount, and leaves the simulator untouched. *)
Theorem cancelled_before_start (env : Orchestrator.Env) (sim : Simulator.t)
    (request : Orchestrator.RouteExecutionRequest) (route : list SegmentDict.t)
    (enable_ai_rerouting : bool) :
  Orchestrator.observed env 0 ExecutionState.RUNNING = ExecutionState.CANCELLING ->
  exists svc response,
    Orchestrator.execute_route env sim request route false enable_ai_rerouting
    = Some (svc, response)
    /\ Orchestrator.response_status response = ExecutionStatus.CANCELLED
    /\ Orchestrator.response_segment_executions response = []
    /\ Orchestrator.total_fees response = 0
    /\ Orchestrator.final_amount response = Orchestrator.amount request
    /\ Orchestrator.simulator svc = sim.
Proof.
  intros Hcancel.
  unfold Orchestrator.execute_route, Orchestrator.execute_sequential.
  destruct route as [|d route]; simpl; rewrite Hcancel; simpl.
  - eexists _, _. split; [reflexivity|]. unfold Orchestrator.build_response. simpl.
    repeat split.
  - eexists _, _. split; [reflexivity|]. repeat split.
Qed.

Lemma cancelled_before_start_witness :
  exists svc response,
    Orchestrator.execute_route (Examples.cancelled_at 0) Simulator.init
                               Examples.request Examples.route false true
    = Some (svc, response)
    /\ Orchestrator.response_status response = ExecutionStatus.CANCELLED
    /\ Orchestrator.final_amount response = 1000.
Proof.
  destruct (cancelled_before_start (Examples.cancelled_at 0) Simulator.init
              Examples.request Examples.route true eq_refl)
    as (svc & response & Hrun & Hstatus & _ & _ & Hfinal & _).
  exists svc, response. auto.
Defined.
